(** * mpubsub: a shallow embedding of the dispatcher, the network endpoint
    and the broker, with the properties of their publication paths.

    The code:
    - [Py]       : the Python values the three modules exchange
                   (exceptions, topics, messages).
    - [Endpoint] : [mpubsub.PubSub] (src/mpubsub/__init__.py) and its
                   subclass [mpubsub.net.PubSub] (src/mpubsub/net.py), as
                   one interpreter: subscribers are callbacks that may
                   call back into the object they are attached to.
    - [Broker]   : the forwarder thread of [mpubsub.broker.Broker]
                   (src/mpubsub/broker.py); the acceptor thread and the
                   transport are its environment.

    The statements:
    - [Spec], [BrokerSpec] : the notions the properties are stated with.
    - [Examples]           : concrete subscribers, tables and schedules.
    - then, per component, the lemmas and the properties C1-C10.  *)

From stdpp Require Import gmap strings list fin_maps.

Open Scope string_scope.
Open Scope list_scope.
Open Scope nat_scope.

(* ===================================================================== *)
(** ** Python values *)
(* ===================================================================== *)

Module Py.

(** The exception classes the code raises or catches. *)
Inductive Exn :=
  | TypeError | ValueError | AssertionError | IndexError | KeyError
  | RuntimeError | EOFError | OSError
  | ConnectionError | ConnectionResetError | BrokenPipeError.

#[global] Instance Exn_eq_dec : EqDecision Exn.
Proof. solve_decision. Defined.

(** [isinstance e cls]: [except cls] catches [e].  The only hierarchy the
    code depends on is ConnectionResetError, BrokenPipeError <:
    ConnectionError <: OSError. *)
Definition isinstance (e cls : Exn) : bool :=
  match e, cls with
  | ConnectionResetError, (ConnectionError | OSError) => true
  | BrokenPipeError, (ConnectionError | OSError) => true
  | ConnectionError, OSError => true
  | _, _ => bool_decide (e = cls)
  end.

(** Payload values ([Any] restricted to what the examples need). *)
Inductive PyVal :=
  | PyNone | PyBool (b : bool) | PyInt (z : Z) | PyStr (s : string).

#[global] Instance PyVal_eq_dec : EqDecision PyVal.
Proof. solve_decision. Defined.

(** [**kwargs]: Dict[str, Any]. *)
Abbreviation Kwargs := (list (string * PyVal)) (only parsing).

(** typing.py: Topic = Union[Tuple[str, ...], str, None]. *)
Inductive Topic :=
  | TNone
  | TStr (s : string)
  | TTuple (t : list string).

#[global] Instance Topic_eq_dec : EqDecision Topic.
Proof. solve_decision. Defined.

(** typing.py: Message = Tuple[Topic, Dict[str, Any]]. *)
Abbreviation Message := (Topic * Kwargs)%type (only parsing).

(** The normalisation at the head of add_subscriber and remove_subscriber:
    [if topic is None: topic = ()  elif not isinstance(topic, tuple):
    topic = (topic,)]. *)
Definition as_tuple (topic : Topic) : list string :=
  match topic with
  | TNone => []
  | TStr s => [s]
  | TTuple t => t
  end.

(** Truth value of a topic ([if topic ...]): None, '' and () are false. *)
Definition truthy (topic : Topic) : bool :=
  match topic with
  | TNone => false
  | TStr s => negb (bool_decide (s = ""))
  | TTuple t => negb (bool_decide (t = []))
  end.

End Py.

Export Py.

(* ===================================================================== *)
(** ** mpubsub.PubSub and mpubsub.net.PubSub *)
(* ===================================================================== *)

Module Endpoint.

(** A subscriber is a callable object; the model keeps its identity.
    Equal identities are [==] in Python. *)
Abbreviation SubId := nat (only parsing).

(** A weak reference is known by its referent. *)
Abbreviation Ref := SubId (only parsing).

(** LOCAL_SUFFIX = '*local' *)
Definition LOCAL_SUFFIX : string := "*local".

(** What a subscriber's body may do with the pub-sub it is attached to. *)
Inductive Action :=
  | ActAdd (topic : Topic) (s : SubId)       (* pubsub.add_subscriber(topic, s) *)
  | ActRemove (topic : Topic) (s : SubId)    (* pubsub.remove_subscriber(topic, s) *)
  | ActClear                                 (* pubsub.clear_subscribers() *)
  | ActPublish (topic : Topic) (kw : Kwargs) (* pubsub.publish(topic, **kw) *)
  | ActRaise (e : Exn).                      (* raise e *)

(** A subscriber: its signature (does the call [sub(topic, **kw)] bind?)
    and its body. *)
Record Subscriber := {
  accepts : Kwargs → bool;
  body : list string → Kwargs → list Action
}.

(** The broker connection of an endpoint, seen from the endpoint.
    [readable] is the schedule of inbound data: [Some m] makes [poll()]
    true and [recv()] return [m]; [None] makes one [poll()] false.
    [send_results] gives the outcome of the successive [send] calls
    ([None]: sent; exhausted: sent). *)
Record Connection := {
  readable : list (option Message);
  send_results : list (option Exn)
}.

Inductive Class := ClsPubSub | ClsNetPubSub.

Inductive Event :=
  | EvCall (s : SubId) (orig : list string) (kw : Kwargs)
      (* sub(orig_topic, **kwargs) is evaluated *)
  | EvWarn (s : SubId)        (* warnings.warn(...), not turned into an error *)
  | EvSent (m : Message)      (* self._conn.send(msg) went through *)
  | EvLogError                (* logger.error(...) *)
  | EvClosed.                 (* self._conn.close() *)

#[global] Instance Event_eq_dec : EqDecision Event.
Proof. solve_decision. Defined.

(** The object.  [_subs] maps a topic tuple to a list object; list
    objects live in [heap] and are shared by reference, as in Python.
    [collected] holds the subscribers the garbage collector reclaimed:
    their weak references resolve to None. *)
Record State := {
  cls : Class;
  _subs : gmap (list string) nat;
  heap : list (list Ref);
  collected : gset SubId;
  _conn : option Connection;
  _flushing : bool;
  _pending_send : list Message;
  _pending_publish : list Message;
  events : list Event
}.

Definition set_subs (f : gmap (list string) nat → gmap (list string) nat)
    (st : State) : State :=
  {| cls := cls st; _subs := f (_subs st); heap := heap st;
     collected := collected st; _conn := _conn st;
     _flushing := _flushing st; _pending_send := _pending_send st;
     _pending_publish := _pending_publish st; events := events st |}.

Definition set_heap (f : list (list Ref) → list (list Ref))
    (st : State) : State :=
  {| cls := cls st; _subs := _subs st; heap := f (heap st);
     collected := collected st; _conn := _conn st;
     _flushing := _flushing st; _pending_send := _pending_send st;
     _pending_publish := _pending_publish st; events := events st |}.

Definition set_conn (c : option Connection) (st : State) : State :=
  {| cls := cls st; _subs := _subs st; heap := heap st;
     collected := collected st; _conn := c;
     _flushing := _flushing st; _pending_send := _pending_send st;
     _pending_publish := _pending_publish st; events := events st |}.

Definition set_flushing (b : bool) (st : State) : State :=
  {| cls := cls st; _subs := _subs st; heap := heap st;
     collected := collected st; _conn := _conn st;
     _flushing := b; _pending_send := _pending_send st;
     _pending_publish := _pending_publish st; events := events st |}.

Definition set_pending_send (q : list Message) (st : State) : State :=
  {| cls := cls st; _subs := _subs st; heap := heap st;
     collected := collected st; _conn := _conn st;
     _flushing := _flushing st; _pending_send := q;
     _pending_publish := _pending_publish st; events := events st |}.

Definition set_pending_publish (q : list Message) (st : State) : State :=
  {| cls := cls st; _subs := _subs st; heap := heap st;
     collected := collected st; _conn := _conn st;
     _flushing := _flushing st; _pending_send := _pending_send st;
     _pending_publish := q; events := events st |}.

Definition log (ev : Event) (st : State) : State :=
  {| cls := cls st; _subs := _subs st; heap := heap st;
     collected := collected st; _conn := _conn st;
     _flushing := _flushing st; _pending_send := _pending_send st;
     _pending_publish := _pending_publish st;
     events := events st ++ [ev] |}.

(** mpubsub.PubSub.__init__ *)
Definition init : State :=
  {| cls := ClsPubSub; _subs := ∅; heap := []; collected := ∅;
     _conn := None; _flushing := false; _pending_send := [];
     _pending_publish := []; events := [] |}.

(** mpubsub.net.PubSub.__init__ *)
Definition net_init : State :=
  {| cls := ClsNetPubSub; _subs := ∅; heap := []; collected := ∅;
     _conn := None; _flushing := false; _pending_send := [];
     _pending_publish := []; events := [] |}.

(** The list object at [loc]. *)
Definition heap_list (st : State) (loc : nat) : list Ref :=
  default [] (heap st !! loc).

(** [ref()]: the referent, or None once it was collected. *)
Definition resolve (st : State) (r : Ref) : option SubId :=
  if decide (r ∈ collected st) then None else Some r.

(** PubSub.add_subscriber *)
Definition add_subscriber (topic : Topic) (subscriber : SubId)
    (st : State) : State :=
  let topic := as_tuple topic in
  (* if topic not in self._subs: self._subs[topic] = [] *)
  let st :=
    match _subs st !! topic with
    | Some _ => st
    | None => set_subs <[topic := length (heap st)]>
                (set_heap (λ h, h ++ [[]]) st)
    end in
  (* self._subs[topic].append(ref) *)
  match _subs st !! topic with
  | Some loc => set_heap (alter (λ l, l ++ [subscriber]) loc) st
  | None => st
  end.

(** [for ref in subs: sub = ref(); if sub == subscriber: ...]: the first
    reference whose referent equals [subscriber]. *)
Fixpoint find_ref (st : State) (subscriber : SubId) (subs : list Ref)
    : option Ref :=
  match subs with
  | [] => None
  | ref :: rest =>
      match resolve st ref with
      | Some sub =>
          if decide (sub = subscriber) then Some ref
          else find_ref st subscriber rest
      | None => find_ref st subscriber rest
      end
  end.

(** [list.remove(x)]: drop the first element equal to [x]. *)
Fixpoint list_remove_first (x : Ref) (l : list Ref) : list Ref :=
  match l with
  | [] => []
  | y :: rest => if decide (y = x) then rest else y :: list_remove_first x rest
  end.

(** PubSub.remove_subscriber *)
Definition remove_subscriber (topic : Topic) (subscriber : SubId)
    (st : State) : State :=
  let topic := as_tuple topic in
  match _subs st !! topic with
  | None => st                                   (* except KeyError: return *)
  | Some loc =>
      match find_ref st subscriber (heap_list st loc) with
      | Some ref => set_heap (alter (list_remove_first ref) loc) st
      | None => st
      end
  end.

(** PubSub.clear_subscribers: the dict is emptied; list objects that are
    still referenced elsewhere are untouched. *)
Definition clear_subscribers (st : State) : State :=
  set_subs (λ _, ∅) st.

(** Outcome of a call. *)
Inductive Res :=
  | Ok (st : State)
  | Raise (e : Exn) (st : State)
  | OutOfFuel.

(** The calls the interpreter knows: the methods, and the loops inside
    them that are not structural. *)
Inductive Call :=
  | CPublish (topic : Topic) (kw : Kwargs)
      (* mpubsub.PubSub.publish(topic, **kw) *)
  | CPublishWhile (topic orig : list string) (kw : Kwargs)
      (* its [while True] loop, at [topic] *)
  | CPublishFor (loc i : nat) (orig : list string) (kw : Kwargs)
      (* its [for ref in subs] loop over the list object [loc], the
         iterator standing at index [i] *)
  | CSubscriber (s : SubId) (orig : list string) (kw : Kwargs)
      (* sub(orig_topic, **kwargs) *)
  | CNetPublish (topic : Topic) (kw : Kwargs)
      (* mpubsub.net.PubSub.publish(topic, **kw) *)
  | CFlush                      (* mpubsub.net.PubSub._flush() *)
  | CFlushWhile                 (* its outer while loop *)
  | CDrain.                     (* its inner [while True] loop *)

(** The local-only test of net.PubSub.publish:
    [topic and isinstance(topic, tuple) and topic[-1] == LOCAL_SUFFIX]. *)
Definition is_local (topic : Topic) : bool :=
  truthy topic &&
  match topic with
  | TTuple t => bool_decide (last t = Some LOCAL_SUFFIX)
  | _ => false
  end.

(** [self._conn.send(msg)]: outcome and connection afterwards. *)
Definition conn_send (c : Connection) : option Exn * Connection :=
  match send_results c with
  | [] => (None, c)
  | r :: rest => (r, {| readable := readable c; send_results := rest |})
  end.

(** net.PubSub._recv_all, on the inbound schedule:
    [while self._conn.poll(): self._pending_publish.append(self._conn.recv())]. *)
Fixpoint recv_loop (inbound : list (option Message)) (queue : list Message)
    : list (option Message) * list Message :=
  match inbound with
  | Some m :: rest => recv_loop rest (queue ++ [m])
  | None :: rest => (rest, queue)
  | [] => ([], queue)
  end.

(** It is called under the loop condition of _flush, which has checked
    [self._conn]; [poll] and [recv] are taken not to raise. *)
Definition _recv_all (st : State) : State :=
  match _conn st with
  | None => st
  | Some c =>
      let '(inbound, queue) := recv_loop (readable c) (_pending_publish st) in
      set_pending_publish queue
        (set_conn (Some {| readable := inbound;
                           send_results := send_results c |}) st)
  end.

(** The [try] statement of _flush. *)
Inductive TryResult :=
  | TryNext (st : State)             (* fall through to the drain loop *)
  | TryBreak (st : State)            (* break *)
  | TryRaise (e : Exn) (st : State). (* an exception no clause catches *)

Definition try_send (st : State) : TryResult :=
  match _pending_send st, _conn st with
  | [], _ => TryNext st              (* popleft: IndexError: pass *)
  | _ :: _, None => TryRaise AssertionError st   (* excluded by the loop condition *)
  | msg :: rest, Some c =>
      let st := set_pending_send rest st in
      let '(r, c') := conn_send c in
      let st := set_conn (Some c') st in
      match r with
      | None => TryNext (log (EvSent msg) st)
      | Some e =>
          if isinstance e IndexError then TryNext st
          else if isinstance e ValueError then TryNext (log EvLogError st)
          else if isinstance e ConnectionResetError then
            (* self._pending_send.clear(); self._conn.close();
               self._conn = None; break *)
            TryBreak (set_conn None (log EvClosed (set_pending_send [] st)))
          else TryRaise e st
      end
  end.

(** The condition of the outer loop of _flush:
    [(self._pending_publish or self._pending_send) and self._conn]. *)
Definition flush_cond (st : State) : bool :=
  (negb (bool_decide (_pending_publish st = []))
   || negb (bool_decide (_pending_send st = [])))
  && bool_decide (is_Some (_conn st)).

Section Interpreter.

(** The subscribers of the process. *)
Variable impl : SubId → Subscriber.

(** The interpreter one level down. *)
Variable rec : Call → State → Res.

Definition do_action (a : Action) (st : State) : Res :=
  match a with
  | ActAdd topic s => Ok (add_subscriber topic s st)
  | ActRemove topic s => Ok (remove_subscriber topic s st)
  | ActClear => Ok (clear_subscribers st)
  | ActPublish topic kw =>
      (* method resolution on the object's class *)
      match cls st with
      | ClsPubSub => rec (CPublish topic kw) st
      | ClsNetPubSub => rec (CNetPublish topic kw) st
      end
  | ActRaise e => Raise e st
  end.

Fixpoint run (acts : list Action) (st : State) : Res :=
  match acts with
  | [] => Ok st
  | a :: rest =>
      match do_action a st with
      | Ok st' => run rest st'
      | r => r
      end
  end.

(** [sub(orig_topic, **kwargs)]: bind the arguments (TypeError when the
    signature rejects them), then run the body. *)
Definition call_subscriber (s : SubId) (orig : list string) (kw : Kwargs)
    (st : State) : Res :=
  if accepts (impl s) kw then run (body (impl s) orig kw) st
  else Raise TypeError st.

(** PubSub.publish, lines 99-106: one step of [for ref in subs].  The
    list iterator holds the list object and an index; it reads the list
    as it is now. *)
Definition publish_for (loc i : nat) (orig : list string) (kw : Kwargs)
    (st : State) : Res :=
  match heap_list st loc !! i with
  | None => Ok st                                    (* StopIteration *)
  | Some ref =>
      match resolve st ref with
      | None => rec (CPublishFor loc (S i) orig kw) st   (* continue *)
      | Some sub =>
          match rec (CSubscriber sub orig kw) (log (EvCall sub orig kw) st) with
          | Ok st' => rec (CPublishFor loc (S i) orig kw) st'
          | Raise e st' =>
              if isinstance e TypeError
              then rec (CPublishFor loc (S i) orig kw) (log (EvWarn sub) st')
              else Raise e st'
          | OutOfFuel => OutOfFuel
          end
      end
  end.

(** PubSub.publish, lines 93-109: one turn of [while True];
    [topic[:-1]] is [removelast topic]. *)
Definition publish_while (topic orig : list string) (kw : Kwargs)
    (st : State) : Res :=
  let r :=
    match _subs st !! topic with
    | None => Ok st                                  (* except KeyError: pass *)
    | Some loc => rec (CPublishFor loc 0 orig kw) st
    end in
  match r with
  | Ok st' =>
      if bool_decide (topic = []) then Ok st'        (* if not topic: break *)
      else rec (CPublishWhile (removelast topic) orig kw) st'
  | _ => r
  end.

(** PubSub.publish *)
Definition publish (topic : Topic) (kw : Kwargs) (st : State) : Res :=
  match topic with
  | TNone => Raise AssertionError st   (* assert isinstance(topic, (str, tuple)) *)
  | TStr s => rec (CPublishWhile [s] [s] kw) st
  | TTuple t => rec (CPublishWhile t t kw) st
  end.

(** net.PubSub._flush, lines 210-215. *)
Definition drain (st : State) : Res :=
  match _pending_publish st with
  | [] => Ok st                                      (* IndexError: break *)
  | (topic, kw) :: rest =>
      match rec (CPublish topic kw) (set_pending_publish rest st) with
      | Ok st' => rec CDrain st'
      | r => r
      end
  end.

(** net.PubSub._flush, lines 194-215: one turn of the outer loop. *)
Definition flush_while (st : State) : Res :=
  if flush_cond st then
    match try_send (_recv_all st) with
    | TryBreak st' => Ok st'
    | TryRaise e st' => Raise e st'
    | TryNext st' =>
        match rec CDrain st' with
        | Ok st'' => rec CFlushWhile st''
        | r => r
        end
    end
  else Ok st.

(** net.PubSub._flush *)
Definition _flush (st : State) : Res :=
  match _conn st with
  | None => Raise AssertionError st                  (* assert self._conn *)
  | Some _ =>
      if _flushing st then Raise AssertionError st   (* 'Already flushing' *)
      else
        match rec CFlushWhile (set_flushing true st) with
        | Ok st' => Ok (set_flushing false st')
        | r => r
        end
  end.

(** net.PubSub.publish *)
Definition net_publish (topic : Topic) (kw : Kwargs) (st : State) : Res :=
  if negb (bool_decide (is_Some (_conn st))) || is_local topic then
    rec (CPublish topic kw) st                       (* super().publish *)
  else
    let st := set_pending_publish (_pending_publish st ++ [(topic, kw)]) st in
    let st := set_pending_send (_pending_send st ++ [(topic, kw)]) st in
    if _flushing st then Ok st else rec CFlush st.

Definition step (c : Call) (st : State) : Res :=
  match c with
  | CPublish topic kw => publish topic kw st
  | CPublishWhile topic orig kw => publish_while topic orig kw st
  | CPublishFor loc i orig kw => publish_for loc i orig kw st
  | CSubscriber s orig kw => call_subscriber s orig kw st
  | CNetPublish topic kw => net_publish topic kw st
  | CFlush => _flush st
  | CFlushWhile => flush_while st
  | CDrain => drain st
  end.

End Interpreter.

(** The interpreter: every call and every turn of a loop costs one unit
    of fuel. *)
Fixpoint exec (impl : SubId → Subscriber) (fuel : nat) (c : Call)
    (st : State) : Res :=
  match fuel with
  | O => OutOfFuel
  | S fuel' => step impl (exec impl fuel') c st
  end.

(** The invocations recorded in a run: (subscriber, first argument,
    keyword arguments). *)
Fixpoint invocations (evs : list Event)
    : list (SubId * list string * Kwargs) :=
  match evs with
  | [] => []
  | EvCall s orig kw :: rest => (s, orig, kw) :: invocations rest
  | _ :: rest => invocations rest
  end.

(** The references stored under a key, in list order. *)
Definition subs_at (st : State) (key : list string) : list Ref :=
  match _subs st !! key with
  | Some loc => heap_list st loc
  | None => []
  end.

End Endpoint.

(* ===================================================================== *)
(** ** mpubsub.broker.Broker *)
(* ===================================================================== *)

Module Broker.

(** A connection object, known by its identity ([is]). *)
Abbreviation Conn := nat (only parsing).

(** What travels on a connection (broker.py, lines 78-89). *)
Inductive Wire :=
  | WTrue                 (* True: INIT *)
  | WFalse                (* False: STOP *)
  | WNone                 (* None: NEWCONN *)
  | WEllipsis             (* Ellipsis: NEWPUBSUB *)
  | WMsg (m : Message)    (* (topic, kwargs): MSG *)
  | WOther (tag : nat).   (* any other picklable object *)

#[global] Instance Wire_eq_dec : EqDecision Wire.
Proof. solve_decision. Defined.

Definition INIT := WTrue.
Definition STOP := WFalse.
Definition NEWCONN := WNone.
Definition NEWPUBSUB := WEllipsis.

(** Outcome of [conn.recv()]. *)
Inductive RecvResult :=
  | Recv (w : Wire)
  | RecvRaise (e : Exn).

Inductive Event :=
  | EvSend (c : Conn) (w : Wire) (r : option Exn)
      (* c.send(w) was called; [r] is the exception it raised, if any *)
  | EvClose (c : Conn)           (* c.close() *)
  | EvLogCritical.               (* logger.critical(...) *)

#[global] Instance Event_eq_dec : EqDecision Event.
Proof. solve_decision. Defined.

(** The broker object with the forwarder's [pending] list, the outcomes
    the transport has in store for the successive [send] calls on each
    connection ([None]: sent; exhausted: sent), and the record of what
    was done. *)
Record State := {
  _clients : gset Conn;
  pending : list (Conn * Wire);
  send_results : Conn → list (option Exn);
  events : list Event
}.

Definition set_clients (s : gset Conn) (st : State) : State :=
  {| _clients := s; pending := pending st;
     send_results := send_results st; events := events st |}.

Definition set_pending (p : list (Conn * Wire)) (st : State) : State :=
  {| _clients := _clients st; pending := p;
     send_results := send_results st; events := events st |}.

Definition log (ev : Event) (st : State) : State :=
  {| _clients := _clients st; pending := pending st;
     send_results := send_results st; events := events st ++ [ev] |}.

(** [c.send(w)]: the outcome, recorded. *)
Definition conn_send (c : Conn) (w : Wire) (st : State) : option Exn * State :=
  let r := match send_results st c with [] => None | r :: _ => r end in
  (r,
   {| _clients := _clients st; pending := pending st;
      send_results := λ c', if decide (c' = c) then tail (send_results st c)
                            else send_results st c';
      events := events st ++ [EvSend c w r] |}).

Inductive Res (A : Type) :=
  | Ok (a : A)
  | Raise (e : Exn) (st : State)   (* the thread dies with [e] *)
  | Blocked (st : State).          (* the thread waits for ever *)
Arguments Ok {A} a.
Arguments Raise {A} e st.
Arguments Blocked {A} st.

(** Broker._send, lines 238-249: the body of [for other_conn in clients]. *)
Definition send_to (conn control : Conn) (m : Message) (other_conn : Conn)
    (closed : gset Conn) (st : State) : Res (gset Conn * State) :=
  if bool_decide (other_conn = conn) || bool_decide (other_conn = control)
     || bool_decide (other_conn ∈ closed)
  then Ok (closed, st)                                   (* continue *)
  else
    match conn_send other_conn (WMsg m) st with
    | (None, st') => Ok (closed, st')
    | (Some e, st') =>
        if isinstance e ConnectionError then
          Ok ({[other_conn]} ∪ closed, log (EvClose other_conn) st')
        else if isinstance e ValueError then
          Ok (closed, log EvLogCritical st')
        else Raise e st'
    end.

Fixpoint send_each (conn control : Conn) (m : Message) (dsts : list Conn)
    (closed : gset Conn) (st : State) : Res (gset Conn * State) :=
  match dsts with
  | [] => Ok (closed, st)
  | other_conn :: rest =>
      match send_to conn control m other_conn closed st with
      | Ok (closed', st') => send_each conn control m rest closed' st'
      | r => r
      end
  end.

(** Broker._send, line 236: [for conn, (topic, kwargs) in pending]. *)
Fixpoint send_pending (control : Conn) (clients : gset Conn)
    (queue : list (Conn * Wire)) (closed : gset Conn) (st : State)
    : Res (gset Conn * State) :=
  match queue with
  | [] => Ok (closed, st)
  | (conn, WMsg m) :: rest =>
      match send_each conn control m (elements clients) closed st with
      | Ok (closed', st') => send_pending control clients rest closed' st'
      | r => r
      end
  | (conn, _) :: rest => Raise TypeError st   (* the entry does not unpack *)
  end.

(** Broker._send.  [joined] are the connections the acceptor thread adds
    to [self._clients] between the two locked regions. *)
Definition _send (control : Conn) (joined : gset Conn) (st : State)
    : Res State :=
  let clients := _clients st in                  (* self._clients.copy() *)
  match send_pending control clients (pending st) ∅ st with
  | Ok (closed, st') =>
      let st' := set_pending [] st' in           (* pending.clear() *)
      Ok (set_clients ((_clients st' ∪ joined) ∖ closed) st')
  | Raise e st' => Raise e st'
  | Blocked st' => Blocked st'
  end.

(** Broker._get_control_conn, over the connections [accept()] returns
    and the result of the first [recv()] on each. *)
Fixpoint _get_control_conn (accepted : list (Conn * RecvResult))
    (st : State) : Res (Conn * State) :=
  match accepted with
  | [] => Blocked st                             (* in accept() *)
  | (conn, r) :: rest =>
      let st := set_clients ({[conn]} ∪ _clients st) st in
      match r with
      | RecvRaise e => Raise e st
      | Recv msg =>
          match msg with
          | WTrue =>                             (* INIT *)
              match conn_send conn WTrue st with
              | (None, st') => Ok (conn, st')
              | (Some e, st') => Raise e st'
              end
          | WEllipsis =>                         (* NEWPUBSUB *)
              match conn_send conn WEllipsis st with
              | (None, st') => _get_control_conn rest st'
              | (Some e, st') => Raise e st'
              end
          | WFalse =>                            (* STOP *)
              _get_control_conn rest
                (log (EvClose conn) (set_clients (_clients st ∖ {[conn]}) st))
          | _ =>
              _get_control_conn rest
                (set_pending (pending st ++ [(conn, msg)]) st)
          end
      end
  end.

(** Broker._broker, lines 186-207: the body of [for conn in conns].
    [control] is the local variable, None once STOP came in on it. *)
Definition read_one (conn : Conn) (r : RecvResult)
    (control : option Conn) (closed : gset Conn) (st : State)
    : Res (option Conn * gset Conn * State) :=
  let recvd :=
    match r with
    | Recv w => inl w
    | RecvRaise e =>
        if isinstance e EOFError then inl WNone
        else if isinstance e OSError then inl WNone
        else inr e
    end in
  match recvd with
  | inr e => Raise e st
  | inl msg =>
      if bool_decide (control = Some conn) then
        match conn_send conn msg st with         (* control.send(msg) *)
        | (Some e, st') => Raise e st'
        | (None, st') =>
            match msg with
            | WFalse => Ok (None, closed, st')   (* control = None *)
            | WNone => Ok (control, closed, st')
            | _ => Raise AssertionError st'      (* assert msg is None *)
            end
        end
      else
        match msg with
        | WNone | WFalse =>
            Ok (control, {[conn]} ∪ closed, log (EvClose conn) st)
        | _ => Ok (control, closed, set_pending (pending st ++ [(conn, msg)]) st)
        end
  end.

Fixpoint read_ready (ready : list (Conn * RecvResult))
    (control : option Conn) (closed : gset Conn) (st : State)
    : Res (option Conn * gset Conn * State) :=
  match ready with
  | [] => Ok (control, closed, st)
  | (conn, r) :: rest =>
      match read_one conn r control closed st with
      | Ok (control', closed', st') => read_ready rest control' closed' st'
      | r => r
      end
  end.

(** What the rest of the world does during one turn of the forwarder's
    main loop: the connections the acceptor thread adds to the client
    set before each of the four locked regions of the turn, and what
    [wait] and [recv] return. *)
Record Round := {
  joined_before_copy : gset Conn;
  ready : list (Conn * RecvResult);
  joined_before_prune : gset Conn;
  joined_before_send : gset Conn;
  joined_during_send : gset Conn
}.

(** Broker._broker, lines 222-225. *)
Definition close_all (st : State) : State :=
  set_clients ∅
    (foldl (λ st c, log (EvClose c) st) st (elements (_clients st))).

(** Broker._broker, lines 176-220: the main loop. *)
Fixpoint main_loop (control : Conn) (rounds : list Round) (st : State)
    : Res State :=
  match rounds with
  | [] =>
      if bool_decide (_clients st = ∅) then Ok st else Blocked st
  | rd :: rest =>
      let st := set_clients (_clients st ∪ joined_before_copy rd) st in
      if bool_decide (_clients st = ∅) then Ok st          (* break *)
      else
        let clients := _clients st in
        let conns := filter (λ cr, fst cr ∈ clients) (ready rd) in
        match read_ready conns (Some control) ∅ st with
        | Raise e st' => Raise e st'
        | Blocked st' => Blocked st'
        | Ok (None, _, st') => Ok st'                      (* break *)
        | Ok (Some control', closed, st') =>
            let st' :=
              set_clients ((_clients st' ∪ joined_before_prune rd) ∖ closed)
                st' in
            let st' :=
              set_clients (_clients st' ∪ joined_before_send rd) st' in
            match _send control' (joined_during_send rd) st' with
            | Ok st'' => main_loop control rest st''
            | r => r
            end
        end
  end.

(** Broker._broker *)
Definition _broker (accepted : list (Conn * RecvResult))
    (rounds : list Round) (st : State) : Res State :=
  match _get_control_conn accepted st with
  | Raise e st' => Raise e st'
  | Blocked st' => Blocked st'
  | Ok (control, st') =>
      match main_loop control rounds st' with
      | Ok st'' => Ok (close_all st'')
      | r => r
      end
  end.

(** Broker.__init__ *)
Definition init (send_results : Conn → list (option Exn)) : State :=
  {| _clients := ∅; pending := []; send_results := send_results;
     events := [] |}.

(** The connections a message was handed to without error. *)
Definition delivered (evs : list Event) : list (Conn * Wire) :=
  omap (λ ev, match ev with
              | EvSend c w None => Some (c, w)
              | _ => None
              end) evs.

End Broker.

(* ===================================================================== *)
(** ** Reference notions used to state the properties *)
(* ===================================================================== *)

Module Spec.
Import Endpoint.

(** The keys the [while True] loop of publish visits: the topic, then the
    topic without its last element, ..., then the empty tuple. *)
Definition prefixes (t : list string) : list (list string) :=
  (λ n, take n t) <$> reverse (seq 0 (S (length t))).

(** The state with more events recorded and nothing else changed. *)
Definition append_events (evs : list Event) (st : State) : State :=
  {| cls := cls st; _subs := _subs st; heap := heap st;
     collected := collected st; _conn := _conn st;
     _flushing := _flushing st; _pending_send := _pending_send st;
     _pending_publish := _pending_publish st;
     events := events st ++ evs |}.

(** How the call [sub(orig, **kw)] ends when the subscriber leaves the
    pub-sub alone: [Some None] it returns, [Some (Some e)] it raises [e]
    (TypeError when the arguments do not bind).  [None]: the body starts
    with an operation on the pub-sub. *)
Definition outcome (impl : SubId → Subscriber) (s : SubId)
    (orig : list string) (kw : Kwargs) : option (option Exn) :=
  if accepts (impl s) kw then
    match body (impl s) orig kw with
    | [] => Some None
    | ActRaise e :: _ => Some (Some e)
    | _ => None
    end
  else Some (Some TypeError).

(** The subscriber returns, or raises TypeError. *)
Definition passive (impl : SubId → Subscriber) (s : SubId)
    (orig : list string) (kw : Kwargs) : Prop :=
  outcome impl s orig kw = Some None ∨
  outcome impl s orig kw = Some (Some TypeError).

(** How a delivery ends. *)
Inductive Ending :=
  | Completed                (* every reference was served *)
  | Raised (e : Exn)         (* a subscriber raised [e], not a TypeError *)
  | Interfered.              (* a subscriber operated on the pub-sub *)

(** Delivery to a sequence of references, as far as the subscribers
    leave the pub-sub alone: the events, and how it ended. *)
Fixpoint deliver (impl : SubId → Subscriber) (dead : gset SubId)
    (orig : list string) (kw : Kwargs) (refs : list Ref)
    : list Event * Ending :=
  match refs with
  | [] => ([], Completed)
  | r :: rest =>
      if decide (r ∈ dead) then deliver impl dead orig kw rest
      else
        match outcome impl r orig kw with
        | Some None =>
            let '(evs, x) := deliver impl dead orig kw rest in
            (EvCall r orig kw :: evs, x)
        | Some (Some e) =>
            if isinstance e TypeError then
              let '(evs, x) := deliver impl dead orig kw rest in
              (EvCall r orig kw :: EvWarn r :: evs, x)
            else ([EvCall r orig kw], Raised e)
        | None => ([], Interfered)
        end
  end.

Definition finish (st : State) (d : list Event * Ending) : Res :=
  match d with
  | (evs, Completed) => Ok (append_events evs st)
  | (evs, Raised e) => Raise e (append_events evs st)
  | (evs, Interfered) => OutOfFuel
  end.

(** All references publish([t]) walks through, in the order of the walk. *)
Definition targets (st : State) (t : list string) : list Ref :=
  flat_map (subs_at st) (prefixes t).

(** The live ones among them. *)
Definition live_targets (st : State) (t : list string) : list SubId :=
  filter (λ s, s ∉ collected st) (targets st t).

(** The fuel publish needs when no subscriber touches the pub-sub. *)
Definition publish_fuel (st : State) (t : list string) : nat :=
  length t + length (targets st t) + 3.

(** The warnings recorded in a run. *)
Definition warnings (evs : list Event) : list SubId :=
  omap (λ ev, match ev with EvWarn s => Some s | _ => None end) evs.

(** The messages handed to the broker connection in a run. *)
Definition sent (evs : list Event) : list Message :=
  omap (λ ev, match ev with EvSent m => Some m | _ => None end) evs.

(** How many references to a subscriber a list holds. *)
Definition occurrences (s : SubId) (l : list Ref) : nat :=
  length (filter (λ x, x = s) l).

(** How many times a subscriber was invoked in a run. *)
Definition times_invoked (s : SubId) (evs : list Event) : nat :=
  length (filter (λ i, i.1.1 = s) (invocations evs)).

(** No message waiting for the broker carries a local-only topic. *)
Definition queue_clean (st : State) : Prop :=
  ∀ m, m ∈ _pending_send st → is_local m.1 = false.

(** From [st] to [st'] no message with a local-only topic was queued for
    the broker or handed to the connection. *)
Definition no_local_leak (st st' : State) : Prop :=
  queue_clean st' ∧
  ∀ m, is_local m.1 = true → EvSent m ∈ events st' → EvSent m ∈ events st.

Definition leak_free (st : State) (r : Res) : Prop :=
  match r with
  | Ok st' | Raise _ st' => no_local_leak st st'
  | OutOfFuel => True
  end.

(** The state a call ends in, by return or by exception. *)
Definition final (r : Res) : option State :=
  match r with
  | Ok st | Raise _ st => Some st
  | OutOfFuel => None
  end.

(** [flush_reaches impl fuel st fuel' st']: the outer loop of _flush,
    entered in [st], comes to the head of a later turn in [st'] (with
    [fuel'] left) after turns that each sent or skipped and drained
    without an exception. *)
Inductive flush_reaches (impl : SubId → Subscriber)
    : nat → State → nat → State → Prop :=
  | reaches_here fuel st : flush_reaches impl fuel st fuel st
  | reaches_next fuel st st1 st2 fuel' st' :
      flush_cond st = true →
      try_send (_recv_all st) = TryNext st1 →
      exec impl fuel CDrain st1 = Ok st2 →
      flush_reaches impl fuel st2 fuel' st' →
      flush_reaches impl (S fuel) st fuel' st'.

(** Every key of the table owns a list object of its own. *)
Definition table_wf (st : State) : Prop :=
  ∀ p loc, _subs st !! p = Some loc →
    loc < length (heap st) ∧
    ∀ p', _subs st !! p' = Some loc → p' = p.

End Spec.

(* ===================================================================== *)
(** ** Concrete subscribers and tables *)
(* ===================================================================== *)

Module Examples.
Import Endpoint.

(** A subscriber that takes any keyword arguments and returns. *)
Definition quiet : Subscriber :=
  {| accepts := λ _, true; body := λ _ _, [] |}.

(** 1 unsubscribes itself from ('a',) when called; 3 takes no keyword
    argument; the body of 4 raises TypeError; the body of 5 raises
    ValueError; 8 publishes ('n',) when called; all others are [quiet]. *)
Definition impl_ex (s : SubId) : Subscriber :=
  match s with
  | 1 => {| accepts := λ _, true;
            body := λ _ _, [ActRemove (TTuple ["a"]) 1] |}
  | 3 => {| accepts := λ kw, bool_decide (kw = []); body := λ _ _, [] |}
  | 4 => {| accepts := λ _, true; body := λ _ _, [ActRaise TypeError] |}
  | 5 => {| accepts := λ _, true; body := λ _ _, [ActRaise ValueError] |}
  | 8 => {| accepts := λ _, true;
            body := λ _ _, [ActPublish (TTuple ["n"]) []] |}
  | _ => quiet
  end.

Definition kw_hello : Kwargs := [("message", PyStr "hello")].

(** 7 on ('a','b'); 3 then 2 on ('a',); 6 on the empty key; 9 on ('x',). *)
Definition st_tree : State :=
  add_subscriber (TStr "x") 9
    (add_subscriber TNone 6
       (add_subscriber (TStr "a") 2
          (add_subscriber (TTuple ["a"]) 3
             (add_subscriber (TTuple ["a"; "b"]) 7 init)))).

(** 1 then 2 on ('a',). *)
Definition st_unsub : State :=
  add_subscriber (TTuple ["a"]) 2 (add_subscriber (TTuple ["a"]) 1 init).

(** 4 then 2 on ('a',). *)
Definition st_typeerror : State :=
  add_subscriber (TTuple ["a"]) 2 (add_subscriber (TTuple ["a"]) 4 init).

(** 2 then 5 then 6 on ('a',). *)
Definition st_valueerror : State :=
  add_subscriber (TTuple ["a"]) 6
    (add_subscriber (TTuple ["a"]) 5 (add_subscriber (TTuple ["a"]) 2 init)).

(** 6 on the empty key. *)
Definition st_root : State := add_subscriber TNone 6 init.

(** A connection on which nothing comes in and every send goes through. *)
Definition conn_idle : Connection := {| readable := []; send_results := [] |}.

(** A connected network endpoint with 6 on the empty key. *)
Definition st_connected : State :=
  set_conn (Some conn_idle) (add_subscriber TNone 6 net_init).

(** The same endpoint in the middle of its work: two publications wait
    to be sent and to be dispatched; the first send goes through, the
    second is reset by the peer; one message can be read before the first
    send and another before the second. *)
Definition st_reset : State :=
  set_pending_send [(TTuple ["p"], []); (TTuple ["q"], [])]
    (set_pending_publish [(TTuple ["p"], []); (TTuple ["q"], [])]
       (set_conn
          (Some {| readable := [Some (TTuple ["in1"], []); None;
                                Some (TTuple ["in2"], [])];
                   send_results := [None; Some ConnectionResetError] |})
          st_connected)).

(** A broker with the control connection 0 and the clients 1, 2 and 3;
    1 and 2 have each published once; the peer of 3 is gone. *)
Definition bk_fanout : Broker.State :=
  {| Broker._clients := {[0; 1; 2; 3]};
     Broker.pending := [(1, Broker.WMsg (TTuple ["d"], []));
                        (2, Broker.WMsg (TTuple ["e"], []))];
     Broker.send_results :=
       λ c, match c with 3 => [Some BrokenPipeError] | _ => [] end;
     Broker.events := [] |}.

(** What happens around a broker that is told to stop right after its
    start: the control connection 0 says INIT, then STOP. *)
Definition stop_round : Broker.Round :=
  {| Broker.joined_before_copy := ∅;
     Broker.ready := [(0, Broker.Recv Broker.STOP)];
     Broker.joined_before_prune := ∅;
     Broker.joined_before_send := ∅;
     Broker.joined_during_send := ∅ |}.

(** A client 1 that joins, publishes and leaves. *)
Definition client_rounds : list Broker.Round :=
  [ {| Broker.joined_before_copy := {[1]};
       Broker.ready := [(0, Broker.Recv Broker.NEWCONN);
                        (1, Broker.Recv (Broker.WMsg (TTuple ["d"], [])))];
       Broker.joined_before_prune := ∅;
       Broker.joined_before_send := ∅;
       Broker.joined_during_send := ∅ |};
    {| Broker.joined_before_copy := ∅;
       Broker.ready := [(1, Broker.Recv Broker.STOP)];
       Broker.joined_before_prune := ∅;
       Broker.joined_before_send := ∅;
       Broker.joined_during_send := ∅ |};
    stop_round ].

End Examples.

(* ===================================================================== *)
(** ** Reference notions for the broker *)
(* ===================================================================== *)

Module BrokerSpec.
Import Broker.

(** An outcome of [send] that Broker._send handles: no exception, a
    ConnectionError, or a ValueError. *)
Definition handled (r : option Exn) : Prop :=
  match r with
  | None => True
  | Some e =>
      isinstance e ConnectionError = true ∨ isinstance e ValueError = true
  end.

(** What Broker._send leaves alone while it sends. *)
Definition frame (st st' : State) : Prop :=
  _clients st' = _clients st ∧
  pending st' = pending st ∧
  ∀ c x, x ∈ send_results st' c → x ∈ send_results st c.

(** The closed set agrees with what was recorded: a connection is in it
    exactly when it was closed, exactly when a send to it raised a
    ConnectionError; and nothing is sent to a connection after that. *)
Definition tidy (closed : gset Conn) (evs : list Event) : Prop :=
  (∀ dst, dst ∈ closed ↔ EvClose dst ∈ evs) ∧
  (∀ dst, dst ∈ closed ↔
          ∃ w e, EvSend dst w (Some e) ∈ evs ∧
                 isinstance e ConnectionError = true) ∧
  (∀ i j dst w e w' r',
     i < j →
     evs !! i = Some (EvSend dst w (Some e)) →
     isinstance e ConnectionError = true →
     evs !! j ≠ Some (EvSend dst w' r')).

(** The sends recorded in [evs] carry [m] from [conn] to members of
    [dsts] other than [conn] and [control]. *)
Definition sends_within (conn control : Conn) (m : Message)
    (dsts : list Conn) (evs : list Event) : Prop :=
  ∀ dst w r, EvSend dst w r ∈ evs →
    w = WMsg m ∧ dst ∈ dsts ∧ dst ≠ conn ∧ dst ≠ control.

(** Every member of [dsts] other than [conn] and [control] was sent [m],
    unless it is closed. *)
Definition covers (conn control : Conn) (m : Message) (dsts : list Conn)
    (closed : gset Conn) (evs : list Event) : Prop :=
  ∀ dst, dst ∈ dsts → dst ≠ conn → dst ≠ control →
    (∃ r, EvSend dst (WMsg m) r ∈ evs) ∨ dst ∈ closed.

(** The state a thread ends in: returned, died or blocked. *)
Definition res_state {A : Type} (get : A → State) (r : Res A) : State :=
  match r with
  | Ok a => get a
  | Raise _ st | Blocked st => st
  end.

(** From [st] to [st'] events were added, all of them satisfying [Q]. *)
Definition grows (Q : Event → Prop) (st st' : State) : Prop :=
  ∃ evs, events st' = events st ++ evs ∧ Forall Q evs.

(** A send carries a payload. *)
Definition payload_only (ev : Event) : Prop :=
  ∀ c w r, ev = EvSend c w r → ∃ m, w = WMsg m.

(** A send goes to [control]. *)
Definition to_control (control : Conn) (ev : Event) : Prop :=
  ∀ c w r, ev = EvSend c w r → c = control.

(** A send goes to [control] or carries a payload. *)
Definition echo_or_payload (control : Conn) (ev : Event) : Prop :=
  ∀ c w r, ev = EvSend c w r → c = control ∨ ∃ m, w = WMsg m.

(** A send is the echo of INIT or of NEWPUBSUB. *)
Definition handshake_echo (ev : Event) : Prop :=
  ∀ c w r, ev = EvSend c w r → w = INIT ∨ w = NEWPUBSUB.


End BrokerSpec.

(** Case analysis on membership in an explicit list. *)
Ltac each_member H :=
  repeat (apply elem_of_cons in H as [->|H]);
  [.. | by apply elem_of_nil in H].

(* ===================================================================== *)
(** ** mpubsub.net.PubSub: connecting, disconnecting, polling *)
(* ===================================================================== *)

Module Lifecycle.
Import Endpoint.

(** The network endpoint with the two attributes that only set_broker
    and connect use ([address] is [Any], [authkey] is [bytes]). *)
Record NetPubSub := {
  endpoint : State;
  _address : string;
  _authkey : string
}.

(** net.PubSub.set_broker.  [process_authkey] is
    [mp.current_process().authkey]; [authkey or ...] falls back to it
    for None and for the empty key. *)
Definition set_broker (process_authkey : string) (address : string)
    (authkey : option string) (o : NetPubSub) : Exn + NetPubSub :=
  if bool_decide (is_Some (_conn (endpoint o))) then
    inl RuntimeError         (* 'Cannot change broker on a connected pub-sub' *)
  else
    inr {| endpoint := endpoint o;
           _address := address;
           _authkey := match authkey with
                       | Some key =>
                           if bool_decide (key = "") then process_authkey
                           else key
                       | None => process_authkey
                       end |}.

(** net.PubSub.connect.  [dial address authkey] is what
    [Client(address, authkey=authkey)] gives: a connection, or the
    exception it raises; [reply] is the result of the [recv()] that
    follows the [send(...)].  On every failure the object is as before
    (a connection that answered wrongly is closed and dropped). *)
Definition connect (dial : string → string → Exn + Connection)
    (reply : Broker.RecvResult) (o : NetPubSub) : Exn + NetPubSub :=
  if bool_decide (is_Some (_conn (endpoint o))) then
    inl RuntimeError                                 (* 'Already connected' *)
  else
    match dial (_address o) (_authkey o) with
    | inl e => inl e
    | inr conn =>
        match conn_send conn with                    (* conn.send(...) *)
        | (Some e, _) => inl e
        | (None, conn') =>
            match reply with                         (* res = conn.recv() *)
            | Broker.RecvRaise e => inl e
            | Broker.Recv Broker.WEllipsis =>
                inr {| endpoint := set_conn (Some conn') (endpoint o);
                       _address := _address o;
                       _authkey := _authkey o |}
            | Broker.Recv _ => inl RuntimeError      (* conn.close(); raise *)
            end
        end
    end.

(** net.PubSub.disconnect *)
Definition disconnect (st : State) : Res :=
  match _conn st with
  | None => Raise RuntimeError st                    (* 'Not connected' *)
  | Some c =>
      let st := set_pending_send [] st in            (* self._pending_send.clear() *)
      match conn_send c with                         (* self._conn.send(False) *)
      | (Some e, c') => Raise e (set_conn (Some c') st)
      | (None, c') =>
          (* self._conn.close(); self._conn = None *)
          Ok (set_conn None (log EvClosed (set_conn (Some c') st)))
      end
  end.

(** What poll gives back. *)
Inductive PollRes :=
  | Polled (found : bool) (st : State)   (* return found *)
  | PollRaise (e : Exn) (st : State)
  | PollOutOfFuel.

(** net.PubSub.poll, for a finite [timeout]: a [None] at the head of the
    inbound schedule (or its end) is [self._conn.poll(timeout)] being
    false. *)
Definition poll (impl : SubId → Subscriber) (fuel : nat) (st : State)
    : PollRes :=
  match _conn st with
  | None => PollRaise RuntimeError st                (* 'Not connected' *)
  | Some c =>
      match readable c with
      | [] => Polled false st
      | None :: rest =>
          Polled false
            (set_conn (Some {| readable := rest;
                               send_results := send_results c |}) st)
      | Some _ :: _ =>
          let st := _recv_all st in
          if _flushing st then Polled true st
          else
            match exec impl fuel CFlush st with
            | Ok st' => Polled true st'
            | Raise e st' => PollRaise e st'
            | OutOfFuel => PollOutOfFuel
            end
      end
  end.

End Lifecycle.

(* ===================================================================== *)
(** ** More reference notions *)
(* ===================================================================== *)

Module MoreSpec.
Import Endpoint Spec.

(** What net.PubSub.publish does to the queues of a connected endpoint
    for a topic that is not local-only. *)
Definition enqueue (topic : Topic) (kw : Kwargs) (st : State) : State :=
  set_pending_send (_pending_send st ++ [(topic, kw)])
    (set_pending_publish (_pending_publish st ++ [(topic, kw)]) st).

(** The state a call ends in, if any, is related to the one it began
    in. *)
Definition related (R : State → State → Prop) (st : State) (r : Res)
    : Prop :=
  match r with
  | Ok st' | Raise _ st' => R st st'
  | OutOfFuel => True
  end.


(** From [st] to [st'] an endpoint without connection stayed without,
    queued nothing for the broker and sent nothing. *)
Definition stays_offline (st st' : State) : Prop :=
  _conn st = None →
  _conn st' = None ∧
  _pending_send st' = _pending_send st ∧
  sent (events st') = sent (events st).

(** The flushing flag is as it was, or was left set. *)
Definition flag_kept_or_stuck (st st' : State) : Prop :=
  _flushing st' = true ∨ _flushing st' = _flushing st.




End MoreSpec.

Module MoreBrokerSpec.
Import Broker BrokerSpec.

(** What was handed to [dst], with the outcome, in order. *)
Definition sent_to (dst : Conn) (evs : list Event)
    : list (Wire * option Exn) :=
  omap (λ ev, match ev with
              | EvSend c w r => if decide (c = dst) then Some (w, r) else None
              | _ => None
              end) evs.

(** The tokens that are no payload and do not unpack. *)
Definition is_token (w : Wire) : Prop :=
  w = INIT ∨ w = STOP ∨ w = NEWCONN ∨ w = NEWPUBSUB.

(** What the start-up of the forwarder keeps of a connection it accepted
    before the control connection: an early message to forward. *)
Definition early_message (cr : Conn * RecvResult)
    : option (Conn * Wire) :=
  match cr with
  | (c, Recv (WMsg m)) => Some (c, WMsg m)
  | (c, Recv (WOther tag)) => Some (c, WOther tag)
  | (c, Recv WNone) => Some (c, WNone)
  | _ => None
  end.

(** The connections accepted before the control connection that stay in
    the client set: all but those that said STOP. *)
Definition early_client (cr : Conn * RecvResult) : option Conn :=
  match cr with
  | (c, Recv WFalse) => None
  | (c, _) => Some c
  end.

End MoreBrokerSpec.

Module MoreExamples.
Import Endpoint Examples.

(** 1 then 2 on ('a',), as in [st_unsub], after 2 was collected. *)
Definition st_dead : State :=
  {| cls := ClsPubSub; _subs := _subs st_unsub; heap := heap st_unsub;
     collected := {[2]}; _conn := None; _flushing := false;
     _pending_send := []; _pending_publish := []; events := [] |}.

(** A network endpoint that never connected, with 8 -- which publishes
    ('n',) when called -- on ('a',) and 6 on the empty key. *)
Definition st_offline : State :=
  add_subscriber TNone 6 (add_subscriber (TStr "a") 8 net_init).

(** A connected endpoint with 5 -- whose body raises ValueError -- on
    ('a',). *)
Definition st_fragile : State :=
  set_conn (Some conn_idle) (add_subscriber (TStr "a") 5 net_init).

(** A connected endpoint with 6 on the empty key and 2 on ('a',); one
    message from the broker can be read. *)
Definition st_online : State :=
  set_conn (Some {| readable := [Some (TTuple ["a"; "in"], kw_hello)];
                    send_results := [] |})
    (add_subscriber (TStr "a") 2 (add_subscriber TNone 6 net_init)).

(** An endpoint object around [st_offline]. *)
Definition o_offline : Lifecycle.NetPubSub :=
  {| Lifecycle.endpoint := st_offline;
     Lifecycle._address := "broker";
     Lifecycle._authkey := "secret" |}.

(** A listener that answers every dial with an idle connection. *)
Definition dial_idle (address authkey : string) : Exn + Connection :=
  inr conn_idle.

End MoreExamples.

(** Refuting membership of a number in an explicit list of others. *)
Ltac not_member H :=
  repeat (apply elem_of_cons in H as [H|H]; [discriminate|]);
  by apply elem_of_nil in H.


(* ===================================================================== *)
(** ** The subscription table under add_subscriber and remove_subscriber *)
(* ===================================================================== *)

Section TableFacts.
Import Endpoint Spec.

Lemma init_wf : table_wf init.
Proof. intros p loc H. simpl in H. by rewrite lookup_empty in H. Qed.

(** add_subscriber appends one reference under the normalised key and
    leaves the other keys alone. *)
Lemma add_subscriber_spec topic s st :
  table_wf st →
  table_wf (add_subscriber topic s st) ∧
  collected (add_subscriber topic s st) = collected st ∧
  ∀ p, subs_at (add_subscriber topic s st) p =
       subs_at st p ++ (if decide (p = as_tuple topic) then [s] else []).
Proof.
  intros Hwf. unfold add_subscriber.
  set (key := as_tuple topic).
  destruct (_subs st !! key) as [loc|] eqn:Hk.
  - rewrite Hk. destruct (Hwf key loc Hk) as [Hlt Hinj].
    split; [|split; [done|]].
    + intros p loc' Hp. simpl in Hp. destruct (Hwf p loc' Hp) as [Hlt' Hinj'].
      split; [simpl; by rewrite length_alter|]. intros p' Hp'. by apply Hinj'.
    + intros p. unfold subs_at, heap_list. simpl.
      destruct (_subs st !! p) as [loc'|] eqn:Hp.
      * rewrite list_lookup_alter. destruct (decide (p = key)) as [->|Hne].
        -- assert (loc' = loc) as -> by congruence.
           rewrite decide_True by done.
           destruct (lookup_lt_is_Some_2 (heap st) loc Hlt) as [l Hl].
           by rewrite Hl.
        -- rewrite decide_False; [by rewrite app_nil_r|].
           intros <-. apply Hne. by apply Hinj.
      * destruct (decide (p = key)) as [->|Hne]; [congruence|done].
  - simpl. rewrite lookup_insert_eq.
    split; [|split; [done|]].
    + intros p loc' Hp. simpl in Hp |- *.
      rewrite length_alter, length_app. simpl.
      destruct (decide (key = p)) as [<-|Hne].
      * rewrite lookup_insert_eq in Hp. injection Hp as <-.
        split; [lia|]. intros p' Hp'.
        destruct (decide (key = p')) as [<-|Hne']; [done|].
        rewrite lookup_insert_ne in Hp' by done.
        destruct (Hwf p' _ Hp') as [Hlt _]. lia.
      * rewrite lookup_insert_ne in Hp by done.
        destruct (Hwf p loc' Hp) as [Hlt Hinj]. split; [lia|].
        intros p' Hp'. destruct (decide (key = p')) as [<-|Hne'].
        -- rewrite lookup_insert_eq in Hp'. injection Hp' as <-. lia.
        -- rewrite lookup_insert_ne in Hp' by done. by apply Hinj.
    + intros p. unfold subs_at, heap_list. simpl.
      destruct (decide (p = key)) as [->|Hne].
      * rewrite lookup_insert_eq, Hk. rewrite list_lookup_alter_eq.
        rewrite lookup_app_r by lia. by rewrite Nat.sub_diag.
      * rewrite lookup_insert_ne by done.
        destruct (_subs st !! p) as [loc'|] eqn:Hp; [|done].
        destruct (Hwf p loc' Hp) as [Hlt _].
        rewrite list_lookup_alter_ne by lia.
        rewrite lookup_app_l by lia. by rewrite app_nil_r.
Qed.

Lemma find_ref_live st s (l : list nat) :
  s ∉ collected st →
  find_ref st s l = if decide (s ∈ l) then Some s else None.
Proof.
  intros Hlive. induction l as [|r l IH]; simpl.
  - done.
  - unfold resolve. destruct (decide (r ∈ collected st)) as [Hdead|Hr].
    + rewrite IH. assert (r ≠ s) by congruence.
      destruct (decide (s ∈ l)) as [Hin|Hout].
      * rewrite decide_True; [done|]. by apply elem_of_cons; right.
      * rewrite decide_False; [done|].
        intros [?|?]%elem_of_cons; [congruence|done].
    + destruct (decide (r = s)) as [->|Hne].
      * rewrite decide_True; [done|]. by apply elem_of_cons; left.
      * rewrite IH. destruct (decide (s ∈ l)) as [Hin|Hout].
        -- rewrite decide_True; [done|]. by apply elem_of_cons; right.
        -- rewrite decide_False; [done|].
           intros [?|?]%elem_of_cons; [congruence|done].
Qed.

Lemma list_remove_first_notin s (l : list nat) :
  s ∉ l → list_remove_first s l = l.
Proof.
  induction l as [|r l IH]; [done|]. intros Hs. simpl.
  destruct (decide (r = s)) as [->|Hne].
  - exfalso. apply Hs. by apply elem_of_cons; left.
  - rewrite IH; [done|]. intros ?. apply Hs. by apply elem_of_cons; right.
Qed.

Lemma list_remove_first_app s (l1 l2 : list nat) :
  s ∉ l1 → list_remove_first s (l1 ++ l2) = l1 ++ list_remove_first s l2.
Proof.
  induction l1 as [|r l1 IH]; [done|]. intros Hs. simpl.
  destruct (decide (r = s)) as [->|Hne].
  - exfalso. apply Hs. by apply elem_of_cons; left.
  - rewrite IH; [done|]. intros ?. apply Hs. by apply elem_of_cons; right.
Qed.

Lemma list_remove_first_replicate s n :
  list_remove_first s (replicate n s) = replicate (n - 1) s.
Proof.
  destruct n as [|n]; [done|]. simpl. rewrite decide_True by done.
  by rewrite Nat.sub_0_r.
Qed.

(** remove_subscriber, for a live subscriber, drops its first reference
    under the normalised key and leaves the other keys alone. *)
Lemma remove_subscriber_spec topic s st :
  table_wf st →
  s ∉ collected st →
  table_wf (remove_subscriber topic s st) ∧
  collected (remove_subscriber topic s st) = collected st ∧
  ∀ p, subs_at (remove_subscriber topic s st) p =
       if decide (p = as_tuple topic) then list_remove_first s (subs_at st p)
       else subs_at st p.
Proof.
  intros Hwf Hlive. unfold remove_subscriber.
  set (key := as_tuple topic).
  destruct (_subs st !! key) as [loc|] eqn:Hk.
  - rewrite find_ref_live by done.
    destruct (Hwf key loc Hk) as [Hlt Hinj].
    destruct (decide (s ∈ heap_list st loc)) as [Hin|Hout].
    + split; [|split; [done|]].
      * intros p loc' Hp. simpl in Hp. destruct (Hwf p loc' Hp) as [Hlt' Hinj'].
        split; [simpl; by rewrite length_alter|]. intros p' Hp'. by apply Hinj'.
      * intros p. unfold subs_at, heap_list. simpl.
        destruct (_subs st !! p) as [loc'|] eqn:Hp.
        -- rewrite list_lookup_alter. destruct (decide (p = key)) as [->|Hne].
           ++ assert (loc' = loc) as -> by congruence.
              rewrite decide_True by done.
              destruct (lookup_lt_is_Some_2 (heap st) loc Hlt) as [l Hl].
              by rewrite Hl.
           ++ rewrite decide_False; [done|].
              intros <-. apply Hne. by apply Hinj.
        -- destruct (decide (p = key)) as [->|Hne]; [congruence|done].
    + split; [done|]. split; [done|]. intros p.
      destruct (decide (p = key)) as [->|Hne]; [|done].
      unfold subs_at. rewrite Hk. by rewrite list_remove_first_notin.
  - split; [done|]. split; [done|]. intros p.
    destruct (decide (p = key)) as [->|Hne]; [|done].
    unfold subs_at. by rewrite Hk.
Qed.

(** [n] calls of add_subscriber with the same arguments. *)
Lemma add_subscriber_iter topic s n st :
  table_wf st →
  table_wf (Nat.iter n (add_subscriber topic s) st) ∧
  collected (Nat.iter n (add_subscriber topic s) st) = collected st ∧
  ∀ p, subs_at (Nat.iter n (add_subscriber topic s) st) p =
       subs_at st p ++
       (if decide (p = as_tuple topic) then replicate n s else []).
Proof.
  intros Hwf. induction n as [|n (IHwf & IHc & IHs)].
  - split; [done|]. split; [done|]. intros p. simpl.
    destruct (decide (p = as_tuple topic)); by rewrite app_nil_r.
  - simpl.
    destruct (add_subscriber_spec topic s _ IHwf) as (Hwf' & Hc' & Hs').
    split; [done|]. split; [congruence|]. intros p.
    rewrite Hs', IHs. rewrite <- app_assoc. f_equal.
    destruct (decide (p = as_tuple topic)); [|done].
    change (replicate n s ++ [s] = replicate (S n) s).
    by rewrite replicate_S_end.
Qed.

End TableFacts.
(* ===================================================================== *)
(** ** The dispatcher: delivery by subscribers that leave it alone *)
(* ===================================================================== *)

Section DispatcherFacts.
Import Endpoint Spec.

Variable impl : SubId → Subscriber.

Lemma append_events_nil st : append_events [] st = st.
Proof. destruct st; unfold append_events; simpl. by rewrite app_nil_r. Qed.

Lemma append_events_app evs1 evs2 st :
  append_events evs2 (append_events evs1 st) = append_events (evs1 ++ evs2) st.
Proof. unfold append_events; simpl. by rewrite app_assoc. Qed.

Lemma log_append_events ev st : log ev st = append_events [ev] st.
Proof. reflexivity. Qed.

Lemma exec_S fuel c st :
  exec impl (S fuel) c st = step impl (exec impl fuel) c st.
Proof. reflexivity. Qed.

Lemma isinstance_TypeError e :
  isinstance e TypeError = bool_decide (e = TypeError).
Proof. by destruct e. Qed.

(** A call to a subscriber that leaves the pub-sub alone. *)
Lemma call_outcome_return fuel s orig kw st :
  outcome impl s orig kw = Some None →
  exec impl (S fuel) (CSubscriber s orig kw) st = Ok st.
Proof.
  unfold outcome. rewrite exec_S. simpl. unfold call_subscriber.
  destruct (accepts (impl s) kw); [|done].
  destruct (body (impl s) orig kw) as [|[] ?]; done.
Qed.

Lemma call_outcome_raise fuel s orig kw st e :
  outcome impl s orig kw = Some (Some e) →
  exec impl (S fuel) (CSubscriber s orig kw) st = Raise e st.
Proof.
  unfold outcome. rewrite exec_S. simpl. unfold call_subscriber.
  destruct (accepts (impl s) kw); [|by intros [= <-]].
  destruct (body (impl s) orig kw) as [|[] ?]; try done.
  by intros [= <-].
Qed.

(** The [for] loop of publish agrees with [deliver] on the rest of the
    list. *)
Lemma publish_for_deliver st loc orig kw :
  ∀ k i evs fuel,
    i + k = length (heap_list st loc) →
    k + 1 ≤ fuel →
    (deliver impl (collected st) orig kw (drop i (heap_list st loc))).2
      ≠ Interfered →
    exec impl fuel (CPublishFor loc i orig kw) (append_events evs st) =
    finish (append_events evs st)
      (deliver impl (collected st) orig kw (drop i (heap_list st loc))).
Proof.
  intros k. induction k as [|k IH]; intros i evs fuel Hlen Hfuel Hfree.
  - destruct fuel as [|fuel]; [lia|]. rewrite exec_S. simpl.
    unfold publish_for.
    change (heap_list (append_events evs st) loc) with (heap_list st loc).
    rewrite lookup_ge_None_2 by lia. rewrite drop_ge by lia. simpl.
    by rewrite append_events_nil.
  - destruct fuel as [|fuel]; [lia|]. rewrite exec_S. simpl.
    unfold publish_for.
    change (heap_list (append_events evs st) loc) with (heap_list st loc).
    destruct (lookup_lt_is_Some_2 (heap_list st loc) i) as [r Hr]; [lia|].
    rewrite Hr. rewrite (drop_S _ _ _ Hr) in Hfree |- *. simpl in Hfree |- *.
    unfold resolve. change (collected (append_events evs st)) with (collected st).
    destruct (decide (r ∈ collected st)) as [Hdead|Hlive].
    + apply IH; [lia|lia|done].
    + destruct fuel as [|fuel]; [lia|].
      rewrite log_append_events, append_events_app.
      destruct (outcome impl r orig kw) as [[e|]|] eqn:Hout; [| |done].
      * rewrite (call_outcome_raise _ _ _ _ _ _ Hout).
        destruct (isinstance e TypeError).
        -- rewrite log_append_events, append_events_app.
           rewrite IH; [|lia|lia|].
           ++ destruct (deliver _ _ _ _ _) as [evs' [|x|]]; simpl;
                rewrite ?append_events_app, <- ?app_assoc; done.
           ++ by destruct (deliver _ _ _ _ _) as [evs' [|x|]].
        -- simpl. by rewrite append_events_app.
      * rewrite (call_outcome_return _ _ _ _ _ Hout).
        rewrite IH; [|lia|lia|].
        -- destruct (deliver _ _ _ _ _) as [evs' [|x|]]; simpl;
             rewrite ?append_events_app, <- ?app_assoc; done.
        -- by destruct (deliver _ _ _ _ _) as [evs' [|x|]].
Qed.

Lemma deliver_app dead orig kw l1 l2 :
  deliver impl dead orig kw (l1 ++ l2) =
  match deliver impl dead orig kw l1 with
  | (evs, Completed) =>
      let '(evs', x) := deliver impl dead orig kw l2 in (evs ++ evs', x)
  | d => d
  end.
Proof.
  induction l1 as [|r l1 IH]; simpl.
  - by destruct (deliver impl dead orig kw l2).
  - destruct (decide (r ∈ dead)); [done|].
    destruct (outcome impl r orig kw) as [[e|]|]; [| |done].
    + destruct (isinstance e TypeError); [|done].
      rewrite IH. destruct (deliver impl dead orig kw l1) as [evs [|x|]]; [|done..].
      by destruct (deliver impl dead orig kw l2).
    + rewrite IH. destruct (deliver impl dead orig kw l1) as [evs [|x|]]; [|done..].
      by destruct (deliver impl dead orig kw l2).
Qed.

Lemma removelast_take_S (t : list string) n :
  S n ≤ length t → removelast (take (S n) t) = take n t.
Proof.
  revert n. induction t as [|x t IH]; intros n Hn; simpl in Hn; [lia|].
  destruct n as [|n]; [done|].
  destruct t as [|y t]; simpl in Hn; [lia|].
  specialize (IH n). simpl in IH.
  change (take (S (S n)) (x :: y :: t)) with (x :: y :: take n t).
  change (take (S n) (x :: y :: t)) with (x :: take n (y :: t)).
  rewrite <- IH by lia. done.
Qed.

Lemma prefixes_keys (t : list string) n :
  (λ k, take k t) <$> reverse (seq 0 (S (S n))) =
  take (S n) t :: ((λ k, take k t) <$> reverse (seq 0 (S n))).
Proof.
  rewrite (seq_S (S n)). rewrite reverse_app. reflexivity.
Qed.

(** One key of the walk: what the [try ... else for] part does. *)
Lemma publish_key_deliver st key orig kw evs fuel :
  (deliver impl (collected st) orig kw (subs_at st key)).2 ≠ Interfered →
  length (subs_at st key) + 1 ≤ fuel →
  match _subs st !! key with
  | None => Ok (append_events evs st)
  | Some loc => exec impl fuel (CPublishFor loc 0 orig kw) (append_events evs st)
  end =
  finish (append_events evs st)
    (deliver impl (collected st) orig kw (subs_at st key)).
Proof.
  unfold subs_at. intros Hfree Hfuel.
  destruct (_subs st !! key) as [loc|] eqn:Hk.
  - rewrite (publish_for_deliver st loc orig kw
               (length (heap_list st loc)) 0 evs fuel); rewrite ?drop_0;
      [done|lia|lia|done].
  - simpl. by rewrite append_events_nil.
Qed.

(** The [while True] loop of publish agrees with [deliver] on the keys
    still to visit. *)
Lemma publish_while_deliver st t kw N :
  (∀ k, k ≤ length t → length (subs_at st (take k t)) ≤ N) →
  ∀ n evs fuel,
    n ≤ length t →
    n + N + 2 ≤ fuel →
    (deliver impl (collected st) t kw
       (flat_map (subs_at st) ((λ k, take k t) <$> reverse (seq 0 (S n))))).2
      ≠ Interfered →
    exec impl fuel (CPublishWhile (take n t) t kw) (append_events evs st) =
    finish (append_events evs st)
      (deliver impl (collected st) t kw
         (flat_map (subs_at st) ((λ k, take k t) <$> reverse (seq 0 (S n))))).
Proof.
  intros HN n.
  induction n as [|n IH]; intros evs fuel Hn Hfuel Hfree.
  - destruct fuel as [|fuel]; [lia|]. rewrite exec_S.
    unfold step, publish_while. rewrite take_0.
    change (_subs (append_events evs st)) with (_subs st).
    change (flat_map (subs_at st) ((λ k, take k t) <$> reverse (seq 0 1)))
      with (subs_at st (take 0 t) ++ []) in Hfree |- *.
    rewrite take_0, app_nil_r in Hfree |- *.
    rewrite (publish_key_deliver st [] t kw evs fuel); [|done|].
    + destruct (deliver _ _ _ _ _) as [evs' [|x|]]; done.
    + specialize (HN 0). rewrite take_0 in HN. lia.
  - destruct fuel as [|fuel]; [lia|]. rewrite exec_S.
    unfold step, publish_while.
    change (_subs (append_events evs st)) with (_subs st).
    rewrite prefixes_keys in Hfree |- *.
    change (flat_map (subs_at st) (take (S n) t :: ?l))
      with (subs_at st (take (S n) t) ++ flat_map (subs_at st) l)
      in Hfree |- *.
    rewrite deliver_app in Hfree |- *.
    rewrite (publish_key_deliver st (take (S n) t) t kw evs fuel).
    + destruct (deliver impl (collected st) t kw (subs_at st (take (S n) t)))
        as [evs' [|x|]] eqn:Hd; [|done..].
      cbn [finish]. rewrite bool_decide_eq_false_2.
      2:{ destruct t; simpl in *; [lia|done]. }
      rewrite removelast_take_S by lia.
      rewrite append_events_app. rewrite IH; [|lia|lia|].
      * destruct (deliver _ _ _ _ (flat_map _ _)) as [evs2 [|x|]]; simpl;
          by rewrite ?append_events_app, ?app_assoc.
      * by destruct (deliver _ _ _ _ (flat_map _ _)) as [evs2 [|x|]].
    + by destruct (deliver impl (collected st) t kw (subs_at st (take (S n) t)))
        as [evs' [|x|]].
    + specialize (HN (S n)). lia.
Qed.

Lemma subs_at_length_targets st (t : list string) k :
  k ≤ length t → length (subs_at st (take k t)) ≤ length (targets st t).
Proof.
  intros Hk. unfold targets, prefixes.
  assert (Hin : take k t ∈ (λ n, take n t) <$> reverse (seq 0 (S (length t)))).
  { apply list_elem_of_fmap. exists k. split; [done|].
    apply elem_of_reverse, list_elem_of_In, in_seq. lia. }
  revert Hin. generalize ((λ n, take n t) <$> reverse (seq 0 (S (length t)))).
  intros keys Hin. induction keys as [|p keys IH]; [by apply elem_of_nil in Hin|].
  simpl. rewrite length_app.
  apply elem_of_cons in Hin as [<-|Hin]; [lia|]. specialize (IH Hin). lia.
Qed.

(** publish agrees with [deliver] on the references of all the prefixes
    of the topic. *)
Lemma publish_deliver st topic kw fuel :
  topic ≠ TNone →
  (deliver impl (collected st) (as_tuple topic) kw
     (targets st (as_tuple topic))).2 ≠ Interfered →
  publish_fuel st (as_tuple topic) ≤ fuel →
  exec impl fuel (CPublish topic kw) st =
  finish st (deliver impl (collected st) (as_tuple topic) kw
               (targets st (as_tuple topic))).
Proof.
  unfold publish_fuel. intros Htopic Hfree Hfuel.
  destruct fuel as [|fuel]; [lia|]. rewrite exec_S. simpl. unfold publish.
  pose proof (publish_while_deliver st (as_tuple topic) kw
                (length (targets st (as_tuple topic)))
                (subs_at_length_targets st (as_tuple topic))
                (length (as_tuple topic)) [] fuel) as H.
  rewrite append_events_nil, firstn_all in H.
  destruct topic as [|s|t]; [done| |]; simpl in *; apply H; (lia || done).
Qed.

Lemma invocations_app evs1 evs2 :
  invocations (evs1 ++ evs2) = invocations evs1 ++ invocations evs2.
Proof.
  induction evs1 as [|[] evs1 IH]; simpl; by rewrite ?IH.
Qed.

Lemma warnings_app evs1 evs2 :
  warnings (evs1 ++ evs2) = warnings evs1 ++ warnings evs2.
Proof. apply omap_app. Qed.

(** Delivery to subscribers that return or raise TypeError serves them
    all. *)
Lemma deliver_passive dead orig kw l :
  (∀ r, r ∈ l → r ∉ dead → passive impl r orig kw) →
  ∃ evs,
    deliver impl dead orig kw l = (evs, Completed) ∧
    invocations evs = (λ s, (s, orig, kw)) <$> filter (λ s, s ∉ dead) l ∧
    warnings evs =
      filter (λ s, outcome impl s orig kw = Some (Some TypeError))
        (filter (λ s, s ∉ dead) l).
Proof.
  induction l as [|r l IH]; intros Hp.
  - exists []. done.
  - destruct IH as (evs & Hd & Hi & Hw).
    { intros r' Hr'. apply Hp. by apply elem_of_cons; right. }
    simpl. destruct (decide (r ∈ dead)) as [Hdead|Hlive].
    + exists evs. rewrite filter_cons_False by (intros ?; done). done.
    + rewrite (filter_cons_True _ r l) by done.
      destruct (Hp r) as [Ho|Ho]; [by apply elem_of_cons; left|done|..];
        rewrite Ho; simpl; rewrite Hd.
      * exists (EvCall r orig kw :: evs). split; [done|]. split.
        -- simpl. by rewrite Hi.
        -- rewrite filter_cons_False by (rewrite Ho; done). done.
      * exists (EvCall r orig kw :: EvWarn r :: evs). split; [done|]. split.
        -- simpl. by rewrite Hi.
        -- rewrite filter_cons_True by done. simpl. by rewrite Hw.
Qed.

(** Delivery stops at the first subscriber that raises something else. *)
Lemma deliver_raise dead orig kw l1 s l2 e :
  (∀ r, r ∈ l1 → r ∉ dead → passive impl r orig kw) →
  s ∉ dead →
  outcome impl s orig kw = Some (Some e) →
  e ≠ TypeError →
  ∃ evs,
    deliver impl dead orig kw (l1 ++ s :: l2) = (evs, Raised e) ∧
    invocations evs =
      (λ s, (s, orig, kw)) <$> (filter (λ s, s ∉ dead) l1 ++ [s]) ∧
    warnings evs =
      filter (λ s, outcome impl s orig kw = Some (Some TypeError))
        (filter (λ s, s ∉ dead) l1).
Proof.
  intros Hp Hlive Ho He.
  destruct (deliver_passive dead orig kw l1 Hp) as (evs & Hd & Hi & Hw).
  exists (evs ++ [EvCall s orig kw]).
  rewrite deliver_app, Hd. cbn [deliver].
  case_decide; [done|]. rewrite Ho.
  rewrite isinstance_TypeError, bool_decide_eq_false_2 by done.
  split; [done|]. split.
  - by rewrite invocations_app, Hi, fmap_app.
  - rewrite warnings_app, Hw. simpl. by rewrite app_nil_r.
Qed.

Lemma elem_of_prefixes (p t : list string) :
  p ∈ prefixes t ↔ p `prefix_of` t.
Proof.
  unfold prefixes. rewrite list_elem_of_fmap. split.
  - intros (n & -> & _). apply prefix_take.
  - intros [k ->]. exists (length p). split.
    + by rewrite take_app_length.
    + apply elem_of_reverse, list_elem_of_In, in_seq.
      rewrite length_app. lia.
Qed.

Lemma prefixes_lookup (t : list string) i :
  i ≤ length t → prefixes t !! i = Some (take (length t - i) t).
Proof.
  intros Hi. unfold prefixes. rewrite list_lookup_fmap.
  rewrite reverse_lookup by (rewrite length_seq; lia).
  rewrite length_seq. rewrite lookup_seq_lt by lia. simpl.
  do 2 f_equal; lia.
Qed.

Lemma elem_of_targets st (t : list string) s :
  s ∈ targets st t ↔ ∃ p, p `prefix_of` t ∧ s ∈ subs_at st p.
Proof.
  unfold targets. rewrite list_elem_of_In, in_flat_map. split.
  - intros (p & Hp & Hs). exists p.
    by rewrite <- elem_of_prefixes, !list_elem_of_In.
  - intros (p & Hp & Hs). exists p.
    by rewrite <- !list_elem_of_In, elem_of_prefixes.
Qed.

Lemma filter_flat_map {A B} (P : B → Prop) `{∀ x, Decision (P x)}
    (f : A → list B) (l : list A) :
  filter P (flat_map f l) = flat_map (λ x, filter P (f x)) l.
Proof.
  induction l as [|x l IH]; [done|]. simpl. by rewrite filter_app, IH.
Qed.

Lemma fmap_flat_map {A B C} (g : B → C) (f : A → list B) (l : list A) :
  g <$> flat_map f l = flat_map (λ x, g <$> f x) l.
Proof.
  induction l as [|x l IH]; [done|]. simpl. by rewrite fmap_app, IH.
Qed.

(** What publish does when the live subscribers on the prefixes of the
    topic return or raise TypeError. *)
Lemma publish_passive st topic kw :
  topic ≠ TNone →
  (∀ s, s ∈ live_targets st (as_tuple topic) →
        passive impl s (as_tuple topic) kw) →
  ∃ evs,
    (∀ fuel, publish_fuel st (as_tuple topic) ≤ fuel →
       exec impl fuel (CPublish topic kw) st = Ok (append_events evs st)) ∧
    invocations evs =
      (λ s, (s, as_tuple topic, kw)) <$> live_targets st (as_tuple topic) ∧
    warnings evs =
      filter (λ s, outcome impl s (as_tuple topic) kw = Some (Some TypeError))
        (live_targets st (as_tuple topic)).
Proof.
  intros Htopic Hp.
  destruct (deliver_passive (collected st) (as_tuple topic) kw
              (targets st (as_tuple topic))) as (evs & Hd & Hi & Hw).
  { intros r Hr Hlive. apply Hp. by apply list_elem_of_filter. }
  exists evs. split; [|done].
  intros fuel Hfuel. rewrite publish_deliver; [|done| |done].
  - by rewrite Hd.
  - by rewrite Hd.
Qed.

End DispatcherFacts.

(* ===================================================================== *)
(** ** The dispatcher: the properties of publish *)
(* ===================================================================== *)

Section DispatcherTheorems.
Import Endpoint Spec Examples.

Lemma st_tree_live_targets :
  live_targets st_tree ["a"; "b"] = [7; 3; 2; 6].
Proof. vm_compute. reflexivity. Qed.

Lemma st_typeerror_live_targets : live_targets st_typeerror ["a"] = [4; 2].
Proof. vm_compute. reflexivity. Qed.

Lemma st_valueerror_targets : targets st_valueerror ["a"] = [2] ++ 5 :: [6].
Proof. vm_compute. reflexivity. Qed.


(** C1.  publish(t, **kw) -- a tuple or a bare string, with live
    subscribers that return or raise TypeError -- returns, leaves the
    object as it was, and invokes a subscriber [s] with arguments
    [(orig, kw')] exactly when [orig] is the published topic, [kw'] the
    published keyword arguments, [s] is live and [s] is registered on a
    key that is a prefix of the topic (the empty key included).  So the
    first argument is never the matched prefix, and subscribers on keys
    that are not prefixes are not invoked. *)
Theorem publish_prefix_delivery (impl : SubId → Subscriber) (st : State)
    (topic : Topic) (kw : Kwargs) :
  topic ≠ TNone →
  (∀ s, s ∈ live_targets st (as_tuple topic) →
        passive impl s (as_tuple topic) kw) →
  ∃ evs,
    (∀ fuel, publish_fuel st (as_tuple topic) ≤ fuel →
       exec impl fuel (CPublish topic kw) st = Ok (append_events evs st)) ∧
    ∀ s orig kw',
      (s, orig, kw') ∈ invocations evs ↔
      orig = as_tuple topic ∧ kw' = kw ∧ (s ∉ collected st) ∧
      ∃ p, p `prefix_of` (as_tuple topic) ∧ s ∈ subs_at st p.
Proof.
  intros Htopic Hp.
  destruct (publish_passive impl st topic kw Htopic Hp) as (evs & Hrun & Hi & _).
  exists evs. split; [done|].
  intros s orig kw'. rewrite Hi, list_elem_of_fmap. unfold live_targets.
  split.
  - intros (s' & [= -> -> ->] & Hs').
    apply list_elem_of_filter in Hs' as [Hlive Hs'].
    by apply elem_of_targets in Hs'.
  - intros (-> & -> & Hlive & Hs). exists s. split; [done|].
    apply list_elem_of_filter. split; [done|]. by apply elem_of_targets.
Qed.

(** C2.  The invocations of a publication on [t] are, for each prefix of
    [t] from [t] itself down to the empty tuple (the [i]-th key visited
    is [t] without its last [i] elements), the live subscribers
    registered on that prefix in the order of the list of that key,
    which is the order of subscription: add_subscriber appends at the
    end. *)
Theorem publish_delivery_order (impl : SubId → Subscriber) (st : State)
    (topic : Topic) (kw : Kwargs) :
  topic ≠ TNone →
  (∀ s, s ∈ live_targets st (as_tuple topic) →
        passive impl s (as_tuple topic) kw) →
  ∃ evs,
    (∀ fuel, publish_fuel st (as_tuple topic) ≤ fuel →
       exec impl fuel (CPublish topic kw) st = Ok (append_events evs st)) ∧
    invocations evs =
      flat_map
        (λ p, (λ s, (s, as_tuple topic, kw)) <$>
                filter (λ s, s ∉ collected st) (subs_at st p))
        (prefixes (as_tuple topic)) ∧
    (∀ i, i ≤ length (as_tuple topic) →
       prefixes (as_tuple topic) !! i =
       Some (take (length (as_tuple topic) - i) (as_tuple topic))) ∧
    length (prefixes (as_tuple topic)) = S (length (as_tuple topic)) ∧
    (∀ topic' s,
       table_wf st →
       subs_at (add_subscriber topic' s st) (as_tuple topic') =
       subs_at st (as_tuple topic') ++ [s]).
Proof.
  intros Htopic Hp.
  destruct (publish_passive impl st topic kw Htopic Hp) as (evs & Hrun & Hi & _).
  exists evs. split; [done|]. split; [|split; [|split]].
  - rewrite Hi. unfold live_targets, targets.
    by rewrite filter_flat_map, fmap_flat_map.
  - apply prefixes_lookup.
  - unfold prefixes. by rewrite length_fmap, length_reverse, length_seq.
  - intros topic' s Hwf.
    destruct (add_subscriber_spec topic' s st Hwf) as (_ & _ & H).
    rewrite H. by rewrite decide_True.
Qed.


Lemma publish_prefix_delivery_witness :
  ∃ evs,
    (∀ fuel, publish_fuel st_tree ["a"; "b"] ≤ fuel →
       exec impl_ex fuel (CPublish (TTuple ["a"; "b"]) kw_hello) st_tree =
       Ok (append_events evs st_tree)) ∧
    ∀ s orig kw',
      (s, orig, kw') ∈ invocations evs ↔
      orig = ["a"; "b"] ∧ kw' = kw_hello ∧ (s ∉ collected st_tree) ∧
      ∃ p, p `prefix_of` ["a"; "b"] ∧ s ∈ subs_at st_tree p.
Proof.
  apply (publish_prefix_delivery impl_ex st_tree (TTuple ["a"; "b"]) kw_hello).
  - discriminate.
  - intros s Hs. simpl in Hs. rewrite st_tree_live_targets in Hs.
    each_member Hs; (left; reflexivity) || (right; reflexivity).
Defined.

Lemma publish_delivery_order_witness :
  ∃ evs,
    (∀ fuel, publish_fuel st_tree ["a"; "b"] ≤ fuel →
       exec impl_ex fuel (CPublish (TTuple ["a"; "b"]) kw_hello) st_tree =
       Ok (append_events evs st_tree)) ∧
    invocations evs =
      flat_map
        (λ p, (λ s, (s, ["a"; "b"], kw_hello)) <$>
                filter (λ s, s ∉ collected st_tree) (subs_at st_tree p))
        (prefixes ["a"; "b"]) ∧
    (∀ i, i ≤ 2 → prefixes ["a"; "b"] !! i = Some (take (2 - i) ["a"; "b"])) ∧
    length (prefixes ["a"; "b"]) = 3 ∧
    (∀ topic' s,
       table_wf st_tree →
       subs_at (add_subscriber topic' s st_tree) (as_tuple topic') =
       subs_at st_tree (as_tuple topic') ++ [s]).
Proof.
  apply (publish_delivery_order impl_ex st_tree (TTuple ["a"; "b"]) kw_hello).
  - discriminate.
  - intros s Hs. simpl in Hs. rewrite st_tree_live_targets in Hs.
    each_member Hs; (left; reflexivity) || (right; reflexivity).
Defined.

(** C7, as stated, fails: subscriber 4 takes the keyword arguments (no
    signature mismatch) and its body raises TypeError; publish does not
    let that exception out, whatever the fuel. *)
Lemma publish_swallows_body_type_error :
  accepts (impl_ex 4) [] = true ∧
  body (impl_ex 4) ["a"] [] = [ActRaise TypeError] ∧
  subs_at st_typeerror ["a"] = [4; 2] ∧
  (∀ fuel e st',
     exec impl_ex fuel (CPublish (TTuple ["a"]) []) st_typeerror ≠ Raise e st') ∧
  ∃ st', exec impl_ex 6 (CPublish (TTuple ["a"]) []) st_typeerror = Ok st' ∧
         events st' = [EvCall 4 ["a"] []; EvWarn 4; EvCall 2 ["a"] []].
Proof.
  split; [reflexivity|]. split; [reflexivity|]. split; [by vm_compute|]. split.
  - intros fuel e st' H.
    destruct (publish_passive impl_ex st_typeerror (TTuple ["a"]) [])
      as (evs & Hrun & _).
    + discriminate.
    + intros s Hs. simpl in Hs. rewrite st_typeerror_live_targets in Hs.
      each_member Hs; (left; reflexivity) || (right; reflexivity).
    + destruct (decide (publish_fuel st_typeerror ["a"] ≤ fuel)) as [Hf|Hf].
      * rewrite (Hrun fuel Hf) in H. discriminate.
      * do 6 (destruct fuel as [|fuel]; [vm_compute in H; discriminate|]).
        apply Hf. vm_compute. lia.
  - eexists. split; [vm_compute; reflexivity|]. reflexivity.
Qed.

(** C7, amended.  For a publication whose subscribers leave the pub-sub
    alone: (a) when every live subscriber on the prefixes returns or
    raises TypeError -- because the call does not bind or because its
    body raises it -- publish returns, has invoked all of them, and has
    warned once for each that raised; (b) when a subscriber raises an
    exception [e] that is not a TypeError, and those before it return or
    raise TypeError, publish raises [e] to its caller and the
    subscribers after it are not invoked. *)
Theorem publish_error_policy (impl : SubId → Subscriber) (st : State)
    (topic : Topic) (kw : Kwargs) :
  topic ≠ TNone →
  ((∀ s, s ∈ live_targets st (as_tuple topic) →
         passive impl s (as_tuple topic) kw) →
   ∃ evs,
     (∀ fuel, publish_fuel st (as_tuple topic) ≤ fuel →
        exec impl fuel (CPublish topic kw) st = Ok (append_events evs st)) ∧
     invocations evs =
       (λ s, (s, as_tuple topic, kw)) <$> live_targets st (as_tuple topic) ∧
     warnings evs =
       filter (λ s, outcome impl s (as_tuple topic) kw = Some (Some TypeError))
         (live_targets st (as_tuple topic))) ∧
  (∀ l1 s l2 e,
     targets st (as_tuple topic) = l1 ++ s :: l2 →
     (∀ r, r ∈ l1 → r ∉ collected st → passive impl r (as_tuple topic) kw) →
     s ∉ collected st →
     outcome impl s (as_tuple topic) kw = Some (Some e) →
     e ≠ TypeError →
     ∃ evs,
       (∀ fuel, publish_fuel st (as_tuple topic) ≤ fuel →
          exec impl fuel (CPublish topic kw) st =
          Raise e (append_events evs st)) ∧
       invocations evs =
         (λ s, (s, as_tuple topic, kw)) <$>
           (filter (λ s, s ∉ collected st) l1 ++ [s])).
Proof.
  intros Htopic. split.
  - intros Hp. by apply publish_passive.
  - intros l1 s l2 e Ht Hp Hlive Ho He.
    destruct (deliver_raise impl (collected st) (as_tuple topic) kw
                l1 s l2 e Hp Hlive Ho He) as (evs & Hd & Hi & _).
    exists evs. split; [|done].
    intros fuel Hfuel. rewrite publish_deliver; [|done| |done].
    + by rewrite Ht, Hd.
    + by rewrite Ht, Hd.
Qed.

Lemma publish_error_policy_witness :
  (∃ evs,
     (∀ fuel, publish_fuel st_typeerror ["a"] ≤ fuel →
        exec impl_ex fuel (CPublish (TTuple ["a"]) []) st_typeerror =
        Ok (append_events evs st_typeerror)) ∧
     invocations evs =
       (λ s, (s, ["a"], [])) <$> live_targets st_typeerror ["a"] ∧
     warnings evs =
       filter (λ s, outcome impl_ex s ["a"] [] = Some (Some TypeError))
         (live_targets st_typeerror ["a"])) ∧
  (∃ evs,
     (∀ fuel, publish_fuel st_valueerror ["a"] ≤ fuel →
        exec impl_ex fuel (CPublish (TTuple ["a"]) []) st_valueerror =
        Raise ValueError (append_events evs st_valueerror)) ∧
     invocations evs = [(2, ["a"], []); (5, ["a"], [])]).
Proof.
  split.
  - apply (publish_error_policy impl_ex st_typeerror (TTuple ["a"]) []).
    + discriminate.
    + intros s Hs. simpl in Hs. rewrite st_typeerror_live_targets in Hs.
      each_member Hs; (left; reflexivity) || (right; reflexivity).
  - apply (proj2 (publish_error_policy impl_ex st_valueerror (TTuple ["a"]) []
                    ltac:(discriminate)) [2] 5 [6] ValueError).
    + exact st_valueerror_targets.
    + intros r Hr _. each_member Hr. left; reflexivity.
    + vm_compute. discriminate.
    + reflexivity.
    + discriminate.
Defined.

(** C8 does not hold of the code: publish asserts that the topic is a
    string or a tuple, so publishing None raises AssertionError before
    any lookup, while add_subscriber files None under the empty key. *)
Theorem publish_none_raises :
  (∀ impl fuel st kw,
     exec impl (S fuel) (CPublish TNone kw) st = Raise AssertionError st) ∧
  subs_at (add_subscriber TNone 6 init) [] = [6] ∧
  exec impl_ex 10 (CPublish TNone []) st_root = Raise AssertionError st_root ∧
  invocations (events st_root) = [].
Proof.
  split; [reflexivity|]. split; [by vm_compute|]. split; reflexivity.
Qed.

(** C9 does not hold of the code: the [for] loop of publish walks the
    list object itself.  With 1 then 2 subscribed on ('a',), and 1
    unsubscribing itself when called, publishing ('a',) returns without
    an exception but never calls 2, which is live and still subscribed
    afterwards. *)
Theorem publish_skips_after_unsubscribe :
  subs_at st_unsub ["a"] = [1; 2] ∧
  body (impl_ex 1) ["a"] [] = [ActRemove (TTuple ["a"]) 1] ∧
  ∃ st',
    exec impl_ex 10 (CPublish (TTuple ["a"]) []) st_unsub = Ok st' ∧
    invocations (events st') = [(1, ["a"], [])] ∧
    subs_at st' ["a"] = [2] ∧
    resolve st' 2 = Some 2.
Proof.
  split; [by vm_compute|]. split; [reflexivity|].
  eexists. split; [vm_compute; reflexivity|].
  split; [reflexivity|]. split; by vm_compute.
Qed.

End DispatcherTheorems.

(* ===================================================================== *)
(** ** Duplicate subscriptions *)
(* ===================================================================== *)

Section DuplicateFacts.
Import Endpoint Spec.

Lemma occurrences_app s l1 l2 :
  occurrences s (l1 ++ l2) = occurrences s l1 + occurrences s l2.
Proof. unfold occurrences. by rewrite filter_app, length_app. Qed.

Lemma occurrences_notin s l : s ∉ l → occurrences s l = 0.
Proof.
  unfold occurrences. induction l as [|r l IH]; [done|]. intros Hs.
  rewrite filter_cons_False.
  - apply IH. intros ?. apply Hs. by apply elem_of_cons; right.
  - intros ->. apply Hs. by apply elem_of_cons; left.
Qed.

Lemma occurrences_replicate s n : occurrences s (replicate n s) = n.
Proof.
  unfold occurrences. induction n as [|n IH]; [done|]. simpl.
  rewrite filter_cons_True by done. simpl. by rewrite IH.
Qed.

Lemma occurrences_filter (P : nat → Prop) `{∀ x, Decision (P x)} s l :
  P s → occurrences s (filter P l) = occurrences s l.
Proof.
  intros Hs. unfold occurrences. induction l as [|r l IH]; [done|].
  destruct (decide (P r)) as [Hr|Hr].
  - rewrite (filter_cons_True P) by done.
    destruct (decide (r = s)) as [->|Hne].
    + rewrite !(filter_cons_True (λ x, x = s)) by done. simpl. by rewrite IH.
    + rewrite !(filter_cons_False (λ x, x = s)) by done. done.
  - rewrite (filter_cons_False P) by done.
    rewrite (filter_cons_False (λ x, x = s)); [done|]. by intros ->.
Qed.

Lemma times_invoked_fmap s (orig : list string) (kw : Kwargs) evs l :
  invocations evs = (λ r, (r, orig, kw)) <$> l →
  times_invoked s evs = occurrences s l.
Proof.
  unfold times_invoked, occurrences. intros ->.
  induction l as [|r l IH]; [done|]. rewrite fmap_cons.
  destruct (decide (r = s)) as [->|Hne].
  - rewrite !filter_cons_True by done. simpl. by rewrite IH.
  - rewrite !filter_cons_False by done. done.
Qed.

(** Counting a subscriber over the keys of a walk, when one key holds
    [m] more references to it and it is nowhere else. *)
Lemma occurrences_flat_map (f0 : list string → list nat)
    (key : list string) s m (keys : list (list string)) :
  NoDup keys →
  (∀ p, p ∈ keys → s ∉ f0 p) →
  occurrences s
    (flat_map (λ p, f0 p ++ (if decide (p = key) then replicate m s else []))
       keys) =
  if decide (key ∈ keys) then m else 0.
Proof.
  induction keys as [|p keys IH]; intros Hnd Hs.
  - done.
  - apply NoDup_cons in Hnd as [Hp Hnd]. simpl.
    rewrite !occurrences_app, IH; [|done|].
    2:{ intros p' Hp'. apply Hs. by apply elem_of_cons; right. }
    rewrite occurrences_notin by (apply Hs; by apply elem_of_cons; left).
    destruct (decide (p = key)) as [->|Hne].
    + rewrite occurrences_replicate. rewrite decide_False by done.
      rewrite decide_True by (by apply elem_of_cons; left). lia.
    + simpl. destruct (decide (key ∈ keys)) as [Hin|Hout].
      * rewrite decide_True by (by apply elem_of_cons; right). done.
      * rewrite decide_False; [done|].
        intros [?|?]%elem_of_cons; [congruence|done].
Qed.

Lemma NoDup_prefixes (t : list string) : NoDup (prefixes t).
Proof.
  unfold prefixes. apply NoDup_fmap_2_strong.
  - intros x y Hx Hy Heq.
    apply elem_of_reverse, list_elem_of_In, in_seq in Hx.
    apply elem_of_reverse, list_elem_of_In, in_seq in Hy.
    apply (f_equal length) in Heq. rewrite !length_take in Heq. lia.
  - rewrite reverse_Permutation. apply NoDup_seq.
Qed.

(** Publishing on a table that differs from [st] by [m] more references
    to [s] under [key]. *)
Lemma publish_after_extension (impl : SubId → Subscriber) st st'
    (key : list string) m s topic kw :
  topic ≠ TNone →
  collected st' = collected st →
  (∀ p, subs_at st' p =
        subs_at st p ++ (if decide (p = key) then replicate m s else [])) →
  key `prefix_of` as_tuple topic →
  s ∉ collected st →
  s ∉ targets st (as_tuple topic) →
  (∀ r, r ∈ live_targets st (as_tuple topic) →
        passive impl r (as_tuple topic) kw) →
  passive impl s (as_tuple topic) kw →
  ∃ evs,
    (∀ fuel, publish_fuel st' (as_tuple topic) ≤ fuel →
       exec impl fuel (CPublish topic kw) st' = Ok (append_events evs st')) ∧
    times_invoked s evs = m.
Proof.
  intros Htopic Hc Hsubs Hkey Hlive Hfresh Hp Hps.
  destruct (publish_passive impl st' topic kw Htopic) as (evs & Hrun & Hi & _).
  { intros r [Hr1 Hr2]%list_elem_of_filter.
    apply elem_of_targets in Hr2 as (p & Hpre & Hr2).
    rewrite Hsubs in Hr2. apply elem_of_app in Hr2 as [Hr2|Hr2].
    - apply Hp. apply list_elem_of_filter. split; [by rewrite <- Hc|].
      apply elem_of_targets. by exists p.
    - destruct (decide (p = key)); [|by apply elem_of_nil in Hr2].
      by apply elem_of_replicate_inv in Hr2 as ->. }
  exists evs. split; [done|].
  rewrite (times_invoked_fmap s _ _ _ _ Hi). unfold live_targets.
  rewrite occurrences_filter by (by rewrite Hc).
  unfold targets. rewrite (flat_map_ext _ _ Hsubs).
  rewrite occurrences_flat_map.
  - rewrite decide_True; [done|]. by apply elem_of_prefixes.
  - apply NoDup_prefixes.
  - intros p Hpre Hin. apply Hfresh. apply elem_of_targets. exists p.
    split; [by apply elem_of_prefixes|done].
Qed.

(** C10.  Calling add_subscriber [n] times with the same topic and
    subscriber appends [n] references under the normalised key; a
    publication on a topic that has this key as a prefix then invokes
    the subscriber [n] times; one remove_subscriber call removes one
    reference only, and the subscriber is then invoked [n - 1] times.
    (The subscriber is live and was not subscribed under a prefix of the
    published topic before; subscribers return or raise TypeError.) *)
Theorem duplicate_subscriptions (impl : SubId → Subscriber) (st : State)
    (topic : Topic) (s : SubId) (n : nat) (published : Topic) (kw : Kwargs) :
  table_wf st →
  published ≠ TNone →
  as_tuple topic `prefix_of` as_tuple published →
  s ∉ collected st →
  s ∉ targets st (as_tuple published) →
  (∀ r, r ∈ live_targets st (as_tuple published) →
        passive impl r (as_tuple published) kw) →
  passive impl s (as_tuple published) kw →
  let st_n := Nat.iter n (add_subscriber topic s) st in
  let st_r := remove_subscriber topic s st_n in
  subs_at st_n (as_tuple topic) =
    subs_at st (as_tuple topic) ++ replicate n s ∧
  subs_at st_r (as_tuple topic) =
    subs_at st (as_tuple topic) ++ replicate (n - 1) s ∧
  (∃ evs,
     (∀ fuel, publish_fuel st_n (as_tuple published) ≤ fuel →
        exec impl fuel (CPublish published kw) st_n =
        Ok (append_events evs st_n)) ∧
     times_invoked s evs = n) ∧
  (∃ evs,
     (∀ fuel, publish_fuel st_r (as_tuple published) ≤ fuel →
        exec impl fuel (CPublish published kw) st_r =
        Ok (append_events evs st_r)) ∧
     times_invoked s evs = n - 1).
Proof.
  intros Hwf Hpub Hkey Hlive Hfresh Hp Hps st_n st_r.
  destruct (add_subscriber_iter topic s n st Hwf) as (Hwfn & Hcn & Hsn).
  fold st_n in Hwfn, Hcn, Hsn.
  destruct (remove_subscriber_spec topic s st_n Hwfn) as (Hwfr & Hcr & Hsr).
  { by rewrite Hcn. }
  fold st_r in Hwfr, Hcr, Hsr.
  assert (Hnot : s ∉ subs_at st (as_tuple topic)).
  { intros Hin. apply Hfresh. apply elem_of_targets. by exists (as_tuple topic). }
  assert (Hsr' : ∀ p, subs_at st_r p =
            subs_at st p ++
            (if decide (p = as_tuple topic) then replicate (n - 1) s else [])).
  { intros p. rewrite Hsr, Hsn. destruct (decide (p = as_tuple topic)) as [->|]; [|done].
    by rewrite list_remove_first_app, list_remove_first_replicate. }
  split; [|split; [|split]].
  - rewrite Hsn. by rewrite decide_True.
  - rewrite Hsr'. by rewrite decide_True.
  - by apply (publish_after_extension impl st st_n (as_tuple topic) n s published kw).
  - apply (publish_after_extension impl st st_r (as_tuple topic) (n - 1) s
             published kw); try done. congruence.
Qed.

Lemma st_root_wf : table_wf Examples.st_root.
Proof. apply add_subscriber_spec, init_wf. Qed.

Lemma st_root_targets : targets Examples.st_root ["a"; "b"] = [6].
Proof. vm_compute. reflexivity. Qed.

Lemma st_root_live_targets : live_targets Examples.st_root ["a"; "b"] = [6].
Proof. vm_compute. reflexivity. Qed.

Lemma duplicate_subscriptions_witness :
  let st_n := Nat.iter 3 (add_subscriber (TStr "a") 2) Examples.st_root in
  let st_r := remove_subscriber (TStr "a") 2 st_n in
  subs_at st_n ["a"] = subs_at Examples.st_root ["a"] ++ replicate 3 2 ∧
  subs_at st_r ["a"] = subs_at Examples.st_root ["a"] ++ replicate 2 2 ∧
  (∃ evs,
     (∀ fuel, publish_fuel st_n ["a"; "b"] ≤ fuel →
        exec Examples.impl_ex fuel (CPublish (TTuple ["a"; "b"]) []) st_n =
        Ok (append_events evs st_n)) ∧
     times_invoked 2 evs = 3) ∧
  (∃ evs,
     (∀ fuel, publish_fuel st_r ["a"; "b"] ≤ fuel →
        exec Examples.impl_ex fuel (CPublish (TTuple ["a"; "b"]) []) st_r =
        Ok (append_events evs st_r)) ∧
     times_invoked 2 evs = 2).
Proof.
  apply (duplicate_subscriptions Examples.impl_ex Examples.st_root (TStr "a")
           2 3 (TTuple ["a"; "b"]) []).
  - exact st_root_wf.
  - discriminate.
  - by exists ["b"].
  - vm_compute. discriminate.
  - simpl. rewrite st_root_targets.
    intros [H|H]%elem_of_cons; [discriminate|by apply elem_of_nil in H].
  - intros r Hr. simpl in Hr. rewrite st_root_live_targets in Hr.
    apply list_elem_of_singleton in Hr as ->. left; reflexivity.
  - left; reflexivity.
Defined.

End DuplicateFacts.

(* ===================================================================== *)
(** ** The network endpoint: local-only topics *)
(* ===================================================================== *)

Section LocalFacts.
Import Endpoint Spec.

Variable impl : SubId → Subscriber.

Lemma leak_refl st : queue_clean st → no_local_leak st st.
Proof. intros H. by split. Qed.

Lemma leak_trans st st1 st2 :
  no_local_leak st st1 → no_local_leak st1 st2 → no_local_leak st st2.
Proof. intros [H1 H2] [H3 H4]. split; [done|]. intros m Hm Hin. eauto. Qed.

Lemma leak_free_seq st st1 r :
  no_local_leak st st1 → leak_free st1 r → leak_free st r.
Proof. intros H1. destruct r; simpl; eauto using leak_trans. Qed.

(** A change that touches neither the outbound queue nor the record. *)
Lemma leak_frame st st' :
  _pending_send st' = _pending_send st →
  events st' = events st →
  queue_clean st → no_local_leak st st'.
Proof.
  intros Hq Hev Hc. split.
  - unfold queue_clean. by rewrite Hq.
  - intros m _. by rewrite Hev.
Qed.

(** Recording anything but a send. *)
Lemma leak_log ev st :
  (∀ m, ev ≠ EvSent m) → queue_clean st → no_local_leak st (log ev st).
Proof.
  intros Hev Hc. split; [done|]. intros m _ Hin. simpl in Hin.
  apply elem_of_app in Hin as [Hin|Hin]; [done|].
  apply list_elem_of_singleton in Hin. by destruct (Hev m).
Qed.

Lemma add_subscriber_frame topic s st :
  _pending_send (add_subscriber topic s st) = _pending_send st ∧
  events (add_subscriber topic s st) = events st.
Proof.
  unfold add_subscriber. destruct (_subs st !! as_tuple topic) eqn:Hk.
  - by rewrite Hk.
  - simpl. by rewrite lookup_insert_eq.
Qed.

Lemma remove_subscriber_frame topic s st :
  _pending_send (remove_subscriber topic s st) = _pending_send st ∧
  events (remove_subscriber topic s st) = events st.
Proof.
  unfold remove_subscriber. destruct (_subs st !! as_tuple topic); [|done].
  by destruct (find_ref _ _ _).
Qed.

Lemma recv_all_frame st :
  _pending_send (_recv_all st) = _pending_send st ∧
  events (_recv_all st) = events st.
Proof.
  unfold _recv_all. destruct (_conn st); [|done].
  by destruct (recv_loop _ _).
Qed.

Lemma try_send_leak st :
  queue_clean st →
  match try_send st with
  | TryNext st' | TryBreak st' | TryRaise _ st' => no_local_leak st st'
  end.
Proof.
  intros Hc. unfold try_send.
  destruct (_pending_send st) as [|msg rest] eqn:Hq; [by apply leak_refl|].
  destruct (_conn st) as [c|]; [|by apply leak_refl].
  assert (Hmsg : is_local msg.1 = false).
  { apply Hc. rewrite Hq. by apply elem_of_cons; left. }
  assert (Hrest : ∀ m, m ∈ rest → is_local m.1 = false).
  { intros m Hm. apply Hc. rewrite Hq. by apply elem_of_cons; right. }
  destruct (conn_send c) as [[e|] c'].
  - destruct (isinstance e IndexError); [by split|].
    destruct (isinstance e ValueError).
    { split; [done|]. intros m _ Hin. simpl in Hin.
      apply elem_of_app in Hin as [Hin|Hin]; [done|].
      by apply list_elem_of_singleton in Hin. }
    destruct (isinstance e ConnectionResetError); [|by split].
    split; [by intros m Hm%elem_of_nil|]. intros m _ Hin. simpl in Hin.
    apply elem_of_app in Hin as [Hin|Hin]; [done|].
    by apply list_elem_of_singleton in Hin.
  - split; [done|]. intros m Hm Hin. simpl in Hin.
    apply elem_of_app in Hin as [Hin|Hin]; [done|].
    apply list_elem_of_singleton in Hin. injection Hin as ->. congruence.
Qed.

Section Step.

Variable rec : Call → State → Res.
Hypothesis rec_leak_free : ∀ c st, queue_clean st → leak_free st (rec c st).

(** A call into the level below, after a stretch without leak. *)
Lemma rec_after st st1 c :
  no_local_leak st st1 → leak_free st (rec c st1).
Proof.
  intros H. eapply leak_free_seq; [done|]. apply rec_leak_free, H.
Qed.

Lemma run_leak_free acts st :
  queue_clean st → leak_free st (run rec acts st).
Proof.
  revert st. induction acts as [|a acts IH]; intros st Hc; simpl.
  - by apply leak_refl.
  - destruct a as [topic s|topic s| |topic kw|e]; simpl.
    + assert (no_local_leak st (add_subscriber topic s st)) as Hl.
      { destruct (add_subscriber_frame topic s st). by apply leak_frame. }
      eapply leak_free_seq; [done|]. apply IH, Hl.
    + assert (no_local_leak st (remove_subscriber topic s st)) as Hl.
      { destruct (remove_subscriber_frame topic s st). by apply leak_frame. }
      eapply leak_free_seq; [done|]. apply IH, Hl.
    + assert (no_local_leak st (clear_subscribers st)) as Hl
        by (by apply leak_frame).
      eapply leak_free_seq; [done|]. apply IH, Hl.
    + pose proof (rec_leak_free (CPublish topic kw) st Hc) as H1.
      pose proof (rec_leak_free (CNetPublish topic kw) st Hc) as H2.
      destruct (cls st).
      * destruct (rec (CPublish topic kw) st) as [st'| |]; [|done..].
        eapply leak_free_seq; [done|]. apply IH, H1.
      * destruct (rec (CNetPublish topic kw) st) as [st'| |]; [|done..].
        eapply leak_free_seq; [done|]. apply IH, H2.
    + by apply leak_refl.
Qed.

Lemma step_leak_free c st :
  queue_clean st → leak_free st (step impl rec c st).
Proof.
  intros Hc. destruct c as [topic kw|topic orig kw|loc i orig kw|s orig kw
                            |topic kw| | |]; simpl.
  - (* publish *)
    unfold publish. destruct topic; [by apply leak_refl|by apply rec_leak_free..].
  - (* its while loop *)
    unfold publish_while.
    assert (leak_free st
              match _subs st !! topic with
              | Some loc => rec (CPublishFor loc 0 orig kw) st
              | None => Ok st
              end) as H.
    { destruct (_subs st !! topic); [by apply rec_leak_free|by apply leak_refl]. }
    destruct (match _subs st !! topic with Some _ => _ | None => _ end)
      as [st'| |]; [|done..].
    destruct (bool_decide (topic = [])); [done|]. by apply rec_after.
  - (* its for loop *)
    unfold publish_for.
    destruct (heap_list st loc !! i) as [ref|]; [|by apply leak_refl].
    destruct (resolve st ref) as [sub|]; [|by apply rec_leak_free].
    assert (no_local_leak st (log (EvCall sub orig kw) st)) as Hl
      by (by apply leak_log).
    pose proof (rec_after st _ (CSubscriber sub orig kw) Hl) as H.
    destruct (rec (CSubscriber sub orig kw) _) as [st'|e st'|]; [| |done].
    + by apply rec_after.
    + destruct (isinstance e TypeError); [|done].
      apply rec_after. eapply leak_trans; [done|]. apply leak_log; [done|apply H].
  - (* the subscriber *)
    unfold call_subscriber. destruct (accepts (impl s) kw).
    + by apply run_leak_free.
    + by apply leak_refl.
  - (* net publish *)
    unfold net_publish.
    destruct (negb (bool_decide (is_Some (_conn st))) || is_local topic)
      eqn:Hloc; [by apply rec_leak_free|].
    apply orb_false_elim in Hloc as [_ Hloc].
    set (st1 := set_pending_send _ _).
    assert (no_local_leak st st1) as Hl.
    { split; [|done]. intros m Hm. simpl in Hm.
      apply elem_of_app in Hm as [Hm|Hm]; [by apply Hc|].
      by apply list_elem_of_singleton in Hm as ->. }
    destruct (_flushing st1); [done|]. by apply rec_after.
  - (* _flush *)
    unfold _flush. destruct (_conn st); [|by apply leak_refl].
    destruct (_flushing st); [by apply leak_refl|].
    pose proof (rec_leak_free CFlushWhile (set_flushing true st) Hc) as H.
    destruct (rec CFlushWhile _) as [st'|e st'|]; [|done..].
    simpl in *. destruct H as [H1 H2]. by split.
  - (* its outer loop *)
    unfold flush_while. destruct (flush_cond st); [|by apply leak_refl].
    assert (no_local_leak st (_recv_all st)) as Hr.
    { destruct (recv_all_frame st). by apply leak_frame. }
    pose proof (try_send_leak (_recv_all st) (proj1 Hr)) as Ht.
    destruct (try_send (_recv_all st)) as [st1|st1|e st1]; simpl;
      [|by eapply leak_trans..].
    assert (no_local_leak st st1) as H1 by (by eapply leak_trans).
    pose proof (rec_after st st1 CDrain H1) as Hd.
    destruct (rec CDrain st1) as [st2| |]; [|done..].
    by apply rec_after.
  - (* its inner loop *)
    unfold drain. destruct (_pending_publish st) as [|[topic kw] rest];
      [by apply leak_refl|].
    assert (no_local_leak st (set_pending_publish rest st)) as Hl
      by (by apply leak_frame).
    pose proof (rec_after st _ (CPublish topic kw) Hl) as H.
    destruct (rec (CPublish topic kw) _) as [st'| |]; [|done..].
    by apply rec_after.
Qed.

End Step.

(** No run of any method queues a local-only topic for the broker or
    hands one to the connection. *)
Lemma exec_leak_free fuel c st :
  queue_clean st → leak_free st (exec impl fuel c st).
Proof.
  revert c st. induction fuel as [|fuel IH]; intros c st Hc; [done|].
  by apply step_leak_free.
Qed.

End LocalFacts.

Section NetTheorems.
Import Endpoint Spec Examples.

Lemma is_local_suffix (t : list string) :
  last t = Some LOCAL_SUFFIX → is_local (TTuple t) = true.
Proof.
  intros H. destruct t as [|x t]; [done|].
  unfold is_local, truthy. rewrite H.
  rewrite (bool_decide_eq_false_2 (x :: t = [])) by done.
  by rewrite bool_decide_eq_true_2.
Qed.

Lemma sent_app evs1 evs2 : sent (evs1 ++ evs2) = sent evs1 ++ sent evs2.
Proof. apply omap_app. Qed.

Lemma deliver_sent impl dead orig kw l :
  sent (deliver impl dead orig kw l).1 = [].
Proof.
  induction l as [|r l IH]; [done|]. simpl.
  destruct (decide (r ∈ dead)); [done|].
  destruct (outcome impl r orig kw) as [[e|]|]; [| |done].
  - destruct (isinstance e TypeError); [|done].
    by destruct (deliver impl dead orig kw l).
  - by destruct (deliver impl dead orig kw l).
Qed.

(** C3, as stated, fails for the bare-string shorthand: on a connected
    endpoint, publishing the string '*local' -- whose normal form
    ('*local',) ends with the reserved suffix -- hands the message to the
    broker connection. *)
Lemma bare_string_local_suffix_is_sent :
  last (as_tuple (TStr "*local")) = Some LOCAL_SUFFIX ∧
  is_Some (_conn st_connected) ∧
  ∃ st',
    exec impl_ex 10 (CNetPublish (TStr "*local") []) st_connected = Ok st' ∧
    sent (events st') = [(TStr "*local", [])].
Proof.
  split; [reflexivity|]. split; [by eexists|].
  eexists. split; [vm_compute; reflexivity|]. reflexivity.
Qed.

(** C3, amended.  Publishing a topic given as a tuple whose last element
    is '*local' is the local dispatch and nothing else; no message with
    such a topic is in pending_send afterwards or was handed to the
    connection during the call, whatever the subscribers do and whether
    the call returns or raises; and when the subscribers concerned
    return or raise TypeError the call returns with the endpoint as it
    was. *)
Theorem local_suffix_never_reaches_broker (impl : SubId → Subscriber)
    (st : State) (t : list string) (kw : Kwargs) :
  last t = Some LOCAL_SUFFIX →
  queue_clean st →
  (∀ fuel, exec impl (S fuel) (CNetPublish (TTuple t) kw) st =
           exec impl fuel (CPublish (TTuple t) kw) st) ∧
  (∀ fuel st',
     final (exec impl fuel (CNetPublish (TTuple t) kw) st) = Some st' →
     ((TTuple t, kw) ∉ _pending_send st') ∧
     (EvSent (TTuple t, kw) ∈ events st' → EvSent (TTuple t, kw) ∈ events st)) ∧
  ((∀ s, s ∈ live_targets st t → passive impl s t kw) →
   ∃ evs,
     (∀ fuel, publish_fuel st t ≤ fuel →
        exec impl (S fuel) (CNetPublish (TTuple t) kw) st =
        Ok (append_events evs st)) ∧
     sent evs = []).
Proof.
  intros Hlast Hclean.
  pose proof (is_local_suffix t Hlast) as Hloc.
  assert (Heq : ∀ fuel, exec impl (S fuel) (CNetPublish (TTuple t) kw) st =
                        exec impl fuel (CPublish (TTuple t) kw) st).
  { intros fuel. rewrite exec_S. simpl. unfold net_publish.
    by rewrite Hloc, orb_true_r. }
  split; [done|]. split.
  - intros fuel st' Hfinal.
    pose proof (exec_leak_free impl fuel (CNetPublish (TTuple t) kw) st Hclean)
      as Hleak.
    assert (no_local_leak st st') as [Hq Hev].
    { destruct (exec impl fuel _ st); simpl in *; congruence. }
    split.
    + intros Hin. apply Hq in Hin. simpl in Hin. congruence.
    + by apply Hev.
  - intros Hp.
    destruct (deliver impl (collected st) t kw (targets st t)) as [evs x] eqn:Hd.
    destruct (deliver_passive impl (collected st) t kw (targets st t))
      as (evs' & Hd' & _).
    { intros r Hr Hlive. apply Hp. by apply list_elem_of_filter. }
    exists evs'. split.
    + intros fuel Hfuel. rewrite Heq.
      rewrite (publish_deliver impl st (TTuple t) kw fuel); simpl;
        [by rewrite Hd'|done|by rewrite Hd'|done].
    + pose proof (deliver_sent impl (collected st) t kw (targets st t)) as Hs.
      by rewrite Hd' in Hs.
Qed.

Lemma st_connected_live_targets :
  live_targets st_connected ["d"; "*local"] = [6].
Proof. vm_compute. reflexivity. Qed.

Lemma local_suffix_never_reaches_broker_witness :
  is_Some (_conn st_connected) ∧
  (∀ fuel,
     exec impl_ex (S fuel) (CNetPublish (TTuple ["d"; "*local"]) kw_hello)
       st_connected =
     exec impl_ex fuel (CPublish (TTuple ["d"; "*local"]) kw_hello)
       st_connected) ∧
  (∀ fuel st',
     final (exec impl_ex fuel (CNetPublish (TTuple ["d"; "*local"]) kw_hello)
              st_connected) = Some st' →
     ((TTuple ["d"; "*local"], kw_hello) ∉ _pending_send st') ∧
     (EvSent (TTuple ["d"; "*local"], kw_hello) ∈ events st' →
      EvSent (TTuple ["d"; "*local"], kw_hello) ∈ events st_connected)) ∧
  ((∀ s, s ∈ live_targets st_connected ["d"; "*local"] →
         passive impl_ex s ["d"; "*local"] kw_hello) →
   ∃ evs,
     (∀ fuel, publish_fuel st_connected ["d"; "*local"] ≤ fuel →
        exec impl_ex (S fuel) (CNetPublish (TTuple ["d"; "*local"]) kw_hello)
          st_connected =
        Ok (append_events evs st_connected)) ∧
     sent evs = []).
Proof.
  split; [by eexists|].
  apply (local_suffix_never_reaches_broker impl_ex st_connected
           ["d"; "*local"] kw_hello).
  - reflexivity.
  - intros m Hm. simpl in Hm. by apply elem_of_nil in Hm.
Defined.

Lemma flush_reaches_exec impl fuel st fuel' st' :
  flush_reaches impl fuel st fuel' st' →
  exec impl fuel CFlushWhile st = exec impl fuel' CFlushWhile st'.
Proof.
  induction 1 as [|fuel st st1 st2 fuel' st' Hcond Htry Hdrain _ IH]; [done|].
  rewrite exec_S. simpl. unfold flush_while.
  by rewrite Hcond, Htry, Hdrain.
Qed.

(** C6.  When, at some turn of the flush loop, the send raises
    ConnectionResetError, _flush returns with pending_send empty, the
    connection handle None, the flushing flag cleared, and
    pending_publish as it was when the send was attempted (after the
    inbound messages of that turn were read). *)
Theorem flush_connection_reset (impl : SubId → Subscriber) (fuel : nat)
    (st : State) (fuel_err : nat) (st_head : State) (msg : Message)
    (rest : list Message) (c c' : Connection) :
  is_Some (_conn st) →
  _flushing st = false →
  flush_reaches impl fuel (set_flushing true st) (S fuel_err) st_head →
  flush_cond st_head = true →
  _pending_send (_recv_all st_head) = msg :: rest →
  _conn (_recv_all st_head) = Some c →
  conn_send c = (Some ConnectionResetError, c') →
  ∃ st',
    exec impl (S fuel) CFlush st = Ok st' ∧
    _pending_send st' = [] ∧
    _conn st' = None ∧
    _pending_publish st' = _pending_publish (_recv_all st_head) ∧
    _flushing st' = false.
Proof.
  intros [c0 Hc0] Hfl Hreach Hcond Hq Hconn Hsend.
  rewrite exec_S. simpl. unfold _flush. rewrite Hc0, Hfl.
  rewrite (flush_reaches_exec _ _ _ _ _ Hreach).
  rewrite exec_S. simpl. unfold flush_while. rewrite Hcond.
  unfold try_send. rewrite Hq, Hconn, Hsend. simpl.
  eexists. split; [reflexivity|]. done.
Qed.

Lemma flush_connection_reset_witness :
  ∃ st_head st',
    exec impl_ex 21 CFlush st_reset = Ok st' ∧
    _pending_send st' = [] ∧
    _conn st' = None ∧
    _pending_publish st' = _pending_publish (_recv_all st_head) ∧
    _flushing st' = false ∧
    _pending_publish (_recv_all st_head) = [(TTuple ["in2"], [])] ∧
    invocations (events st') =
      [(6, ["p"], []); (6, ["q"], []); (6, ["in1"], [])].
Proof.
  eexists.
  edestruct (flush_connection_reset impl_ex 20 st_reset 18)
    as (st' & H1 & H2 & H3 & H4 & H5).
  - by eexists.
  - reflexivity.
  - eapply reaches_next; [reflexivity|vm_compute; reflexivity
                          |vm_compute; reflexivity|apply reaches_here].
  - reflexivity.
  - vm_compute. reflexivity.
  - vm_compute. reflexivity.
  - reflexivity.
  - exists st'. split; [exact H1|]. split; [exact H2|]. split; [exact H3|].
    split; [exact H4|]. split; [exact H5|]. split; [reflexivity|].
    vm_compute in H1. injection H1 as <-. reflexivity.
Defined.

End NetTheorems.

(* ===================================================================== *)
(** ** The broker: the forward step *)
(* ===================================================================== *)

Section ForwardFacts.
Import Broker BrokerSpec.

Lemma frame_refl st : frame st st.
Proof. by split. Qed.

Lemma frame_trans st1 st2 st3 : frame st1 st2 → frame st2 st3 → frame st1 st3.
Proof.
  intros (H1 & H2 & H3) (H4 & H5 & H6). split; [congruence|].
  split; [congruence|eauto].
Qed.

Lemma frame_log ev st : frame st (log ev st).
Proof. by split. Qed.

Lemma conn_send_frame c w st :
  frame st (conn_send c w st).2 ∧
  events (conn_send c w st).2 = events st ++ [EvSend c w (conn_send c w st).1] ∧
  ((conn_send c w st).1 = None ∨ (conn_send c w st).1 ∈ send_results st c).
Proof.
  unfold conn_send. simpl. split; [|split; [done|]].
  - split; [done|]. split; [done|]. intros c' x. simpl.
    destruct (decide (c' = c)) as [->|]; [|done].
    destruct (send_results st c); simpl; [done|]. intros ?. by right.
  - destruct (send_results st c) as [|r l]; [by left|]. right. by left.
Qed.

Lemma tidy_nil : tidy ∅ [].
Proof.
  split; [|split].
  - intros dst. split; [set_solver|]. by intros ?%elem_of_nil.
  - intros dst. split; [set_solver|]. by intros (w & e & ?%elem_of_nil & _).
  - intros i j dst w e w' r' _ H. by rewrite lookup_nil in H.
Qed.

(** Recording one more event that is neither a close nor a failed send. *)
Lemma tidy_snoc closed evs ev :
  tidy closed evs →
  (∀ dst, ev ≠ EvClose dst) →
  (∀ dst w e, ev = EvSend dst w (Some e) →
              isinstance e ConnectionError = false) →
  (∀ dst w r, ev = EvSend dst w r → dst ∉ closed) →
  tidy closed (evs ++ [ev]).
Proof.
  intros (Ha & Hb & Hc) Hnc Hnf Hopen. split; [|split].
  - intros dst. rewrite Ha, elem_of_app, list_elem_of_singleton.
    split; [by left|]. intros [?|?]; [done|]. by destruct (Hnc dst).
  - intros dst. rewrite Hb. split.
    + intros (w & e & Hin & He). exists w, e. split; [|done].
      apply elem_of_app. by left.
    + intros (w & e & Hin & He). exists w, e. split; [|done].
      apply elem_of_app in Hin as [Hin|Hin]; [done|].
      apply list_elem_of_singleton in Hin.
      rewrite (Hnf dst w e) in He; done.
  - intros i j dst w e w' r' Hij Hi He Hj.
    assert (i < length evs) as Hlt.
    { apply lookup_lt_Some in Hj. rewrite length_app in Hj. simpl in Hj. lia. }
    rewrite lookup_app_l in Hi by done.
    destruct (decide (j < length evs)) as [Hj'|Hj'].
    + rewrite lookup_app_l in Hj by done.
      exact (Hc i j dst w e w' r' Hij Hi He Hj).
    + rewrite lookup_app_r in Hj by lia.
      apply list_lookup_singleton_Some in Hj as [_ ->].
      apply (Hopen dst w' r'); [done|]. apply Hb. exists w, e. split; [|done].
      by eapply list_elem_of_lookup_2.
Qed.

(** Recording a send that raised a ConnectionError, and the close. *)
Lemma tidy_close closed evs dst w e :
  tidy closed evs →
  dst ∉ closed →
  isinstance e ConnectionError = true →
  tidy ({[dst]} ∪ closed) ((evs ++ [EvSend dst w (Some e)]) ++ [EvClose dst]).
Proof.
  intros (Ha & Hb & Hc) Hopen He. split; [|split].
  - intros d. rewrite elem_of_union, elem_of_singleton, Ha.
    rewrite !elem_of_app, !list_elem_of_singleton. split.
    + intros [->|?]; [by right|by left; left].
    + intros [[?|?]|?]; [by right|done|left; congruence].
  - intros d. rewrite elem_of_union, elem_of_singleton, Hb. split.
    + intros [->|(w0 & e0 & Hin & He0)].
      * exists w, e. split; [|done]. rewrite !elem_of_app, !list_elem_of_singleton.
        by left; right.
      * exists w0, e0. split; [|done]. rewrite !elem_of_app. by left; left.
    + intros (w0 & e0 & Hin & He0).
      rewrite !elem_of_app, !list_elem_of_singleton in Hin.
      destruct Hin as [[Hin|Hin]|Hin]; [|left; congruence|done].
      right. by exists w0, e0.
  - intros i j d w0 e0 w' r' Hij Hi He0 Hj.
    assert (Hlen : length ((evs ++ [EvSend dst w (Some e)]) ++ [EvClose dst])
                   = S (S (length evs))).
    { rewrite !length_app. simpl. lia. }
    apply lookup_lt_Some in Hj as Hjlt. rewrite Hlen in Hjlt.
    destruct (decide (j = S (length evs))) as [->|Hjne].
    { rewrite lookup_app_r in Hj by (rewrite length_app; simpl; lia).
      rewrite length_app in Hj. simpl in Hj.
      replace (S (length evs) - (length evs + 1)) with 0 in Hj by lia.
      done. }
    rewrite <- app_assoc in Hi, Hj.
    destruct (decide (j = length evs)) as [->|Hjne'].
    + rewrite lookup_app_r in Hj by lia. rewrite Nat.sub_diag in Hj.
      simpl in Hj. injection Hj as <- <- <-.
      rewrite lookup_app_l in Hi by lia.
      apply Hopen, Hb. exists w0, e0. split; [|done].
      by eapply list_elem_of_lookup_2.
    + rewrite lookup_app_l in Hj by lia. rewrite lookup_app_l in Hi by lia.
      exact (Hc i j d w0 e0 w' r' Hij Hi He0 Hj).
Qed.


Lemma sends_within_one conn control m other r :
  other ≠ conn → other ≠ control →
  sends_within conn control m [other] [EvSend other (WMsg m) r].
Proof.
  intros Hne1 Hne2 dst w r' H. apply list_elem_of_singleton in H.
  injection H as H1 H2 H3. subst dst w.
  split; [done|]. split; [|done]. by apply list_elem_of_singleton.
Qed.

Lemma sends_within_one_more conn control m dsts ev1 ev2 :
  sends_within conn control m dsts [ev1] →
  (∀ dst w r, ev2 ≠ EvSend dst w r) →
  sends_within conn control m dsts [ev1; ev2].
Proof.
  intros H1 H2 dst w r H. apply elem_of_cons in H as [H|H].
  - apply (H1 dst w r). rewrite H. by apply list_elem_of_singleton.
  - apply list_elem_of_singleton in H. by destruct (H2 dst w r).
Qed.

(** One destination. *)
Lemma send_to_spec conn control m other closed st evs0 :
  tidy closed evs0 →
  (∀ c x, x ∈ send_results st c → handled x) →
  ∃ closed' st' evs,
    send_to conn control m other closed st = Ok (closed', st') ∧
    events st' = events st ++ evs ∧
    frame st st' ∧
    closed ⊆ closed' ∧
    tidy closed' (evs0 ++ evs) ∧
    sends_within conn control m [other] evs ∧
    covers conn control m [other] closed' evs.
Proof.
  intros Htidy Hres. unfold send_to.
  destruct (bool_decide (other = conn) || bool_decide (other = control)
            || bool_decide (other ∈ closed)) eqn:Hskip.
  - (* continue *)
    exists closed, st, []. rewrite !app_nil_r.
    split; [done|]. split; [done|]. split; [apply frame_refl|].
    split; [done|]. split; [done|]. split.
    + intros dst w r H. by apply elem_of_nil in H.
    + intros dst Hd Hne1 Hne2. apply list_elem_of_singleton in Hd as ->.
      right. apply orb_true_iff in Hskip as [Hskip|Hskip].
      * apply orb_true_iff in Hskip as [H|H]; by apply bool_decide_eq_true in H.
      * by apply bool_decide_eq_true in Hskip.
  - apply orb_false_iff in Hskip as [Hskip Hopen].
    apply orb_false_iff in Hskip as [Hne1 Hne2].
    apply bool_decide_eq_false in Hne1, Hne2, Hopen.
    destruct (conn_send_frame other (WMsg m) st) as (Hfr & Hev & Hr).
    destruct (conn_send other (WMsg m) st) as [r st1] eqn:Hsend.
    simpl in Hfr, Hev, Hr.
    assert (handled r) as Hh.
    { destruct Hr as [->|Hr]; [done|]. by eapply Hres. }
    pose proof (sends_within_one conn control m other r Hne1 Hne2) as Hw1.
    destruct r as [e|].
    + destruct (isinstance e ConnectionError) eqn:Hce.
      * exists ({[other]} ∪ closed), (log (EvClose other) st1),
          [EvSend other (WMsg m) (Some e); EvClose other].
        split; [done|]. split; [by simpl; rewrite Hev, <- app_assoc|].
        split; [by eapply frame_trans; [|apply frame_log]|].
        split; [apply union_subseteq_r|]. split; [|split].
        -- change [EvSend other (WMsg m) (Some e); EvClose other]
             with ([EvSend other (WMsg m) (Some e)] ++ [EvClose other]).
           rewrite app_assoc. by apply tidy_close.
        -- by apply sends_within_one_more.
        -- intros dst Hd _ _. apply list_elem_of_singleton in Hd as ->.
           left. exists (Some e). by left.
      * destruct Hh as [Hh|Hve]; [congruence|]. rewrite Hve.
        exists closed, (log EvLogCritical st1),
          [EvSend other (WMsg m) (Some e); EvLogCritical].
        split; [done|]. split; [by simpl; rewrite Hev, <- app_assoc|].
        split; [by eapply frame_trans; [|apply frame_log]|].
        split; [done|]. split; [|split].
        -- change [EvSend other (WMsg m) (Some e); EvLogCritical]
             with ([EvSend other (WMsg m) (Some e)] ++ [EvLogCritical]).
           rewrite app_assoc. apply tidy_snoc; [|done..].
           apply tidy_snoc; [done|done| |].
           ++ by intros dst w e' [= _ _ ->].
           ++ by intros dst w r' [= -> _ _].
        -- by apply sends_within_one_more.
        -- intros dst Hd _ _. apply list_elem_of_singleton in Hd as ->.
           left. exists (Some e). by left.
    + exists closed, st1, [EvSend other (WMsg m) None].
      split; [done|]. split; [done|]. split; [done|]. split; [done|].
      split; [|split; [done|]].
      * apply tidy_snoc; [done|done|done|]. by intros dst w r' [= -> _ _].
      * intros dst Hd _ _. apply list_elem_of_singleton in Hd as ->.
        left. exists None. by left.
Qed.

(** All destinations, for one payload. *)
Lemma send_each_spec conn control m dsts :
  ∀ closed st evs0,
    tidy closed evs0 →
    (∀ c x, x ∈ send_results st c → handled x) →
    ∃ closed' st' evs,
      send_each conn control m dsts closed st = Ok (closed', st') ∧
      events st' = events st ++ evs ∧
      frame st st' ∧
      closed ⊆ closed' ∧
      tidy closed' (evs0 ++ evs) ∧
      sends_within conn control m dsts evs ∧
      covers conn control m dsts closed' evs.
Proof.
  induction dsts as [|other dsts IH]; intros closed st evs0 Htidy Hres.
  - exists closed, st, []. rewrite !app_nil_r.
    split; [done|]. split; [done|]. split; [apply frame_refl|].
    split; [done|]. split; [done|]. split.
    + intros dst w r H. by apply elem_of_nil in H.
    + intros dst H. by apply elem_of_nil in H.
  - simpl.
    destruct (send_to_spec conn control m other closed st evs0 Htidy Hres)
      as (closed1 & st1 & evs1 & -> & Hev1 & Hfr1 & Hsub1 & Ht1 & Hw1 & Hc1).
    destruct (IH closed1 st1 (evs0 ++ evs1) Ht1)
      as (closed2 & st2 & evs2 & -> & Hev2 & Hfr2 & Hsub2 & Ht2 & Hw2 & Hc2).
    { intros c x Hx. apply (Hres c). by apply Hfr1. }
    exists closed2, st2, (evs1 ++ evs2).
    split; [done|]. split; [by rewrite Hev2, Hev1, app_assoc|].
    split; [by eapply frame_trans|]. split; [by etrans|].
    split; [by rewrite app_assoc|]. split.
    + intros dst w r H. apply elem_of_app in H as [H|H].
      * destruct (Hw1 dst w r H) as (? & Hd & ? & ?).
        apply list_elem_of_singleton in Hd as ->.
        split; [done|]. split; [by left|done].
      * destruct (Hw2 dst w r H) as (? & Hd & ? & ?).
        split; [done|]. split; [by right|done].
    + intros dst Hd Hne1 Hne2. apply elem_of_cons in Hd as [->|Hd].
      * destruct (Hc1 other) as [[r Hr]|Hcl]; [by left|done|done| |].
        -- left. exists r. apply elem_of_app. by left.
        -- right. by apply Hsub2.
      * destruct (Hc2 dst Hd Hne1 Hne2) as [[r Hr]|Hcl]; [|by right].
        left. exists r. apply elem_of_app. by right.
Qed.

(** The whole queue. *)
Lemma send_pending_spec control clients queue :
  (∀ src w, (src, w) ∈ queue → ∃ m, w = WMsg m) →
  ∀ closed st evs0,
    tidy closed evs0 →
    (∀ c x, x ∈ send_results st c → handled x) →
    ∃ closed' st' evs,
      send_pending control clients queue closed st = Ok (closed', st') ∧
      events st' = events st ++ evs ∧
      frame st st' ∧
      closed ⊆ closed' ∧
      tidy closed' (evs0 ++ evs) ∧
      (∀ dst w r, EvSend dst w r ∈ evs →
         ∃ src, (src, w) ∈ queue ∧ (∃ m, w = WMsg m) ∧
                dst ∈ clients ∧ dst ≠ src ∧ dst ≠ control) ∧
      (∀ src m dst, (src, WMsg m) ∈ queue → dst ∈ clients →
         dst ≠ src → dst ≠ control →
         (∃ r, EvSend dst (WMsg m) r ∈ evs) ∨ dst ∈ closed').
Proof.
  induction queue as [|[conn w] queue IH]; intros Hpay closed st evs0 Htidy Hres.
  - exists closed, st, []. rewrite !app_nil_r.
    split; [done|]. split; [done|]. split; [apply frame_refl|].
    split; [done|]. split; [done|]. split.
    + intros dst w r H. by apply elem_of_nil in H.
    + intros src m dst H. by apply elem_of_nil in H.
  - destruct (Hpay conn w) as [m ->]; [by left|]. simpl.
    destruct (send_each_spec conn control m (elements clients) closed st evs0
                Htidy Hres)
      as (closed1 & st1 & evs1 & -> & Hev1 & Hfr1 & Hsub1 & Ht1 & Hw1 & Hc1).
    destruct (IH (λ src w H, Hpay src w (list_elem_of_further _ _ _ H))
                closed1 st1 (evs0 ++ evs1) Ht1)
      as (closed2 & st2 & evs2 & -> & Hev2 & Hfr2 & Hsub2 & Ht2 & Hw2 & Hc2).
    { intros c x Hx. apply (Hres c). by apply Hfr1. }
    exists closed2, st2, (evs1 ++ evs2).
    split; [done|]. split; [by rewrite Hev2, Hev1, app_assoc|].
    split; [by eapply frame_trans|]. split; [by etrans|].
    split; [by rewrite app_assoc|]. split.
    + intros dst w r H. apply elem_of_app in H as [H|H].
      * destruct (Hw1 dst w r H) as (-> & Hd & ? & ?).
        exists conn. split; [by left|]. split; [by exists m|].
        split; [by apply elem_of_elements|done].
      * destruct (Hw2 dst w r H) as (src & Hq & ? & ? & ? & ?).
        exists src. split; [by right|done].
    + intros src m' dst Hq Hd Hne1 Hne2. apply elem_of_cons in Hq as [Hq|Hq].
      * injection Hq as -> ->.
        destruct (Hc1 dst) as [[r Hr]|Hcl];
          [by apply elem_of_elements|done|done| |].
        -- left. exists r. apply elem_of_app. by left.
        -- right. by apply Hsub2.
      * destruct (Hc2 src m' dst Hq Hd Hne1 Hne2) as [[r Hr]|Hcl]; [|by right].
        left. exists r. apply elem_of_app. by right.
Qed.

End ForwardFacts.

Section ForwardTheorems.
Import Broker BrokerSpec.

(** C4.  When the pending entries are payloads and the transport raises
    nothing but ConnectionError and ValueError, the forward step
    returns with the pending queue empty, and: every send carries a
    pending payload to a member of the snapshot other than its source
    and the control connection; every pending payload is sent to every
    such member unless that member is in the closed set; a connection
    is in the closed set exactly when a send to it raised a
    ConnectionError, exactly when it was closed; nothing is sent to a
    connection after that; and the closed set is what leaves the client
    set. *)
Theorem forward_step_fanout (control : Conn) (joined : gset Conn)
    (st : State) :
  (∀ src w, (src, w) ∈ pending st → ∃ m, w = WMsg m) →
  (∀ c x, x ∈ send_results st c → handled x) →
  ∃ st' evs closed,
    _send control joined st = Ok st' ∧
    pending st' = [] ∧
    events st' = events st ++ evs ∧
    _clients st' = (_clients st ∪ joined) ∖ closed ∧
    (∀ dst w r, EvSend dst w r ∈ evs →
       ∃ src, (src, w) ∈ pending st ∧ (∃ m, w = WMsg m) ∧
              dst ∈ _clients st ∧ dst ≠ src ∧ dst ≠ control) ∧
    (∀ src m dst, (src, WMsg m) ∈ pending st → dst ∈ _clients st →
       dst ≠ src → dst ≠ control →
       (∃ r, EvSend dst (WMsg m) r ∈ evs) ∨ dst ∈ closed) ∧
    (∀ dst, dst ∈ closed ↔
            ∃ w e, EvSend dst w (Some e) ∈ evs ∧
                   isinstance e ConnectionError = true) ∧
    (∀ dst, dst ∈ closed ↔ EvClose dst ∈ evs) ∧
    (∀ i j dst w e w' r',
       i < j →
       evs !! i = Some (EvSend dst w (Some e)) →
       isinstance e ConnectionError = true →
       evs !! j ≠ Some (EvSend dst w' r')).
Proof.
  intros Hpay Hres.
  destruct (send_pending_spec control (_clients st) (pending st) Hpay
              ∅ st [] tidy_nil Hres)
    as (closed & st1 & evs & Hrun & Hev & (Hcl & Hpe & _) & _ & Ht & Hw & Hc).
  simpl in Ht. destruct Ht as (Ha & Hb & Ho).
  exists (set_clients ((_clients st1 ∪ joined) ∖ closed) (set_pending [] st1)),
    evs, closed.
  unfold _send. rewrite Hrun. simpl. rewrite Hcl.
  split; [done|]. split; [done|]. split; [done|]. split; [done|].
  split; [done|]. split; [done|]. split; [done|]. split; done.
Qed.

Lemma forward_step_fanout_witness :
  ∃ st' evs closed,
    _send 0 ∅ Examples.bk_fanout = Ok st' ∧
    pending st' = [] ∧
    events st' = events Examples.bk_fanout ++ evs ∧
    _clients st' = (_clients Examples.bk_fanout ∪ ∅) ∖ closed ∧
    (∀ dst w r, EvSend dst w r ∈ evs →
       ∃ src, (src, w) ∈ pending Examples.bk_fanout ∧ (∃ m, w = WMsg m) ∧
              dst ∈ _clients Examples.bk_fanout ∧ dst ≠ src ∧ dst ≠ 0) ∧
    (∀ src m dst, (src, WMsg m) ∈ pending Examples.bk_fanout →
       dst ∈ _clients Examples.bk_fanout →
       dst ≠ src → dst ≠ 0 →
       (∃ r, EvSend dst (WMsg m) r ∈ evs) ∨ dst ∈ closed) ∧
    (∀ dst, dst ∈ closed ↔
            ∃ w e, EvSend dst w (Some e) ∈ evs ∧
                   isinstance e ConnectionError = true) ∧
    (∀ dst, dst ∈ closed ↔ EvClose dst ∈ evs) ∧
    (∀ i j dst w e w' r',
       i < j →
       evs !! i = Some (EvSend dst w (Some e)) →
       isinstance e ConnectionError = true →
       evs !! j ≠ Some (EvSend dst w' r')).
Proof.
  apply (forward_step_fanout 0 ∅ Examples.bk_fanout).
  - intros src w H. simpl in H.
    repeat (apply elem_of_cons in H as [H|H]; [injection H as -> ->; by eexists|]).
    by apply elem_of_nil in H.
  - intros c x H. simpl in H.
    destruct c as [|[|[|[|c]]]]; simpl in H;
      try (by apply elem_of_nil in H).
    apply list_elem_of_singleton in H as ->. left. reflexivity.
Defined.

(** The run of the example, event by event: the payload of 1 reaches 2,
    the send to 3 fails and 3 is closed; the payload of 2 reaches 1 and
    is not offered to 3. *)
Lemma forward_step_example :
  ∃ st',
    _send 0 ∅ Examples.bk_fanout = Ok st' ∧
    _clients st' = {[0; 1; 2]} ∧
    delivered (events st') =
      [(2, WMsg (TTuple ["d"], [])); (1, WMsg (TTuple ["e"], []))] ∧
    EvClose 3 ∈ events st'.
Proof.
  eexists. split; [vm_compute; reflexivity|].
  split; [by vm_compute|]. split; [reflexivity|].
  vm_compute. do 2 right. left.
Qed.

End ForwardTheorems.

(* ===================================================================== *)
(** ** The broker: which tokens are echoed *)
(* ===================================================================== *)

Section EchoFacts.
Import Broker BrokerSpec.


Lemma grows_frame Q st st' : events st' = events st → grows Q st st'.
Proof. intros H. exists []. by rewrite app_nil_r. Qed.

Lemma grows_refl Q st : grows Q st st.
Proof. by apply grows_frame. Qed.

Lemma grows_trans Q st1 st2 st3 :
  grows Q st1 st2 → grows Q st2 st3 → grows Q st1 st3.
Proof.
  intros (evs1 & H1 & Q1) (evs2 & H2 & Q2). exists (evs1 ++ evs2).
  split; [by rewrite H2, H1, app_assoc|]. by apply Forall_app.
Qed.

Lemma grows_log (Q : Event → Prop) ev st : Q ev → grows Q st (log ev st).
Proof. intros H. exists [ev]. split; [done|]. by apply Forall_singleton. Qed.

Lemma grows_log_after (Q : Event → Prop) ev st st' :
  events st' = events st → Q ev → grows Q st (log ev st').
Proof.
  intros He H. exists [ev]. split; [by simpl; rewrite He|].
  by apply Forall_singleton.
Qed.

Lemma grows_weaken (Q Q' : Event → Prop) st st' :
  (∀ ev, Q ev → Q' ev) → grows Q st st' → grows Q' st st'.
Proof.
  intros HQ (evs & H & HF). exists evs. split; [done|].
  eapply Forall_impl; eauto.
Qed.

Lemma grows_conn_send (Q : Event → Prop) c w st :
  (∀ r, Q (EvSend c w r)) → grows Q st (conn_send c w st).2.
Proof.
  intros H. eexists. split; [reflexivity|]. by apply Forall_singleton.
Qed.

#[local] Opaque conn_send.

Lemma payload_only_send c m r : payload_only (EvSend c (WMsg m) r).
Proof. intros c' w r' [= _ <- _]. by exists m. Qed.

Lemma payload_only_close c : payload_only (EvClose c).
Proof. by intros c' w r'. Qed.

Lemma payload_only_critical : payload_only EvLogCritical.
Proof. by intros c' w r'. Qed.

(** The forward step sends payloads only, however it ends. *)
Lemma send_to_payload conn control m other closed st :
  grows payload_only st
    (res_state snd (send_to conn control m other closed st)).
Proof.
  unfold send_to.
  destruct (_ || _); [by apply grows_refl|].
  pose proof (grows_conn_send payload_only other (WMsg m) st
                (payload_only_send other m)) as H.
  destruct (conn_send other (WMsg m) st) as [[e|] st1]; simpl in *; [|done].
  destruct (isinstance e ConnectionError); simpl.
  { eapply grows_trans; [done|]. apply grows_log, payload_only_close. }
  destruct (isinstance e ValueError); simpl; [|done].
  eapply grows_trans; [done|]. apply grows_log, payload_only_critical.
Qed.

Lemma send_each_payload conn control m dsts closed st :
  grows payload_only st
    (res_state snd (send_each conn control m dsts closed st)).
Proof.
  revert closed st. induction dsts as [|other dsts IH]; intros closed st; simpl.
  - apply grows_refl.
  - pose proof (send_to_payload conn control m other closed st) as H.
    destruct (send_to conn control m other closed st) as [[closed1 st1]| |];
      [|done..].
    eapply grows_trans; [done|]. apply IH.
Qed.

Lemma send_pending_payload control clients queue closed st :
  grows payload_only st
    (res_state snd (send_pending control clients queue closed st)).
Proof.
  revert closed st. induction queue as [|[conn w] queue IH]; intros closed st.
  - apply grows_refl.
  - destruct w as [| | | |m|tag]; simpl; try apply grows_refl.
    pose proof (send_each_payload conn control m (elements clients) closed st)
      as H.
    destruct (send_each conn control m (elements clients) closed st)
      as [[closed1 st1]| |]; [|done..].
    eapply grows_trans; [done|]. apply IH.
Qed.

Lemma _send_payload control joined st :
  grows payload_only st (res_state id (_send control joined st)).
Proof.
  unfold _send.
  pose proof (send_pending_payload control (_clients st) (pending st) ∅ st)
    as H.
  destruct (send_pending control (_clients st) (pending st) ∅ st)
    as [[closed1 st1]| |]; [|done..].
  simpl in *. eapply grows_trans; [done|]. by apply grows_frame.
Qed.

(** The start-up of the forwarder echoes INIT and NEWPUBSUB and sends
    nothing else. *)
Lemma get_control_conn_handshake accepted st :
  grows handshake_echo st (res_state snd (_get_control_conn accepted st)).
Proof.
  revert st. induction accepted as [|[conn r] accepted IH]; intros st.
  - apply grows_refl.
  - simpl. set (st0 := set_clients _ st).
    assert (grows handshake_echo st st0) as H0 by (by apply grows_frame).
    destruct r as [msg|e]; [|done].
    destruct msg as [| | | |m|tag].
    + pose proof (grows_conn_send handshake_echo conn WTrue st0) as H.
      destruct (conn_send conn WTrue st0) as [[e|] st1]; simpl in *;
        (eapply grows_trans; [done|]); apply H;
        intros r c w r' [= _ <- _]; by left.
    + eapply grows_trans; [|apply IH].
      eapply grows_trans; [done|]. by apply grows_log_after.
    + eapply grows_trans; [|apply IH].
      eapply grows_trans; [done|]. by apply grows_frame.
    + pose proof (grows_conn_send handshake_echo conn WEllipsis st0) as H.
      destruct (conn_send conn WEllipsis st0) as [[e|] st1]; simpl in *.
      * eapply grows_trans; [done|]. apply H.
        intros r c w r' [= _ <- _]; by right.
      * eapply grows_trans; [|apply IH]. eapply grows_trans; [done|].
        apply H. intros r c w r' [= _ <- _]; by right.
    + eapply grows_trans; [|apply IH].
      eapply grows_trans; [done|]. by apply grows_frame.
    + eapply grows_trans; [|apply IH].
      eapply grows_trans; [done|]. by apply grows_frame.
Qed.

(** Reading one connection: a send, if any, goes to the control
    connection. *)
Lemma read_one_to_control ctl conn r control closed st :
  control = Some ctl ∨ control = None →
  grows (to_control ctl) st
    (res_state (λ x, x.2) (read_one conn r control closed st)) ∧
  ∀ control' closed' st',
    read_one conn r control closed st = Ok (control', closed', st') →
    control' = Some ctl ∨ control' = None.
Proof.
  intros Hctl. unfold read_one.
  set (recvd := match r with Recv w => inl w | RecvRaise e => _ end).
  destruct recvd as [msg|e]; [|split; [apply grows_refl|done]].
  destruct (bool_decide (control = Some conn)) eqn:Hc.
  - apply bool_decide_eq_true in Hc.
    assert (conn = ctl) as -> by (destruct Hctl; congruence).
    pose proof (grows_conn_send (to_control ctl) ctl msg st) as H.
    destruct (conn_send ctl msg st) as [[e|] st1]; simpl in *.
    + split; [|done]. apply H. by intros r0 c w r' [= <- _ _].
    + assert (grows (to_control ctl) st st1) as H1
        by (apply H; by intros r0 c w r' [= <- _ _]).
      destruct msg; simpl; (split; [done|]); intros ???; intros [= <- _ _];
        auto.
  - destruct msg; simpl;
      (split; [first [by apply grows_log|by apply grows_frame]|]);
      intros ???; intros [= <- _ _]; done.
Qed.

Lemma read_ready_to_control ctl ready :
  ∀ control closed st,
    control = Some ctl ∨ control = None →
    grows (to_control ctl) st
      (res_state (λ x, x.2) (read_ready ready control closed st)) ∧
    ∀ control' closed' st',
      read_ready ready control closed st = Ok (control', closed', st') →
      control' = Some ctl ∨ control' = None.
Proof.
  induction ready as [|[conn r] ready IH]; intros control closed st Hctl; simpl.
  - split; [apply grows_refl|]. by intros ??? [= <- _ _].
  - destruct (read_one_to_control ctl conn r control closed st Hctl)
      as [H1 H2].
    destruct (read_one conn r control closed st)
      as [[[control1 closed1] st1]| |]; [|by split..].
    specialize (H2 _ _ _ eq_refl).
    destruct (IH control1 closed1 st1 H2) as [H3 H4].
    split; [by eapply grows_trans|done].
Qed.

Lemma to_control_echo_or_payload ctl ev :
  to_control ctl ev → echo_or_payload ctl ev.
Proof. intros H c w r Hev. left. by eapply H. Qed.

Lemma payload_only_echo_or_payload ctl ev :
  payload_only ev → echo_or_payload ctl ev.
Proof. intros H c w r Hev. right. by eapply H. Qed.

(** The main loop: a send goes to the control connection or carries a
    payload, however the loop ends. *)
Lemma main_loop_sends control rounds :
  ∀ st, grows (echo_or_payload control) st
          (res_state id (main_loop control rounds st)).
Proof.
  induction rounds as [|rd rounds IH]; intros st; cbn [main_loop].
  - destruct (bool_decide _); apply grows_refl.
  - set (st0 := set_clients _ st).
    assert (grows (echo_or_payload control) st st0) as H0
      by (by apply grows_frame).
    destruct (bool_decide (_clients st0 = ∅)); [done|].
    destruct (read_ready_to_control control
                (filter (λ cr, cr.1 ∈ _clients st0) (ready rd))
                (Some control) ∅ st0) as [H1 H2]; [by left|].
    apply (grows_weaken _ _ _ _ (to_control_echo_or_payload control)) in H1.
    destruct (read_ready _ (Some control) ∅ st0)
      as [[[control1 closed1] st1]| |]; cbn [res_state snd id] in *;
      [|exact (grows_trans _ _ _ _ H0 H1)..].
    pose proof (grows_trans _ _ _ _ H0 H1) as H01.
    destruct control1 as [control1|]; [|done].
    destruct (H2 _ _ _ eq_refl) as [[= ->]|?]; [|done].
    set (st2 := set_clients _ (set_clients _ st1)).
    assert (grows (echo_or_payload control) st st2) as H3.
    { eapply grows_trans; [exact H01|]. by apply grows_frame. }
    pose proof (_send_payload control (joined_during_send rd) st2) as H4.
    apply (grows_weaken _ _ _ _ (payload_only_echo_or_payload control)) in H4.
    destruct (_send control (joined_during_send rd) st2) as [st3| |];
      cbn [res_state id] in *; [|exact (grows_trans _ _ _ _ H3 H4)..].
    eapply grows_trans; [|apply IH]. exact (grows_trans _ _ _ _ H3 H4).
Qed.

#[local] Transparent conn_send.

End EchoFacts.

Section EchoTheorems.
Import Broker BrokerSpec.

Lemma close_all_closes Q st :
  (∀ c, Q (EvClose c)) → grows Q st (close_all st).
Proof.
  intros HQ. unfold close_all.
  assert (∀ l st0, grows Q st0 (foldl (λ st c, log (EvClose c) st) st0 l))
    as Hfold.
  { induction l as [|c l IH]; intros st0; simpl; [apply grows_refl|].
    eapply grows_trans; [|apply IH]. by apply grows_log. }
  destruct (Hfold (elements (_clients st)) st) as (evs & Hev & HF).
  by exists evs.
Qed.

(** The whole forwarder thread, from a start-up that found the control
    connection. *)
Lemma broker_sends accepted rounds st control st1 :
  _get_control_conn accepted st = Ok (control, st1) →
  grows handshake_echo st st1 ∧
  grows (echo_or_payload control) st1
    (res_state id (_broker accepted rounds st)).
Proof.
  intros Hg. split.
  - pose proof (get_control_conn_handshake accepted st) as H.
    by rewrite Hg in H.
  - unfold _broker. rewrite Hg.
    pose proof (main_loop_sends control rounds st1) as H.
    destruct (main_loop control rounds st1) as [st2| |]; [|done..].
    simpl in *. eapply grows_trans; [done|].
    apply close_all_closes. by intros c c' w r.
Qed.

(** C5, as stated, fails on the control connection: a broker that is
    told to stop right after its start echoes the STOP it received on
    the control connection (the acceptor waits for that echo). *)
Lemma stop_on_control_is_echoed :
  ∃ st',
    _broker [(0, Recv INIT)] [Examples.stop_round] (init (λ _, [])) = Ok st' ∧
    events st' = [EvSend 0 INIT None; EvSend 0 STOP None; EvClose 0].
Proof. eexists. split; [vm_compute; reflexivity|]. reflexivity. Qed.

(** C5, amended.  In the start-up of the forwarder, INIT and NEWPUBSUB
    are echoed to the connection they came from, and nothing else is
    sent: a connection that says STOP there gets no echo.  In the main
    loop, whatever arrives on the control connection -- NEWCONN, and
    STOP as well -- is echoed on it; a STOP from any other connection
    closes that connection and nothing is sent.  Over a whole run of
    the forwarder, every STOP the broker sends goes to the control
    connection. *)
Theorem stop_echo_policy :
  (∀ conn rest st,
     ∃ r, events (res_state snd
                    (_get_control_conn ((conn, Recv INIT) :: rest) st)) =
          events st ++ [EvSend conn INIT r]) ∧
  (∀ conn rest st,
     ∃ r evs, events (res_state snd
                        (_get_control_conn ((conn, Recv NEWPUBSUB) :: rest) st)) =
              events st ++ EvSend conn NEWPUBSUB r :: evs) ∧
  (∀ control w closed st,
     ∃ r, events (res_state (λ x, x.2)
                    (read_one control (Recv w) (Some control) closed st)) =
          events st ++ [EvSend control w r]) ∧
  (∀ conn control closed st,
     control ≠ Some conn →
     read_one conn (Recv STOP) control closed st =
     Ok (control, {[conn]} ∪ closed, log (EvClose conn) st)) ∧
  (∀ accepted rounds st control st1 evs,
     _get_control_conn accepted st = Ok (control, st1) →
     events (res_state id (_broker accepted rounds st)) = events st ++ evs →
     ∀ c r, EvSend c STOP r ∈ evs → c = control).
Proof.
  split; [|split; [|split; [|split]]].
  - intros conn rest st. simpl.
    destruct (match send_results st conn with [] => None | r :: _ => r end)
      as [e|]; by eexists.
  - intros conn rest st. unfold NEWPUBSUB. cbn [_get_control_conn].
    set (st0 := set_clients _ st).
    destruct (conn_send_frame conn WEllipsis st0) as (_ & Hev & _).
    destruct (conn_send conn WEllipsis st0) as [[e|] st1]; simpl in Hev.
    + exists (Some e), []. done.
    + destruct (get_control_conn_handshake rest st1) as (evs & Hevs & _).
      exists None, evs. cbn [fst snd]. rewrite Hevs, Hev.
      by rewrite <- app_assoc.
  - intros control w closed st. unfold read_one.
    rewrite bool_decide_eq_true_2 by done.
    destruct (conn_send_frame control w st) as (_ & Hev & _).
    destruct (conn_send control w st) as [[e|] st1]; simpl in Hev.
    + by exists (Some e).
    + exists None. by destruct w.
  - intros conn control closed st Hne. unfold read_one.
    by rewrite bool_decide_eq_false_2.
  - intros accepted rounds st control st1 evs Hg Hev c r Hin.
    destruct (broker_sends accepted rounds st control st1 Hg)
      as [(evs1 & H1 & Q1) (evs2 & H2 & Q2)].
    rewrite H2, H1, <- app_assoc in Hev. apply app_inv_head in Hev as <-.
    apply elem_of_app in Hin as [Hin|Hin].
    + rewrite Forall_forall in Q1.
      destruct (Q1 _ Hin c STOP r eq_refl); discriminate.
    + rewrite Forall_forall in Q2.
      destruct (Q2 _ Hin c STOP r eq_refl) as [?|[m ?]]; [done|discriminate].
Qed.

Lemma stop_echo_policy_witness :
  read_one 1 (Recv STOP) (Some 0) ∅ (init (λ _, [])) =
    Ok (Some 0, {[1]} ∪ ∅, log (EvClose 1) (init (λ _, []))) ∧
  ∃ st',
    _broker [(0, Recv INIT)] Examples.client_rounds (init (λ _, [])) = Ok st' ∧
    ∀ c r, EvSend c STOP r ∈ events st' → c = 0.
Proof.
  destruct stop_echo_policy as (_ & _ & _ & H4 & H5).
  split.
  - apply H4. discriminate.
  - eexists. split; [vm_compute; reflexivity|].
    eapply (H5 [(0, Recv INIT)] Examples.client_rounds (init (λ _, []))).
    + reflexivity.
    + vm_compute. reflexivity.
Defined.

End EchoTheorems.

(* ===================================================================== *)
(** ** What every run of the endpoint keeps *)
(* ===================================================================== *)

Section ExecRelation.
Import Endpoint Spec MoreSpec.

Variable impl : SubId → Subscriber.

(** A relation between the state before and after, kept by each
    primitive change the methods make. *)
Variable R : State → State → Prop.

Hypothesis R_refl : ∀ st, R st st.
Hypothesis R_trans : ∀ st1 st2 st3, R st1 st2 → R st2 st3 → R st1 st3.
Hypothesis R_add : ∀ topic s st, R st (add_subscriber topic s st).
Hypothesis R_remove : ∀ topic s st, R st (remove_subscriber topic s st).
Hypothesis R_clear : ∀ st, R st (clear_subscribers st).
Hypothesis R_call : ∀ st ref sub orig kw,
  resolve st ref = Some sub → R st (log (EvCall sub orig kw) st).
Hypothesis R_warn : ∀ st sub, R st (log (EvWarn sub) st).
Hypothesis R_enqueue : ∀ st topic kw,
  is_Some (_conn st) → is_local topic = false → R st (enqueue topic kw st).
Hypothesis R_flush : ∀ st st',
  is_Some (_conn st) → _flushing st = false →
  R (set_flushing true st) st' →
  R st st' ∧ R st (set_flushing false st').
Hypothesis R_recv : ∀ st, is_Some (_conn st) → R st (_recv_all st).
Hypothesis R_try : ∀ st,
  is_Some (_conn st) →
  match try_send st with
  | TryNext st' | TryBreak st' | TryRaise _ st' => R st st'
  end.
Hypothesis R_pop : ∀ st m rest,
  _pending_publish st = m :: rest → R st (set_pending_publish rest st).

Lemma related_seq st st1 r : R st st1 → related R st1 r → related R st r.
Proof. intros H1. destruct r; simpl; eauto. Qed.

Lemma recv_all_connected st :
  is_Some (_conn st) → is_Some (_conn (_recv_all st)).
Proof.
  intros [c Hc]. unfold _recv_all. rewrite Hc.
  destruct (recv_loop _ _). by eexists.
Qed.

Section Level.

Variable rec : Call → State → Res.
Hypothesis rec_related : ∀ c st, related R st (rec c st).

Lemma rec_related_after st st1 c : R st st1 → related R st (rec c st1).
Proof. intros H. eapply related_seq; [done|]. apply rec_related. Qed.

Lemma run_related acts st : related R st (run rec acts st).
Proof.
  revert st. induction acts as [|a acts IH]; intros st; simpl; [apply R_refl|].
  destruct a as [topic s|topic s| |topic kw|e]; simpl.
  - eapply related_seq; [apply R_add|apply IH].
  - eapply related_seq; [apply R_remove|apply IH].
  - eapply related_seq; [apply R_clear|apply IH].
  - pose proof (rec_related (CPublish topic kw) st) as H1.
    pose proof (rec_related (CNetPublish topic kw) st) as H2.
    destruct (cls st).
    + destruct (rec (CPublish topic kw) st) as [st'| |]; [|done..].
      eapply related_seq; [done|apply IH].
    + destruct (rec (CNetPublish topic kw) st) as [st'| |]; [|done..].
      eapply related_seq; [done|apply IH].
  - apply R_refl.
Qed.

Lemma step_related c st : related R st (step impl rec c st).
Proof.
  destruct c as [topic kw|topic orig kw|loc i orig kw|s orig kw
                 |topic kw| | |]; simpl.
  - unfold publish. destruct topic; [apply R_refl|apply rec_related..].
  - unfold publish_while.
    assert (related R st
              match _subs st !! topic with
              | Some loc => rec (CPublishFor loc 0 orig kw) st
              | None => Ok st
              end) as H.
    { destruct (_subs st !! topic); [apply rec_related|apply R_refl]. }
    destruct (match _subs st !! topic with Some _ => _ | None => _ end)
      as [st'| |]; [|done..].
    destruct (bool_decide (topic = [])); [done|]. by apply rec_related_after.
  - unfold publish_for.
    destruct (heap_list st loc !! i) as [ref|]; [|apply R_refl].
    destruct (resolve st ref) as [sub|] eqn:Hsub; [|apply rec_related].
    pose proof (rec_related_after st _ (CSubscriber sub orig kw)
                  (R_call st ref sub orig kw Hsub)) as H.
    destruct (rec (CSubscriber sub orig kw) _) as [st'|e st'|]; [| |done].
    + by apply rec_related_after.
    + destruct (isinstance e TypeError); [|done].
      apply rec_related_after. eapply R_trans; [exact H|apply R_warn].
  - unfold call_subscriber. destruct (accepts (impl s) kw).
    + apply run_related.
    + apply R_refl.
  - unfold net_publish.
    destruct (negb (bool_decide (is_Some (_conn st))) || is_local topic)
      eqn:Hloc; [apply rec_related|].
    apply orb_false_elim in Hloc as [Hconn Hloc].
    apply negb_false_iff, bool_decide_eq_true in Hconn.
    pose proof (R_enqueue st topic kw Hconn Hloc) as Hq.
    change (set_pending_send _ _) with (enqueue topic kw st).
    destruct (_flushing (enqueue topic kw st)); [done|].
    by apply rec_related_after.
  - unfold _flush. destruct (_conn st) as [c|] eqn:Hc; [|apply R_refl].
    destruct (_flushing st) eqn:Hf; [apply R_refl|].
    pose proof (rec_related CFlushWhile (set_flushing true st)) as H.
    assert (is_Some (_conn st)) as Hsome by (by rewrite Hc).
    destruct (rec CFlushWhile _) as [st'|e st'|]; [| |done]; simpl in *;
      by destruct (R_flush st st' Hsome Hf H).
  - unfold flush_while. destruct (flush_cond st) eqn:Hcond; [|apply R_refl].
    assert (is_Some (_conn st)) as Hsome.
    { unfold flush_cond in Hcond. apply andb_true_iff in Hcond as [_ H].
      by apply bool_decide_eq_true in H. }
    pose proof (R_recv st Hsome) as Hr.
    pose proof (R_try (_recv_all st) (recv_all_connected st Hsome)) as Ht.
    destruct (try_send (_recv_all st)) as [st1|st1|e st1]; simpl;
      [|by eapply R_trans..].
    assert (R st st1) as H1 by (by eapply R_trans).
    pose proof (rec_related_after st st1 CDrain H1) as Hd.
    destruct (rec CDrain st1) as [st2| |]; [|done..].
    by apply rec_related_after.
  - unfold drain. destruct (_pending_publish st) as [|[topic kw] rest] eqn:Hq;
      [apply R_refl|].
    pose proof (rec_related_after st _ (CPublish topic kw)
                  (R_pop st (topic, kw) rest Hq)) as H.
    destruct (rec (CPublish topic kw) _) as [st'| |]; [|done..].
    by apply rec_related_after.
Qed.

End Level.

(** Every run of every method keeps the relation, whether it returns or
    raises. *)
Lemma exec_related fuel c st : related R st (exec impl fuel c st).
Proof.
  revert c st. induction fuel as [|fuel IH]; intros c st; [done|].
  by apply step_related.
Qed.

End ExecRelation.

Section RunInvariants.
Import Endpoint Spec MoreSpec Examples MoreExamples.

Lemma recv_all_fields st :
  cls (_recv_all st) = cls st ∧ _subs (_recv_all st) = _subs st ∧
  heap (_recv_all st) = heap st ∧ collected (_recv_all st) = collected st ∧
  _flushing (_recv_all st) = _flushing st ∧
  _pending_send (_recv_all st) = _pending_send st ∧
  events (_recv_all st) = events st.
Proof.
  unfold _recv_all. destruct (_conn st); [|done]. by destruct (recv_loop _ _).
Qed.

Lemma try_send_fields st :
  match try_send st with
  | TryNext st' | TryBreak st' | TryRaise _ st' =>
      cls st' = cls st ∧ _subs st' = _subs st ∧ heap st' = heap st ∧
      collected st' = collected st ∧ _flushing st' = _flushing st ∧
      _pending_publish st' = _pending_publish st ∧
      ∃ evs, events st' = events st ++ evs ∧
             ∀ s orig kw, EvCall s orig kw ∉ evs
  end.
Proof.
  assert (Hnil : ∀ s orig kw, EvCall s orig kw ∉ []) by (intros ??? H; by apply elem_of_nil in H).
  assert (Hone : ∀ ev, (∀ s orig kw, ev ≠ EvCall s orig kw) →
                       ∀ s orig kw, EvCall s orig kw ∉ [ev]).
  { intros ev Hev s orig kw H. apply list_elem_of_singleton in H.
    by destruct (Hev s orig kw). }
  unfold try_send.
  destruct (_pending_send st) as [|msg rest].
  { repeat split; try done. exists []. by rewrite app_nil_r. }
  destruct (_conn st) as [c|].
  2:{ repeat split; try done. exists []. by rewrite app_nil_r. }
  destruct (conn_send c) as [[e|] c'].
  - destruct (isinstance e IndexError).
    { repeat split; try done. exists []. by rewrite app_nil_r. }
    destruct (isinstance e ValueError).
    { repeat split; try done. exists [EvLogError]. split; [done|]. by apply Hone. }
    destruct (isinstance e ConnectionResetError).
    { repeat split; try done. exists [EvClosed]. split; [done|]. by apply Hone. }
    repeat split; try done. exists []. by rewrite app_nil_r.
  - repeat split; try done. exists [EvSent msg]. split; [done|]. by apply Hone.
Qed.

Lemma remove_subscriber_fields topic s st :
  cls (remove_subscriber topic s st) = cls st ∧
  _subs (remove_subscriber topic s st) = _subs st ∧
  length (heap (remove_subscriber topic s st)) = length (heap st) ∧
  collected (remove_subscriber topic s st) = collected st ∧
  _conn (remove_subscriber topic s st) = _conn st ∧
  _flushing (remove_subscriber topic s st) = _flushing st ∧
  _pending_send (remove_subscriber topic s st) = _pending_send st ∧
  _pending_publish (remove_subscriber topic s st) = _pending_publish st ∧
  events (remove_subscriber topic s st) = events st.
Proof.
  unfold remove_subscriber. destruct (_subs st !! as_tuple topic); [|done].
  destruct (find_ref _ _ _); [|done]. simpl. by rewrite length_alter.
Qed.

Lemma add_subscriber_fields topic s st :
  cls (add_subscriber topic s st) = cls st ∧
  collected (add_subscriber topic s st) = collected st ∧
  _conn (add_subscriber topic s st) = _conn st ∧
  _flushing (add_subscriber topic s st) = _flushing st ∧
  _pending_send (add_subscriber topic s st) = _pending_send st ∧
  _pending_publish (add_subscriber topic s st) = _pending_publish st ∧
  events (add_subscriber topic s st) = events st.
Proof.
  unfold add_subscriber. destruct (_subs st !! as_tuple topic) eqn:Hk.
  - by rewrite Hk.
  - simpl. by rewrite lookup_insert_eq.
Qed.







Lemma remove_subscriber_wf topic s st :
  table_wf st → table_wf (remove_subscriber topic s st).
Proof.
  intros Hwf p loc Hp.
  destruct (remove_subscriber_fields topic s st) as (_ & Hs & Hl & _).
  rewrite Hs in Hp. destruct (Hwf p loc Hp) as [Hlt Hinj].
  split; [by rewrite Hl|]. intros p' Hp'. rewrite Hs in Hp'. by apply Hinj.
Qed.

Lemma table_wf_frame st st' :
  _subs st' = _subs st → heap st' = heap st → table_wf st → table_wf st'.
Proof. intros Hs Hh Hwf p loc. rewrite Hs, Hh. apply Hwf. Qed.

(** X2.  The table stays well formed -- every key has a list object, and
    no two keys share one -- through every run of every method,
    whatever the subscribers do to the table meanwhile. *)
Theorem table_stays_well_formed (impl : SubId → Subscriber) (fuel : nat)
    (c : Call) (st st' : State) :
  table_wf st →
  final (exec impl fuel c st) = Some st' →
  table_wf st'.
Proof.
  intros Hwf Hfinal.
  pose proof (exec_related impl (λ st st', table_wf st → table_wf st')) as H.
  assert (related (λ st st', table_wf st → table_wf st') st
            (exec impl fuel c st)) as Hr.
  { apply H; clear H.
    - by intros st0 ?.
    - by eauto.
    - intros topic s st0. apply add_subscriber_spec.
    - intros topic s st0. apply remove_subscriber_wf.
    - intros st0 _ p loc Hp. simpl in Hp. by rewrite lookup_empty in Hp.
    - by intros st0 ref sub orig kw _ ?.
    - by intros st0 sub ?.
    - by intros st0 topic kw _ _ ?.
    - intros st0 st1 _ _ H1. split; intros Hw; by apply H1.
    - intros st0 _.
      destruct (recv_all_fields st0) as (_ & ? & ? & _).
      by apply table_wf_frame.
    - intros st0 _. pose proof (try_send_fields st0) as Ht.
      destruct (try_send st0) as [st1|st1|e st1];
        destruct Ht as (_ & ? & ? & _); by apply table_wf_frame.
    - by intros st0 m rest _ ?. }
  destruct (exec impl fuel c st); simpl in *; [| |done];
    injection Hfinal as <-; by apply Hr.
Qed.

Lemma table_stays_well_formed_witness :
  ∃ st',
    final (exec impl_ex 10 (CPublish (TTuple ["a"]) []) st_unsub) = Some st' ∧
    table_wf st'.
Proof.
  eexists. split; [vm_compute; reflexivity|].
  apply (table_stays_well_formed impl_ex 10 (CPublish (TTuple ["a"]) [])
           st_unsub).
  - unfold st_unsub. apply add_subscriber_spec, add_subscriber_spec, init_wf.
  - vm_compute. reflexivity.
Defined.

Lemma sent_snoc evs ev :
  (∀ m, ev ≠ EvSent m) → sent (evs ++ [ev]) = sent evs.
Proof.
  intros H. rewrite sent_app. destruct ev; simpl; try by rewrite app_nil_r.
  by destruct (H m).
Qed.

(** Through every run an endpoint without a connection stays without,
    queues nothing for the broker and sends nothing. *)
Lemma exec_stays_offline impl fuel c st :
  related stays_offline st (exec impl fuel c st).
Proof.
  apply exec_related.
  - by intros st0 ?.
  - intros st1 st2 st3 H1 H2 Hc. destruct (H1 Hc) as (Hc2 & Hq2 & Hs2).
    destruct (H2 Hc2) as (Hc3 & Hq3 & Hs3). split; [done|]. split; congruence.
  - intros topic s st0 Hc.
    destruct (add_subscriber_fields topic s st0)
      as (_ & _ & -> & _ & -> & _ & ->). done.
  - intros topic s st0 Hc.
    destruct (remove_subscriber_fields topic s st0)
      as (_ & _ & _ & _ & -> & _ & -> & _ & ->). done.
  - by intros st0 Hc.
  - intros st0 ref sub orig kw _ Hc. split; [done|]. split; [done|].
    simpl. by apply sent_snoc.
  - intros st0 sub Hc. split; [done|]. split; [done|].
    simpl. by apply sent_snoc.
  - intros st0 topic kw [c0 Hc0] _ Hc. congruence.
  - intros st0 st1 [c0 Hc0] _ _. split; intros Hc; congruence.
  - intros st0 [c0 Hc0] Hc. congruence.
  - intros st0 [c0 Hc0].
    destruct (try_send st0); intros Hc; congruence.
  - intros st0 m rest _ Hc. done.
Qed.

(** X3.  An endpoint without a connection stays without one, queues
    nothing for the broker and sends nothing, through every run of
    every method: its publications are local, whatever its subscribers
    publish in turn. *)
Theorem offline_stays_local (impl : SubId → Subscriber) (fuel : nat)
    (c : Call) (st st' : State) :
  _conn st = None →
  final (exec impl fuel c st) = Some st' →
  _conn st' = None ∧
  _pending_send st' = _pending_send st ∧
  sent (events st') = sent (events st).
Proof.
  intros Hoff Hfinal.
  pose proof (exec_stays_offline impl fuel c st) as Hr.
  destruct (exec impl fuel c st); simpl in *; [| |done];
    injection Hfinal as <-; by apply Hr.
Qed.

Lemma offline_stays_local_witness :
  ∃ st',
    final (exec impl_ex 20 (CNetPublish (TTuple ["a"; "b"]) []) st_offline)
      = Some st' ∧
    invocations (events st') =
      [(8, ["a"; "b"], []); (6, ["n"], []); (6, ["a"; "b"], [])] ∧
    _conn st' = None ∧
    _pending_send st' = _pending_send st_offline ∧
    sent (events st') = sent (events st_offline).
Proof.
  eexists. split; [vm_compute; reflexivity|]. split; [reflexivity|].
  apply (offline_stays_local impl_ex 20 (CNetPublish (TTuple ["a"; "b"]) [])
           st_offline).
  - reflexivity.
  - vm_compute. reflexivity.
Defined.

Lemma flag_kept_or_stuck_frame st st' :
  _flushing st' = _flushing st → flag_kept_or_stuck st st'.
Proof. intros H. by right. Qed.

(** Through every run the flushing flag is as it was or is left set. *)
Lemma exec_flag impl fuel c st :
  related flag_kept_or_stuck st (exec impl fuel c st).
Proof.
  apply exec_related.
  - intros st0. by right.
  - intros st1 st2 st3 [H1|H1] [H2|H2]; unfold flag_kept_or_stuck;
      [by left|rewrite H2; by left|by left|right; congruence].
  - intros topic s st0. apply flag_kept_or_stuck_frame.
    by destruct (add_subscriber_fields topic s st0) as (_ & _ & _ & ? & _).
  - intros topic s st0. apply flag_kept_or_stuck_frame.
    by destruct (remove_subscriber_fields topic s st0)
      as (_ & _ & _ & _ & _ & ? & _).
  - intros st0. by right.
  - intros. by right.
  - intros. by right.
  - intros. by right.
  - intros st0 st1 _ Hf [H|H]; simpl in H.
    + split; [by left|]. right. by rewrite Hf.
    + split; [by left|]. right. by rewrite Hf.
  - intros st0 _. apply flag_kept_or_stuck_frame.
    by destruct (recv_all_fields st0) as (_ & _ & _ & _ & ? & _).
  - intros st0 _. pose proof (try_send_fields st0) as Ht.
    destruct (try_send st0); destruct Ht as (_ & _ & _ & _ & ? & _);
      by apply flag_kept_or_stuck_frame.
  - intros. by right.
Qed.

(** X4.  _flush does not reset its flag on the way out of an exception.
    When publish on a connected endpoint that is not flushing raises --
    a subscriber raised something that is not a TypeError, say -- the
    endpoint is left flushing; from then on a publish of a topic that
    is not local-only, while the endpoint stays connected, only appends
    to the two queues: nothing is dispatched and nothing is sent. *)
Theorem flush_exception_leaves_flag_set (impl : SubId → Subscriber)
    (fuel : nat) (st st' : State) (topic : Topic) (kw : Kwargs) (e : Exn) :
  is_Some (_conn st) →
  _flushing st = false →
  is_local topic = false →
  exec impl fuel (CNetPublish topic kw) st = Raise e st' →
  _flushing st' = true ∧
  ∀ fuel' topic' kw',
    is_Some (_conn st') →
    is_local topic' = false →
    exec impl (S fuel') (CNetPublish topic' kw') st' =
    Ok (enqueue topic' kw' st').
Proof.
  intros Hconn Hfl Hloc Hrun.
  assert (_flushing st' = true) as Hstuck.
  { destruct fuel as [|fuel]; [done|]. rewrite exec_S in Hrun. simpl in Hrun.
    unfold net_publish in Hrun.
    rewrite Hloc, bool_decide_eq_true_2 in Hrun by done. simpl in Hrun.
    rewrite Hfl in Hrun.
    destruct fuel as [|fuel]; [done|]. rewrite exec_S in Hrun. simpl in Hrun.
    unfold _flush in Hrun. simpl in Hrun.
    destruct Hconn as [c0 Hc0]. rewrite Hc0, Hfl in Hrun.
    set (st1 := set_flushing true _) in Hrun.
    pose proof (exec_flag impl fuel CFlushWhile st1) as Hflag.
    destruct (exec impl fuel CFlushWhile st1) as [st2|e2 st2|]; [done| |done].
    injection Hrun as -> ->. by destruct Hflag. }
  split; [done|].
  intros fuel' topic' kw' Hconn' Hloc'. rewrite exec_S. simpl.
  unfold net_publish. rewrite Hloc', bool_decide_eq_true_2 by done. simpl.
  by rewrite Hstuck.
Qed.

Lemma flush_exception_leaves_flag_set_witness :
  ∃ st',
    exec impl_ex 20 (CNetPublish (TTuple ["a"]) []) st_fragile =
      Raise ValueError st' ∧
    _flushing st' = true ∧
    ∀ fuel' topic' kw',
      is_Some (_conn st') →
      is_local topic' = false →
      exec impl_ex (S fuel') (CNetPublish topic' kw') st' =
      Ok (enqueue topic' kw' st').
Proof.
  eexists. split; [vm_compute; reflexivity|].
  apply (flush_exception_leaves_flag_set impl_ex 20 st_fragile _
           (TTuple ["a"]) [] ValueError).
  - by eexists.
  - reflexivity.
  - reflexivity.
  - vm_compute. reflexivity.
Defined.

End RunInvariants.

(* ===================================================================== *)
(** ** The subscription table: removing, clearing *)
(* ===================================================================== *)

Section TableTheorems.
Import Endpoint Spec MoreSpec Examples MoreExamples.

Lemma st_tree_wf : table_wf st_tree.
Proof. unfold st_tree. repeat apply add_subscriber_spec. apply init_wf. Qed.

Lemma targets_ext st st' (t : list string) :
  (∀ p, subs_at st' p = subs_at st p) → targets st' t = targets st t.
Proof. intros H. unfold targets. by apply flat_map_ext. Qed.

(** X5.  Subscribing and unsubscribing again is a round trip: for a live
    subscriber that was not yet subscribed under the key, every key
    holds after add_subscriber then remove_subscriber the references it
    held before, so every publication reaches the same subscribers in
    the same order. *)
Theorem add_then_remove_restores (topic : Topic) (s : SubId) (st : State) :
  table_wf st →
  s ∉ collected st →
  s ∉ subs_at st (as_tuple topic) →
  (∀ p, subs_at (remove_subscriber topic s (add_subscriber topic s st)) p =
        subs_at st p) ∧
  (∀ t, targets (remove_subscriber topic s (add_subscriber topic s st)) t =
        targets st t) ∧
  collected (remove_subscriber topic s (add_subscriber topic s st)) =
    collected st.
Proof.
  intros Hwf Hlive Hfresh.
  destruct (add_subscriber_spec topic s st Hwf) as (Hwf1 & Hc1 & Hs1).
  destruct (remove_subscriber_spec topic s _ Hwf1) as (Hwf2 & Hc2 & Hs2).
  { by rewrite Hc1. }
  assert (Hall : ∀ p, subs_at (remove_subscriber topic s
                                 (add_subscriber topic s st)) p = subs_at st p).
  { intros p. rewrite Hs2, Hs1.
    destruct (decide (p = as_tuple topic)) as [->|]; [|by rewrite app_nil_r].
    rewrite list_remove_first_app by done. simpl.
    rewrite decide_True by done. by rewrite app_nil_r. }
  split; [done|]. split; [|congruence].
  intros t. by apply targets_ext.
Qed.

Lemma add_then_remove_restores_witness :
  (∀ p, subs_at (remove_subscriber (TStr "a") 1
                   (add_subscriber (TStr "a") 1 st_tree)) p =
        subs_at st_tree p) ∧
  (∀ t, targets (remove_subscriber (TStr "a") 1
                   (add_subscriber (TStr "a") 1 st_tree)) t =
        targets st_tree t) ∧
  collected (remove_subscriber (TStr "a") 1
               (add_subscriber (TStr "a") 1 st_tree)) =
    collected st_tree.
Proof.
  apply (add_then_remove_restores (TStr "a") 1 st_tree).
  - exact st_tree_wf.
  - vm_compute. discriminate.
  - replace (subs_at st_tree (as_tuple (TStr "a"))) with [3; 2]
      by (vm_compute; reflexivity).
    intros H. not_member H.
Defined.

Lemma find_ref_none st s (l : list nat) :
  s ∈ collected st ∨ s ∉ l → find_ref st s l = None.
Proof.
  intros H. induction l as [|r l IH]; [done|]. simpl. unfold resolve.
  assert (s ∈ collected st ∨ s ∉ l) as H'.
  { destruct H as [?|H]; [by left|]. right. intros ?. apply H.
    by apply elem_of_cons; right. }
  destruct (decide (r ∈ collected st)) as [Hr|Hr]; [by apply IH|].
  destruct (decide (r = s)) as [->|Hne]; [|by apply IH].
  destruct H as [?|H]; [done|]. destruct H. by apply elem_of_cons; left.
Qed.

(** X6.  remove_subscriber returns silently and leaves the object as it
    is when there is nothing to remove: the topic has no entry, the
    subscriber is not subscribed under it, or it was collected (a
    reference whose referent is gone is never matched, so it stays in
    its list). *)
Theorem remove_absent_is_noop (topic : Topic) (s : SubId) (st : State) :
  s ∈ collected st ∨ s ∉ subs_at st (as_tuple topic) →
  remove_subscriber topic s st = st.
Proof.
  intros H. unfold remove_subscriber, subs_at in *.
  destruct (_subs st !! as_tuple topic) as [loc|]; [|done].
  by rewrite find_ref_none.
Qed.

Lemma remove_absent_is_noop_witness :
  remove_subscriber (TTuple ["x"; "y"]) 9 st_tree = st_tree ∧
  remove_subscriber (TStr "a") 9 st_tree = st_tree ∧
  remove_subscriber (TStr "a") 2 st_dead = st_dead.
Proof.
  split; [|split].
  - apply (remove_absent_is_noop (TTuple ["x"; "y"]) 9 st_tree).
    right. vm_compute. intros H. by apply elem_of_nil in H.
  - apply (remove_absent_is_noop (TStr "a") 9 st_tree).
    right. replace (subs_at st_tree (as_tuple (TStr "a"))) with [3; 2]
      by (vm_compute; reflexivity).
    intros H. not_member H.
  - apply (remove_absent_is_noop (TStr "a") 2 st_dead).
    left. vm_compute. reflexivity.
Defined.

Lemma list_remove_first_split s (l : list nat) :
  s ∈ l →
  ∃ l1 l2, l = l1 ++ s :: l2 ∧ (s ∉ l1) ∧ list_remove_first s l = l1 ++ l2.
Proof.
  induction l as [|r l IH]; [by intros ?%elem_of_nil|]. intros Hin. simpl.
  destruct (decide (r = s)) as [->|Hne].
  - exists [], l. split; [done|]. split; [|done]. by intros ?%elem_of_nil.
  - apply elem_of_cons in Hin as [?|Hin]; [congruence|].
    destruct (IH Hin) as (l1 & l2 & -> & Hl1 & ->).
    exists (r :: l1), l2. split; [done|]. split; [|done].
    intros [?|?]%elem_of_cons; [congruence|done].
Qed.

(** X7.  remove_subscriber removes one reference and no more: for a live
    subscriber subscribed under the key, the first reference to it
    leaves the list of that key, the references before and after it
    keep their places, and the lists of all other keys are as they
    were. *)
Theorem remove_drops_first_reference (topic : Topic) (s : SubId)
    (st : State) :
  table_wf st →
  s ∉ collected st →
  s ∈ subs_at st (as_tuple topic) →
  ∃ l1 l2,
    subs_at st (as_tuple topic) = l1 ++ s :: l2 ∧
    (s ∉ l1) ∧
    subs_at (remove_subscriber topic s st) (as_tuple topic) = l1 ++ l2 ∧
    ∀ p, p ≠ as_tuple topic →
         subs_at (remove_subscriber topic s st) p = subs_at st p.
Proof.
  intros Hwf Hlive Hin.
  destruct (remove_subscriber_spec topic s st Hwf Hlive) as (_ & _ & Hs).
  destruct (list_remove_first_split s _ Hin) as (l1 & l2 & Hl & Hl1 & Hrm).
  exists l1, l2. split; [done|]. split; [done|]. split.
  - rewrite Hs. by rewrite decide_True.
  - intros p Hp. rewrite Hs. by rewrite decide_False.
Qed.

Lemma remove_drops_first_reference_witness :
  ∃ l1 l2,
    subs_at st_tree ["a"] = l1 ++ 2 :: l2 ∧
    (2 ∉ l1) ∧
    subs_at (remove_subscriber (TStr "a") 2 st_tree) ["a"] = l1 ++ l2 ∧
    ∀ p, p ≠ ["a"] →
         subs_at (remove_subscriber (TStr "a") 2 st_tree) p = subs_at st_tree p.
Proof.
  apply (remove_drops_first_reference (TStr "a") 2 st_tree).
  - exact st_tree_wf.
  - vm_compute. discriminate.
  - replace (subs_at st_tree (as_tuple (TStr "a"))) with [3; 2]
      by (vm_compute; reflexivity).
    by right; left.
Defined.

Lemma targets_cleared st (t : list string) :
  targets (clear_subscribers st) t = [].
Proof.
  unfold targets. generalize (prefixes t). intros keys.
  induction keys as [|p keys IH]; [done|]. simpl. rewrite IH.
  unfold subs_at. simpl. by rewrite lookup_empty.
Qed.

(** X8.  After clear_subscribers no key holds a reference, and a
    publication on any topic returns with the object as it is: nobody
    is invoked, whoever the subscribers were. *)
Theorem clear_then_publish_reaches_nobody (impl : SubId → Subscriber)
    (st : State) (topic : Topic) (kw : Kwargs) (fuel : nat) :
  topic ≠ TNone →
  length (as_tuple topic) + 3 ≤ fuel →
  (∀ p, subs_at (clear_subscribers st) p = []) ∧
  exec impl fuel (CPublish topic kw) (clear_subscribers st) =
  Ok (clear_subscribers st).
Proof.
  intros Htopic Hfuel. split.
  - intros p. unfold subs_at. simpl. by rewrite lookup_empty.
  - rewrite publish_deliver; rewrite ?targets_cleared; simpl.
    + by rewrite append_events_nil.
    + done.
    + done.
    + unfold publish_fuel. rewrite targets_cleared. simpl. lia.
Qed.

Lemma clear_then_publish_reaches_nobody_witness :
  (∀ p, subs_at (clear_subscribers st_tree) p = []) ∧
  exec impl_ex 5 (CPublish (TTuple ["a"; "b"]) kw_hello)
    (clear_subscribers st_tree) =
  Ok (clear_subscribers st_tree).
Proof.
  apply (clear_then_publish_reaches_nobody impl_ex st_tree
           (TTuple ["a"; "b"]) kw_hello 5).
  - discriminate.
  - simpl. lia.
Defined.

End TableTheorems.

(* ===================================================================== *)
(** ** The network endpoint: a publication and a poll, end to end *)
(* ===================================================================== *)

Section FlushFacts.
Import Endpoint Spec MoreSpec Examples MoreExamples.

Variable impl : SubId → Subscriber.



End FlushFacts.

Section FlushTheorems.
Import Endpoint Spec MoreSpec Examples MoreExamples Lifecycle.






End FlushTheorems.
(* ===================================================================== *)
(** ** The network endpoint: connecting and disconnecting *)
(* ===================================================================== *)

Section LifecycleTheorems.
Import Endpoint Spec MoreSpec Examples MoreExamples Lifecycle.

(** X11.  connect succeeds only on an endpoint without connection, when
    the listener gave a connection, the greeting was sent and the
    answer was the NEWPUBSUB token; the endpoint then holds that
    connection, with its table, queues and record as they were; and
    from then on connect and set_broker raise RuntimeError. *)
Theorem connect_handshake (dial : string → string → Exn + Connection)
    (reply : Broker.RecvResult) (o o' : NetPubSub) :
  connect dial reply o = inr o' →
  _conn (endpoint o) = None ∧
  reply = Broker.Recv Broker.NEWPUBSUB ∧
  (∃ conn, dial (_address o) (_authkey o) = inr conn ∧
           (conn_send conn).1 = None ∧
           _conn (endpoint o') = Some (conn_send conn).2) ∧
  _subs (endpoint o') = _subs (endpoint o) ∧
  heap (endpoint o') = heap (endpoint o) ∧
  _pending_send (endpoint o') = _pending_send (endpoint o) ∧
  _pending_publish (endpoint o') = _pending_publish (endpoint o) ∧
  events (endpoint o') = events (endpoint o) ∧
  (∀ dial' reply', connect dial' reply' o' = inl RuntimeError) ∧
  (∀ key address authkey, set_broker key address authkey o' = inl RuntimeError).
Proof.
  unfold connect. intros H.
  destruct (_conn (endpoint o)) as [c0|] eqn:Hc0.
  { rewrite bool_decide_eq_true_2 in H by (by eexists). discriminate. }
  rewrite bool_decide_eq_false_2 in H by (intros [? ?]; discriminate).
  destruct (dial (_address o) (_authkey o)) as [e|conn] eqn:Hdial;
    [discriminate|].
  destruct (conn_send conn) as [[e|] conn'] eqn:Hsend; [discriminate|].
  destruct reply as [[| | | |m|tag]|e]; try discriminate.
  injection H as <-. cbn [endpoint _conn set_conn].
  split; [done|]. split; [done|].
  split; [exists conn; by rewrite Hsend|].
  do 5 (split; [done|]).
  split.
  - intros dial' reply'. unfold connect. cbn [endpoint _conn set_conn].
    by rewrite bool_decide_eq_true_2 by (by eexists).
  - intros key address authkey. unfold set_broker. cbn [endpoint _conn set_conn].
    by rewrite bool_decide_eq_true_2 by (by eexists).
Qed.

Lemma connect_handshake_witness :
  ∃ o',
    connect dial_idle (Broker.Recv Broker.NEWPUBSUB) o_offline = inr o' ∧
    is_Some (_conn (endpoint o')) ∧
    _subs (endpoint o') = _subs st_offline ∧
    connect dial_idle (Broker.Recv Broker.NEWPUBSUB) o' = inl RuntimeError.
Proof.
  eexists. split; [reflexivity|].
  destruct (connect_handshake dial_idle (Broker.Recv Broker.NEWPUBSUB)
              o_offline _ eq_refl)
    as (_ & _ & (conn & _ & _ & Hc) & Hsubs & _ & _ & _ & _ & Hagain & _).
  split; [by eexists|]. split; [exact Hsubs|]. apply Hagain.
Defined.

(** X12.  The broker that set_broker names is the one connect dials:
    after set_broker on an endpoint without connection, connect hands
    the listener the new address, with the key given -- or the key of
    the process when none, or an empty one, was given -- and raises
    what the listener raises; the endpoint itself is as it was. *)
Theorem set_broker_reaches_dial (process_authkey address : string)
    (authkey : option string) (o : NetPubSub)
    (dial : string → string → Exn + Connection) (reply : Broker.RecvResult)
    (key : string) (e : Exn) :
  _conn (endpoint o) = None →
  (authkey = Some key ∧ key ≠ "") ∨
  ((authkey = None ∨ authkey = Some "") ∧ key = process_authkey) →
  dial address key = inl e →
  ∃ o', set_broker process_authkey address authkey o = inr o' ∧
        endpoint o' = endpoint o ∧
        connect dial reply o' = inl e.
Proof.
  intros Hc Hkey Hdial. unfold set_broker.
  rewrite bool_decide_eq_false_2 by (rewrite Hc; intros [? ?]; discriminate).
  eexists. split; [reflexivity|]. split; [reflexivity|].
  unfold connect. cbn [endpoint _address _authkey].
  rewrite bool_decide_eq_false_2 by (rewrite Hc; intros [? ?]; discriminate).
  destruct Hkey as [[-> Hne]|[[->| ->] ->]].
  - rewrite bool_decide_eq_false_2 by done. by rewrite Hdial.
  - by rewrite Hdial.
  - rewrite bool_decide_eq_true_2 by done. by rewrite Hdial.
Qed.

Lemma set_broker_reaches_dial_witness :
  ∃ o',
    set_broker "process" "elsewhere" (Some "") o_offline = inr o' ∧
    endpoint o' = endpoint o_offline ∧
    connect (λ address key,
               if bool_decide (address = "elsewhere") &&
                  bool_decide (key = "process")
               then inl ConnectionError else inr conn_idle)
      (Broker.Recv Broker.NEWPUBSUB) o' = inl ConnectionError.
Proof.
  apply (set_broker_reaches_dial "process" "elsewhere" (Some "") o_offline
           _ _ "process" ConnectionError).
  - reflexivity.
  - right. split; [by right|reflexivity].
  - reflexivity.
Defined.

(** X13.  A disconnect that returns leaves the endpoint without
    connection: what was queued for the broker is dropped, what was
    queued for local dispatch stays, the table is untouched and the
    connection is closed; a second disconnect and a poll raise
    RuntimeError; and whatever runs on the endpoint afterwards sends no
    message. *)
Theorem disconnect_goes_offline (impl : SubId → Subscriber) (st st' : State) :
  disconnect st = Ok st' →
  _conn st' = None ∧
  _pending_send st' = [] ∧
  _pending_publish st' = _pending_publish st ∧
  _subs st' = _subs st ∧ heap st' = heap st ∧
  events st' = events st ++ [EvClosed] ∧
  disconnect st' = Raise RuntimeError st' ∧
  (∀ fuel, poll impl fuel st' = PollRaise RuntimeError st') ∧
  (∀ fuel c st'', final (exec impl fuel c st') = Some st'' →
     _conn st'' = None ∧ _pending_send st'' = [] ∧
     sent (events st'') = sent (events st)).
Proof.
  unfold disconnect. intros H.
  destruct (_conn st) as [c|] eqn:Hc; [|discriminate].
  destruct (conn_send c) as [[e|] c'] eqn:Hsend; [discriminate|].
  injection H as <-.
  cbn [_conn _pending_send _pending_publish _subs heap events set_conn log
       set_pending_send].
  do 6 (split; [done|]). split; [done|]. split; [done|].
  intros fuel c0 st'' Hfinal.
  pose proof (exec_stays_offline impl fuel c0
                (set_conn None
                   (log EvClosed (set_conn (Some c') (set_pending_send [] st)))))
    as Hr.
  destruct (exec impl fuel c0 _); simpl in Hfinal; [| |done];
    injection Hfinal as <-; destruct (Hr eq_refl) as (H1 & H2 & H3);
    (split; [done|]); (split; [done|]); rewrite H3; simpl;
    by apply sent_snoc.
Qed.

Lemma disconnect_goes_offline_witness :
  ∃ st' st'',
    disconnect st_online = Ok st' ∧
    final (exec impl_ex 20 (CNetPublish (TStr "a") kw_hello) st') = Some st'' ∧
    _conn st'' = None ∧ _pending_send st'' = [] ∧
    sent (events st'') = [] ∧
    invocations (events st'') = [(2, ["a"], kw_hello); (6, ["a"], kw_hello)].
Proof.
  eexists. eexists. split; [reflexivity|].
  split; [vm_compute; reflexivity|].
  destruct (disconnect_goes_offline impl_ex st_online _ eq_refl)
    as (_ & _ & _ & _ & _ & _ & _ & _ & Hafter).
  destruct (Hafter 20 (CNetPublish (TStr "a") kw_hello) _ eq_refl)
    as (H1 & H2 & H3).
  split; [exact H1|]. split; [exact H2|]. split; [exact H3|].
  reflexivity.
Defined.

(** X14.  When the farewell of disconnect cannot be sent, disconnect
    raises what the send raised, and the endpoint still holds its
    connection, not closed -- but what was queued for the broker is
    dropped all the same. *)
Theorem failed_disconnect_stays_connected (st : State) (c : Connection)
    (e : Exn) :
  _conn st = Some c →
  (conn_send c).1 = Some e →
  ∃ st',
    disconnect st = Raise e st' ∧
    _conn st' = Some (conn_send c).2 ∧
    _pending_send st' = [] ∧
    _pending_publish st' = _pending_publish st ∧
    events st' = events st ∧
    _subs st' = _subs st ∧ heap st' = heap st ∧
    _flushing st' = _flushing st.
Proof.
  intros Hc Hsend. unfold disconnect. rewrite Hc.
  destruct (conn_send c) as [r c'] eqn:Heq. simpl in Hsend. subst r.
  eexists. split; [reflexivity|]. done.
Qed.

Lemma failed_disconnect_stays_connected_witness :
  ∃ st',
    disconnect
      (set_conn (Some {| readable := []; send_results := [Some BrokenPipeError] |})
         (set_pending_send [(TStr "x", [])] st_connected)) =
      Raise BrokenPipeError st' ∧
    is_Some (_conn st') ∧
    _pending_send st' = [].
Proof.
  destruct (failed_disconnect_stays_connected
              (set_conn (Some {| readable := [];
                                 send_results := [Some BrokenPipeError] |})
                 (set_pending_send [(TStr "x", [])] st_connected))
              {| readable := []; send_results := [Some BrokenPipeError] |}
              BrokenPipeError)
    as (st' & H1 & H2 & H3 & _).
  - reflexivity.
  - reflexivity.
  - exists st'. split; [exact H1|]. split; [by eexists|exact H3].
Defined.

End LifecycleTheorems.
(* ===================================================================== *)
(** ** The broker: what a client receives, start-up and shutdown *)
(* ===================================================================== *)

Section DeliveryFacts.
Import Broker BrokerSpec MoreBrokerSpec.

Lemma sent_to_app dst evs1 evs2 :
  sent_to dst (evs1 ++ evs2) = sent_to dst evs1 ++ sent_to dst evs2.
Proof. apply omap_app. Qed.

Lemma filter_eq_absent (dst : Conn) (l : list Conn) :
  dst ∉ l → filter (λ x, x = dst) l = [].
Proof.
  induction l as [|x l IH]; intros Hin; [done|].
  rewrite filter_cons. destruct (decide (x = dst)) as [->|Hne].
  - destruct Hin. by left.
  - apply IH. intros H. apply Hin. by right.
Qed.

Lemma filter_eq_NoDup (dst : Conn) (l : list Conn) :
  NoDup l → dst ∈ l → filter (λ x, x = dst) l = [dst].
Proof.
  induction 1 as [|x l Hx Hnd IH]; intros Hin; [by apply elem_of_nil in Hin|].
  rewrite filter_cons. destruct (decide (x = dst)) as [->|Hne].
  - f_equal. by apply filter_eq_absent.
  - apply elem_of_cons in Hin as [->|Hin]; [done|]. by apply IH.
Qed.

(** One send of Broker._send, seen from a destination to which every
    send succeeds. *)
Lemma send_to_healthy conn control m other closed st dst :
  (∀ c x, x ∈ send_results st c → handled x) →
  (∀ x, x ∈ send_results st dst → x = None) →
  dst ∉ closed →
  ∃ closed' st' evs,
    send_to conn control m other closed st = Ok (closed', st') ∧
    events st' = events st ++ evs ∧
    frame st st' ∧
    (dst ∉ closed') ∧
    sent_to dst evs =
      if bool_decide (other = dst ∧ dst ≠ conn ∧ dst ≠ control)
      then [(WMsg m, None)] else [].
Proof.
  intros Hres Hdst Hopen. unfold send_to.
  destruct (bool_decide (other = conn) || bool_decide (other = control)
            || bool_decide (other ∈ closed)) eqn:Hskip.
  - exists closed, st, []. rewrite app_nil_r.
    split; [done|]. split; [done|]. split; [apply frame_refl|].
    split; [done|]. rewrite bool_decide_eq_false_2; [done|].
    intros (-> & Hne1 & Hne2).
    apply orb_true_iff in Hskip as [Hskip|Hskip].
    + apply orb_true_iff in Hskip as [H|H]; by apply bool_decide_eq_true in H.
    + by apply bool_decide_eq_true in Hskip.
  - apply orb_false_iff in Hskip as [Hskip Hnc].
    apply orb_false_iff in Hskip as [Hne1 Hne2].
    apply bool_decide_eq_false in Hne1, Hne2, Hnc.
    destruct (conn_send_frame other (WMsg m) st) as (Hfr & Hev & Hr).
    destruct (conn_send other (WMsg m) st) as [r st1] eqn:Hsend.
    simpl in Hfr, Hev, Hr.
    assert (other = dst → r = None) as Hhealthy.
    { intros ->. destruct Hr as [Hr|Hr]; [done|]. by apply Hdst. }
    assert (sent_to dst [EvSend other (WMsg m) r] =
            if bool_decide (other = dst ∧ dst ≠ conn ∧ dst ≠ control)
            then [(WMsg m, None)] else []) as Hone.
    { simpl. destruct (decide (other = dst)) as [Heq|Hneq].
      - rewrite (Hhealthy Heq). subst other.
        by rewrite bool_decide_eq_true_2.
      - rewrite bool_decide_eq_false_2; [done|]. by intros (? & _). }
    destruct r as [e|].
    + assert (other ≠ dst) as Hneq by (intros H; by specialize (Hhealthy H)).
      assert (handled (Some e)) as Hh.
      { apply (Hres other). by destruct Hr. }
      destruct (isinstance e ConnectionError) eqn:Hce.
      * exists ({[other]} ∪ closed), (log (EvClose other) st1),
          [EvSend other (WMsg m) (Some e); EvClose other].
        split; [done|]. split; [simpl; by rewrite Hev, <- app_assoc|].
        split; [exact (frame_trans _ _ _ Hfr (frame_log _ _))|].
        split.
        { intros [Hd%elem_of_singleton|Hd]%elem_of_union; [congruence|done]. }
        rewrite <- Hone. simpl. by destruct (decide (other = dst)).
      * destruct (isinstance e ValueError) eqn:Hve.
        -- exists closed, (log EvLogCritical st1),
             [EvSend other (WMsg m) (Some e); EvLogCritical].
           split; [done|]. split; [simpl; by rewrite Hev, <- app_assoc|].
           split; [exact (frame_trans _ _ _ Hfr (frame_log _ _))|].
           split; [done|].
           rewrite <- Hone. simpl. by destruct (decide (other = dst)).
        -- simpl in Hh. destruct Hh; congruence.
    + exists closed, st1, [EvSend other (WMsg m) None].
      split; [done|]. split; [done|]. split; [done|]. split; [done|].
      exact Hone.
Qed.

Lemma send_each_healthy conn control m dst dsts :
  ∀ closed st,
    (∀ c x, x ∈ send_results st c → handled x) →
    (∀ x, x ∈ send_results st dst → x = None) →
    dst ∉ closed →
    ∃ closed' st' evs,
      send_each conn control m dsts closed st = Ok (closed', st') ∧
      events st' = events st ++ evs ∧
      frame st st' ∧
      (dst ∉ closed') ∧
      sent_to dst evs =
        if bool_decide (dst ≠ conn ∧ dst ≠ control)
        then (λ _, (WMsg m, None)) <$> filter (λ x, x = dst) dsts else [].
Proof.
  induction dsts as [|other dsts IH]; intros closed st Hres Hdst Hopen.
  - exists closed, st, []. rewrite app_nil_r.
    split; [done|]. split; [done|]. split; [apply frame_refl|].
    split; [done|]. by case_bool_decide.
  - simpl.
    destruct (send_to_healthy conn control m other closed st dst Hres Hdst
                Hopen)
      as (closed1 & st1 & evs1 & -> & Hev1 & Hfr1 & Hopen1 & Hs1).
    destruct Hfr1 as (Hcl1 & Hpe1 & Hsr1).
    destruct (IH closed1 st1) as (closed2 & st2 & evs2 & -> & Hev2 & Hfr2
                                  & Hopen2 & Hs2).
    { intros c x Hx. apply (Hres c). by apply Hsr1. }
    { intros x Hx. apply Hdst. by apply Hsr1. }
    { done. }
    exists closed2, st2, (evs1 ++ evs2).
    split; [done|]. split; [by rewrite Hev2, Hev1, <- app_assoc|].
    split; [exact (frame_trans _ _ _ (conj Hcl1 (conj Hpe1 Hsr1)) Hfr2)|].
    split; [done|].
    rewrite sent_to_app, Hs1, Hs2, filter_cons.
    destruct (decide (other = dst)) as [->|Hneq].
    + destruct (decide (dst ≠ conn ∧ dst ≠ control)) as [Hok|Hno].
      * rewrite (bool_decide_eq_true_2 (dst = dst ∧ _)) by (by split).
        by rewrite (bool_decide_eq_true_2 (dst ≠ conn ∧ _)) by done.
      * rewrite (bool_decide_eq_false_2 (dst = dst ∧ _)) by (by intros (_ & ?)).
        by rewrite (bool_decide_eq_false_2 (dst ≠ conn ∧ _)) by done.
    + rewrite bool_decide_eq_false_2; [done|]. by intros (? & _).
Qed.

Lemma send_pending_healthy control clients dst queue :
  (∀ src w, (src, w) ∈ queue → ∃ m, w = WMsg m) →
  dst ∈ clients → dst ≠ control →
  ∀ closed st,
    (∀ c x, x ∈ send_results st c → handled x) →
    (∀ x, x ∈ send_results st dst → x = None) →
    dst ∉ closed →
    ∃ closed' st' evs,
      send_pending control clients queue closed st = Ok (closed', st') ∧
      events st' = events st ++ evs ∧
      frame st st' ∧
      (dst ∉ closed') ∧
      sent_to dst evs =
        (λ p, (p.2, None)) <$> filter (λ p, p.1 ≠ dst) queue.
Proof.
  intros Hpay Hin Hctl.
  induction queue as [|[conn w] queue IH]; intros closed st Hres Hdst Hopen.
  - exists closed, st, []. rewrite app_nil_r.
    split; [done|]. split; [done|]. split; [apply frame_refl|]. done.
  - destruct (Hpay conn w) as [m ->]; [by left|]. simpl.
    destruct (send_each_healthy conn control m dst (elements clients)
                closed st Hres Hdst Hopen)
      as (closed1 & st1 & evs1 & -> & Hev1 & Hfr1 & Hopen1 & Hs1).
    destruct Hfr1 as (Hcl1 & Hpe1 & Hsr1).
    destruct IH with (closed := closed1) (st := st1)
      as (closed2 & st2 & evs2 & -> & Hev2 & Hfr2 & Hopen2 & Hs2).
    { intros src w Hw. apply (Hpay src w). by right. }
    { intros c x Hx. apply (Hres c). by apply Hsr1. }
    { intros x Hx. apply Hdst. by apply Hsr1. }
    { done. }
    exists closed2, st2, (evs1 ++ evs2).
    split; [done|]. split; [by rewrite Hev2, Hev1, <- app_assoc|].
    split; [exact (frame_trans _ _ _ (conj Hcl1 (conj Hpe1 Hsr1)) Hfr2)|].
    split; [done|].
    rewrite sent_to_app, Hs1, Hs2, filter_cons. simpl.
    rewrite filter_eq_NoDup;
      [|apply NoDup_elements|by apply elem_of_elements].
    destruct (decide (conn ≠ dst)) as [Hne|Heq].
    + rewrite bool_decide_eq_true_2 by (split; [congruence|done]). done.
    + rewrite bool_decide_eq_false_2; [done|]. intros (? & _).
      apply Heq. congruence.
Qed.

End DeliveryFacts.

Section DeliveryTheorems.
Import Broker BrokerSpec MoreBrokerSpec.

(** X15.  What a client receives in one forwarding step.  When every
    pending entry is a payload and no send raises anything but a
    ConnectionError or a ValueError, a member of the client set other
    than the control connection, to which every send succeeds, is
    handed the pending payloads of the other connections -- each of
    them once, in the order they were queued, and nothing else -- and
    it stays in the client set. *)
Theorem healthy_client_receives_all_in_order (control : Conn)
    (joined : gset Conn) (st : State) (dst : Conn) :
  (∀ src w, (src, w) ∈ pending st → ∃ m, w = WMsg m) →
  (∀ c x, x ∈ send_results st c → handled x) →
  dst ∈ _clients st →
  dst ≠ control →
  (∀ x, x ∈ send_results st dst → x = None) →
  ∃ st' evs,
    _send control joined st = Ok st' ∧
    events st' = events st ++ evs ∧
    sent_to dst evs =
      (λ p, (p.2, None)) <$> filter (λ p, p.1 ≠ dst) (pending st) ∧
    dst ∈ _clients st'.
Proof.
  intros Hpay Hres Hin Hctl Hdst.
  destruct (send_pending_healthy control (_clients st) dst (pending st)
              Hpay Hin Hctl ∅ st Hres Hdst)
    as (closed & st1 & evs & Hrun & Hev & (Hcl & _) & Hopen & Hs);
    [set_solver|].
  exists (set_clients ((_clients st1 ∪ joined) ∖ closed) (set_pending [] st1)),
    evs.
  unfold _send. rewrite Hrun. simpl.
  split; [done|]. split; [done|]. split; [done|].
  rewrite Hcl. apply elem_of_difference. split; [|done].
  apply elem_of_union. by left.
Qed.

Lemma healthy_client_receives_all_in_order_witness :
  ∃ st' evs,
    _send 0 ∅ Examples.bk_fanout = Ok st' ∧
    events st' = evs ∧
    sent_to 1 evs =
      (λ p, (p.2, None)) <$>
        filter (λ p, p.1 ≠ 1) (pending Examples.bk_fanout) ∧
    1 ∈ _clients st'.
Proof.
  destruct (healthy_client_receives_all_in_order 0 ∅ Examples.bk_fanout 1)
    as (st' & evs & H1 & H2 & H3 & H4).
  - intros src w H. simpl in H.
    repeat (apply elem_of_cons in H as [H|H];
            [injection H as -> ->; by eexists|]).
    by apply elem_of_nil in H.
  - intros c x H. simpl in H.
    destruct c as [|[|[|[|c]]]]; simpl in H;
      try (by apply elem_of_nil in H).
    apply list_elem_of_singleton in H as ->. left. reflexivity.
  - vm_compute. reflexivity.
  - discriminate.
  - intros x H. simpl in H. by apply elem_of_nil in H.
  - exists st', evs. split; [exact H1|]. split; [exact H2|].
    split; [exact H3|exact H4].
Defined.

End DeliveryTheorems.

Section ForwarderFacts.
Import Broker BrokerSpec MoreBrokerSpec.

Lemma send_pending_app control clients q1 q2 :
  ∀ closed st,
    send_pending control clients (q1 ++ q2) closed st =
    match send_pending control clients q1 closed st with
    | Ok (closed', st') => send_pending control clients q2 closed' st'
    | r => r
    end.
Proof.
  induction q1 as [|[conn w] q1 IH]; intros closed st; [done|].
  simpl. destruct w; try done.
  destruct (send_each conn control m (elements clients) closed st)
    as [[closed1 st1]| |]; [apply IH|done|done].
Qed.

Lemma add_remove_fresh (c : Conn) (X : gset Conn) :
  c ∉ X → ({[c]} ∪ X) ∖ {[c]} = X.
Proof.
  intros Hc. apply set_eq. intros x.
  rewrite elem_of_difference, elem_of_union, !elem_of_singleton.
  split.
  - by intros [[?|?] ?].
  - intros Hx. split; [by right|]. by intros ->.
Qed.

Lemma union_swap (c : Conn) (X S : gset Conn) :
  {[c]} ∪ X ∪ S = X ∪ ({[c]} ∪ S).
Proof. by rewrite (comm_L (∪) {[c]} X), <- (assoc_L (∪)). Qed.

(** The start-up of the forwarder up to the control connection. *)
Lemma get_control_conn_early pre rest :
  ∀ st,
    (∀ c r, (c, r) ∈ pre → ∃ w, r = Recv w ∧ w ≠ INIT) →
    (∀ c x, x ∈ send_results st c → x = None) →
    NoDup pre.*1 →
    (∀ c, c ∈ pre.*1 → c ∉ _clients st) →
    ∃ st1,
      _get_control_conn (pre ++ rest) st = _get_control_conn rest st1 ∧
      pending st1 = pending st ++ omap early_message pre ∧
      _clients st1 = _clients st ∪ list_to_set (omap early_client pre) ∧
      (∀ c x, x ∈ send_results st1 c → x = None).
Proof.
  induction pre as [|[conn r] pre IH]; intros st Hpre Hres Hnd Hfresh.
  - exists st. simpl. rewrite app_nil_r. split; [done|]. split; [done|].
    split; [by rewrite (right_id_L ∅ (∪))|done].
  - destruct (Hpre conn r) as (w & -> & Hw); [by left|].
    apply NoDup_cons in Hnd as [Hconn Hnd].
    assert (conn ∉ _clients st) as Hnew by (apply Hfresh; by left).
    assert (∀ c r, (c, r) ∈ pre → ∃ w, r = Recv w ∧ w ≠ INIT) as Hpre'
      by (intros c r Hc; apply (Hpre c r); by right).
    cbn [app _get_control_conn].
    set (st0 := set_clients ({[conn]} ∪ _clients st) st).
    assert (∀ c, c ∈ pre.*1 → c ∉ _clients st0) as Hfresh0.
    { intros c Hc. simpl. intros [H%elem_of_singleton|H]%elem_of_union.
      - by subst c.
      - revert H. apply Hfresh. by right. }
    destruct w as [| | | |m|tag].
    + by destruct Hw.
    + (* STOP *)
      destruct (IH (log (EvClose conn)
                      (set_clients (_clients st0 ∖ {[conn]}) st0)))
        as (st1 & Hrun & Hpe & Hcl & Hres1); [done|done|done| |].
      { intros c Hc. simpl. intros [H _]%elem_of_difference.
        by apply (Hfresh0 c Hc). }
      exists st1. split; [done|]. split; [done|]. split; [|done].
      rewrite Hcl. simpl. by rewrite add_remove_fresh.
    + (* an early None *)
      destruct (IH (set_pending (pending st0 ++ [(conn, WNone)]) st0))
        as (st1 & Hrun & Hpe & Hcl & Hres1); [done|done|done|done|].
      exists st1. split; [done|].
      split; [rewrite Hpe; simpl; by rewrite <- app_assoc|].
      split; [|done]. rewrite Hcl. simpl. apply union_swap.
    + (* NEWPUBSUB *)
      destruct (conn_send_frame conn WEllipsis st0) as ((Hc0 & Hp0 & Hs0) & _ & Hr).
      destruct (conn_send conn WEllipsis st0) as [r st'] eqn:Hsend.
      simpl in Hc0, Hp0, Hs0, Hr.
      assert (r = None) as ->.
      { destruct Hr as [Hr|Hr]; [done|]. by apply (Hres conn). }
      destruct (IH st') as (st1 & Hrun & Hpe & Hcl & Hres1); [done| |done| |].
      { intros c x Hx. apply (Hres c). by apply Hs0. }
      { intros c Hc. rewrite Hc0. by apply Hfresh0. }
      exists st1. split; [done|]. split; [by rewrite Hpe, Hp0|].
      split; [|done]. rewrite Hcl, Hc0. simpl. apply union_swap.
    + destruct (IH (set_pending (pending st0 ++ [(conn, WMsg m)]) st0))
        as (st1 & Hrun & Hpe & Hcl & Hres1); [done|done|done|done|].
      exists st1. split; [done|].
      split; [rewrite Hpe; simpl; by rewrite <- app_assoc|].
      split; [|done]. rewrite Hcl. simpl. apply union_swap.
    + destruct (IH (set_pending (pending st0 ++ [(conn, WOther tag)]) st0))
        as (st1 & Hrun & Hpe & Hcl & Hres1); [done|done|done|done|].
      exists st1. split; [done|].
      split; [rewrite Hpe; simpl; by rewrite <- app_assoc|].
      split; [|done]. rewrite Hcl. simpl. apply union_swap.
Qed.

(** A start-up that returns has echoed INIT on the connection it
    returns, which is in the client set. *)
Lemma get_control_conn_ok accepted :
  ∀ st control st1,
    _get_control_conn accepted st = Ok (control, st1) →
    control ∈ _clients st1 ∧
    ∃ evs, events st1 = events st ++ evs ∧ EvSend control INIT None ∈ evs.
Proof.
  induction accepted as [|[conn r] accepted IH]; intros st control st1 H;
    [done|].
  cbn [_get_control_conn] in H.
  set (st0 := set_clients ({[conn]} ∪ _clients st) st) in H.
  destruct r as [w|e]; [|done].
  destruct w as [| | | |m|tag].
  - destruct (conn_send_frame conn WTrue st0) as ((Hc0 & _) & Hev & _).
    destruct (conn_send conn WTrue st0) as [[e|] st'] eqn:Hsend; [done|].
    injection H as <- <-. simpl in Hc0, Hev.
    split; [rewrite Hc0; simpl; apply elem_of_union; left;
            by apply elem_of_singleton|].
    exists [EvSend conn WTrue None]. split; [done|]. by left.
  - destruct (IH _ _ _ H) as (Hin & evs & Hev & Hi). split; [done|].
    exists (EvClose conn :: evs). split; [|by right].
    rewrite Hev. simpl. by rewrite <- app_assoc.
  - destruct (IH _ _ _ H) as (Hin & evs & Hev & Hi). split; [done|].
    by exists evs.
  - destruct (conn_send_frame conn WEllipsis st0) as (_ & Hev0 & _).
    destruct (conn_send conn WEllipsis st0) as [[e|] st'] eqn:Hsend; [done|].
    simpl in Hev0.
    destruct (IH _ _ _ H) as (Hin & evs & Hev & Hi). split; [done|].
    exists (EvSend conn WEllipsis None :: evs). split; [|by right].
    rewrite Hev, Hev0. simpl. by rewrite <- app_assoc.
  - destruct (IH _ _ _ H) as (Hin & evs & Hev & Hi). split; [done|].
    by exists evs.
  - destruct (IH _ _ _ H) as (Hin & evs & Hev & Hi). split; [done|].
    by exists evs.
Qed.

(** Reading one connection keeps the client set; the control variable
    is cleared only by a STOP on the control connection that was echoed,
    and the control connection is not put into the closed set before. *)
Lemma read_one_control ctl conn r control closed st control' closed' st' :
  read_one conn r control closed st = Ok (control', closed', st') →
  _clients st' = _clients st ∧
  ∃ evs, events st' = events st ++ evs ∧
    ((control' = control ∧
      (control = Some ctl → ctl ∉ closed → ctl ∉ closed')) ∨
     (control' = None ∧ ∃ c, control = Some c ∧ EvSend c STOP None ∈ evs)).
Proof.
  unfold read_one.
  set (recvd := match r with Recv w => inl w | RecvRaise e => _ end).
  destruct recvd as [msg|e]; [|done].
  destruct (bool_decide (control = Some conn)) eqn:Hc.
  - apply bool_decide_eq_true in Hc.
    destruct (conn_send_frame conn msg st) as ((Hc0 & _) & Hev & _).
    destruct (conn_send conn msg st) as [[e|] st1]; [done|].
    simpl in Hc0, Hev.
    destruct msg; try done; intros [= <- <- <-]; (split; [done|]);
      eexists; (split; [exact Hev|]).
    + right. split; [done|]. exists conn. split; [done|]. by left.
    + left. by split.
  - apply bool_decide_eq_false in Hc.
    destruct msg; intros [= <- <- <-]; (split; [done|]);
      first [ exists []; rewrite app_nil_r; split; [done|]; left;
              by split
            | exists [EvClose conn]; split; [done|]; left; split; [done|];
              intros -> Hn [H%elem_of_singleton|H]%elem_of_union;
              [congruence|done] ].
Qed.

Lemma read_ready_control ctl ready :
  ∀ control closed st control' closed' st',
    read_ready ready control closed st = Ok (control', closed', st') →
    _clients st' = _clients st ∧
    ∃ evs, events st' = events st ++ evs ∧
      ((control' = control ∧
        (control = Some ctl → ctl ∉ closed → ctl ∉ closed')) ∨
       (control' = None ∧
        ∃ c, control = Some c ∧ EvSend c STOP None ∈ evs)).
Proof.
  induction ready as [|[conn r] ready IH];
    intros control closed st control' closed' st' H; simpl in H.
  - injection H as <- <- <-. split; [done|]. exists [].
    rewrite app_nil_r. split; [done|]. left. by split.
  - destruct (read_one conn r control closed st)
      as [[[control1 closed1] st1]| |] eqn:Hone; [|done..].
    destruct (read_one_control ctl _ _ _ _ _ _ _ _ Hone)
      as (Hc1 & evs1 & Hev1 & Hd1).
    destruct (IH _ _ _ _ _ _ H) as (Hc2 & evs2 & Hev2 & Hd2).
    split; [congruence|]. exists (evs1 ++ evs2).
    split; [by rewrite Hev2, Hev1, <- app_assoc|].
    destruct Hd1 as [[-> Hk1]|(-> & c & -> & Hs1)].
    + destruct Hd2 as [[-> Hk2]|(-> & c & -> & Hs2)].
      * left. split; [done|]. intros Hc Hn. apply Hk2; [done|]. by apply Hk1.
      * right. split; [done|]. exists c. split; [done|].
        apply elem_of_app. by right.
    + destruct Hd2 as [[-> _]|(_ & c' & ? & _)]; [|done].
      right. split; [done|]. exists c. split; [done|].
      apply elem_of_app. by left.
Qed.

(** The closed set of Broker._send never holds the control connection. *)
Lemma send_to_keeps_control conn control m other closed st closed' st' :
  send_to conn control m other closed st = Ok (closed', st') →
  control ∉ closed →
  (control ∉ closed') ∧ _clients st' = _clients st.
Proof.
  unfold send_to.
  destruct (bool_decide (other = conn) || bool_decide (other = control)
            || bool_decide (other ∈ closed)) eqn:Hskip.
  - by intros [= <- <-].
  - apply orb_false_iff in Hskip as [Hskip _].
    apply orb_false_iff in Hskip as [_ Hne].
    apply bool_decide_eq_false in Hne.
    destruct (conn_send_frame other (WMsg m) st) as ((Hc0 & _) & _).
    destruct (conn_send other (WMsg m) st) as [[e|] st1]; simpl in Hc0.
    + destruct (isinstance e ConnectionError).
      * intros [= <- <-] Hn. split; [|done].
        intros [H%elem_of_singleton|H]%elem_of_union; [congruence|done].
      * destruct (isinstance e ValueError); [|done].
        by intros [= <- <-].
    + by intros [= <- <-].
Qed.

Lemma send_each_keeps_control conn control m dsts :
  ∀ closed st closed' st',
    send_each conn control m dsts closed st = Ok (closed', st') →
    control ∉ closed →
    (control ∉ closed') ∧ _clients st' = _clients st.
Proof.
  induction dsts as [|other dsts IH]; intros closed st closed' st' H Hn;
    simpl in H.
  - by injection H as <- <-.
  - destruct (send_to conn control m other closed st)
      as [[closed1 st1]| |] eqn:Hone; [|done..].
    destruct (send_to_keeps_control _ _ _ _ _ _ _ _ Hone Hn) as [Hn1 Hc1].
    destruct (IH _ _ _ _ H Hn1) as [Hn2 Hc2]. split; [done|congruence].
Qed.

Lemma send_pending_keeps_control control clients queue :
  ∀ closed st closed' st',
    send_pending control clients queue closed st = Ok (closed', st') →
    control ∉ closed →
    (control ∉ closed') ∧ _clients st' = _clients st.
Proof.
  induction queue as [|[conn w] queue IH]; intros closed st closed' st' H Hn;
    simpl in H.
  - by injection H as <- <-.
  - destruct w; try done.
    destruct (send_each conn control m (elements clients) closed st)
      as [[closed1 st1]| |] eqn:Hone; [|done..].
    destruct (send_each_keeps_control _ _ _ _ _ _ _ _ Hone Hn) as [Hn1 Hc1].
    destruct (IH _ _ _ _ H Hn1) as [Hn2 Hc2]. split; [done|congruence].
Qed.

Lemma _send_keeps_control control joined st st' :
  _send control joined st = Ok st' →
  control ∈ _clients st →
  control ∈ _clients st' ∧ ∃ evs, events st' = events st ++ evs.
Proof.
  unfold _send. intros H Hin.
  pose proof (send_pending_payload control (_clients st) (pending st) ∅ st)
    as Hg.
  destruct (send_pending control (_clients st) (pending st) ∅ st)
    as [[closed1 st1]| |] eqn:Hrun; [|done..].
  destruct (send_pending_keeps_control _ _ _ _ _ _ _ Hrun) as [Hn Hc];
    [apply not_elem_of_empty|].
  injection H as <-. simpl. split.
  - apply elem_of_difference. split; [|done]. apply elem_of_union. left.
    by rewrite Hc.
  - destruct Hg as (evs & Hev & _). by exists evs.
Qed.

(** The main loop returns only after a STOP on the control connection
    was echoed, and the control connection is still in the client
    set. *)
Lemma main_loop_ok control rounds :
  ∀ st st',
    main_loop control rounds st = Ok st' →
    control ∈ _clients st →
    control ∈ _clients st' ∧
    ∃ evs, events st' = events st ++ evs ∧ EvSend control STOP None ∈ evs.
Proof.
  induction rounds as [|rd rounds IH]; intros st st' H Hin;
    cbn [main_loop] in H.
  - rewrite bool_decide_eq_false_2 in H; [done|].
    intros Hempty. rewrite Hempty in Hin. by apply elem_of_empty in Hin.
  - set (st0 := set_clients (_clients st ∪ joined_before_copy rd) st) in H.
    assert (control ∈ _clients st0) as Hin0
      by (simpl; apply elem_of_union; by left).
    rewrite bool_decide_eq_false_2 in H.
    2:{ intros Hempty. rewrite Hempty in Hin0.
        by apply elem_of_empty in Hin0. }
    destruct (read_ready (filter (λ cr, cr.1 ∈ _clients st0) (ready rd))
                (Some control) ∅ st0)
      as [[[control1 closed1] st1]| |] eqn:Hread; [|done..].
    destruct (read_ready_control control _ _ _ _ _ _ _ Hread)
      as (Hc1 & evs1 & Hev1 & Hd1).
    destruct Hd1 as [[-> Hk1]|(-> & c & [= <-] & Hs1)].
    + set (st2 := set_clients _ (set_clients _ st1)) in H.
      assert (control ∈ _clients st2) as Hin2.
      { simpl. apply elem_of_union. left. apply elem_of_difference.
        split; [|apply Hk1; [done|apply not_elem_of_empty]].
        apply elem_of_union. left. by rewrite Hc1. }
      destruct (_send control (joined_during_send rd) st2) as [st3| |]
        eqn:Hsend; [|done..].
      destruct (_send_keeps_control _ _ _ _ Hsend Hin2) as (Hin3 & evs2 & Hev2).
      destruct (IH _ _ H Hin3) as (Hin' & evs3 & Hev3 & Hs3).
      split; [done|]. exists (evs1 ++ evs2 ++ evs3).
      split.
      * rewrite Hev3, Hev2. simpl. rewrite Hev1. simpl.
        by rewrite <- !app_assoc.
      * apply elem_of_app. right. apply elem_of_app. by right.
    + injection H as <-. split; [by rewrite Hc1|].
      exists evs1. by split.
Qed.

Lemma close_all_events st :
  _clients (close_all st) = ∅ ∧
  pending (close_all st) = pending st ∧
  events (close_all st) = events st ++ (EvClose <$> elements (_clients st)).
Proof.
  unfold close_all.
  assert (∀ l st0,
            pending (foldl (λ st c, log (EvClose c) st) st0 l) = pending st0 ∧
            events (foldl (λ st c, log (EvClose c) st) st0 l) =
              events st0 ++ (EvClose <$> l)) as Hfold.
  { induction l as [|c l IH]; intros st0; simpl.
    - by rewrite app_nil_r.
    - destruct (IH (log (EvClose c) st0)) as [-> ->]. simpl.
      by rewrite <- app_assoc. }
  destruct (Hfold (elements (_clients st)) st) as [Hp He].
  by split.
Qed.

End ForwarderFacts.

Section ForwarderTheorems.
Import Broker BrokerSpec MoreBrokerSpec.

(** X16.  The start-up of the forwarder, when no send fails.  Of the
    connections accepted before the one that says INIT -- each a new
    connection, none of which says INIT -- those that said STOP are
    out of the client set and all others are in it; what they sent that
    is no token of the greeting (None included) is queued as a message
    to forward, in the order of arrival; the connection that says INIT
    is returned as the control connection, in the client set; and
    connections accepted later play no part. *)
Theorem startup_until_init (pre post : list (Conn * RecvResult))
    (ctl : Conn) (st : State) :
  (∀ c r, (c, r) ∈ pre → ∃ w, r = Recv w ∧ w ≠ INIT) →
  (∀ c x, x ∈ send_results st c → x = None) →
  NoDup pre.*1 →
  (∀ c, c ∈ pre.*1 → c ∉ _clients st) →
  ∃ st',
    _get_control_conn (pre ++ (ctl, Recv INIT) :: post) st = Ok (ctl, st') ∧
    pending st' = pending st ++ omap early_message pre ∧
    _clients st' =
      {[ctl]} ∪ (_clients st ∪ list_to_set (omap early_client pre)).
Proof.
  intros Hpre Hres Hnd Hfresh.
  destruct (get_control_conn_early pre ((ctl, Recv INIT) :: post) st Hpre
              Hres Hnd Hfresh) as (st1 & -> & Hpe & Hcl & Hres1).
  unfold INIT. cbn [_get_control_conn].
  set (st0 := set_clients ({[ctl]} ∪ _clients st1) st1).
  destruct (conn_send_frame ctl WTrue st0) as ((Hc0 & Hp0 & _) & _ & Hr).
  destruct (conn_send ctl WTrue st0) as [r st'] eqn:Hsend.
  simpl in Hc0, Hp0, Hr.
  assert (r = None) as ->.
  { destruct Hr as [Hr|Hr]; [done|]. by apply (Hres1 ctl). }
  exists st'. split; [done|]. split; [by rewrite Hp0|].
  by rewrite Hc0, Hcl.
Qed.

Lemma startup_until_init_witness :
  ∃ st',
    _get_control_conn
      [(1, Recv NEWPUBSUB); (2, Recv STOP);
       (3, Recv (WMsg (TTuple ["d"], []))); (4, Recv NEWCONN);
       (0, Recv INIT); (5, Recv NEWPUBSUB)] (init (λ _, [])) =
      Ok (0, st') ∧
    pending st' = [(3, WMsg (TTuple ["d"], [])); (4, NEWCONN)] ∧
    _clients st' = {[0; 1; 3; 4]}.
Proof.
  destruct (startup_until_init
              [(1, Recv NEWPUBSUB); (2, Recv STOP);
               (3, Recv (WMsg (TTuple ["d"], []))); (4, Recv NEWCONN)]
              [(5, Recv NEWPUBSUB)] 0 (init (λ _, [])))
    as (st' & H1 & H2 & H3).
  - intros c r H.
    repeat (apply elem_of_cons in H as [H|H];
            [injection H as -> ->; by eexists|]).
    by apply elem_of_nil in H.
  - intros c x H. simpl in H. by apply elem_of_nil in H.
  - simpl. repeat (apply NoDup_cons; split; [intros H; not_member H|]).
    apply NoDup_nil_2.
  - intros c _. simpl. apply not_elem_of_empty.
  - exists st'. split; [exact H1|]. split; [exact H2|].
    rewrite H3. vm_compute. reflexivity.
Defined.

(** X17.  A token in the queue kills the forwarder.  A client that is
    not the control connection and sends INIT or NEWPUBSUB in the main
    loop has it queued like a message; and when the queue holds a token
    (INIT, STOP, NEWCONN or NEWPUBSUB) after payloads only, the
    forwarding step raises TypeError once it comes to it: the queue is
    not cleared, and the connections closed so far in the step stay in
    the client set. *)
Theorem stray_token_kills_forwarder :
  (∀ conn control closed st w,
     control ≠ Some conn →
     w = INIT ∨ w = NEWPUBSUB →
     read_one conn (Recv w) control closed st =
     Ok (control, closed, set_pending (pending st ++ [(conn, w)]) st)) ∧
  (∀ control joined st pre src w post,
     pending st = pre ++ (src, w) :: post →
     (∀ s w', (s, w') ∈ pre → ∃ m, w' = WMsg m) →
     is_token w →
     (∀ c x, x ∈ send_results st c → handled x) →
     ∃ st',
       _send control joined st = Raise TypeError st' ∧
       pending st' = pending st ∧
       _clients st' = _clients st).
Proof.
  split.
  - intros conn control closed st w Hne Hw. unfold read_one.
    rewrite bool_decide_eq_false_2 by done.
    by destruct Hw as [-> | ->].
  - intros control joined st pre src w post Hq Hpre Hw Hres.
    destruct (send_pending_spec control (_clients st) pre Hpre ∅ st []
                tidy_nil Hres)
      as (closed & st1 & evs & Hrun & _ & (Hcl & Hpe & _) & _).
    exists st1. unfold _send. rewrite Hq at 1.
    rewrite send_pending_app, Hrun. simpl.
    split; [|by split].
    by destruct Hw as [-> | [-> | [-> | ->]]].
Qed.

Lemma stray_token_kills_forwarder_witness :
  ∃ st1 st',
    read_one 2 (Recv INIT) (Some 0) ∅ Examples.bk_fanout =
      Ok (Some 0, ∅, st1) ∧
    _send 0 ∅ st1 = Raise TypeError st' ∧
    pending st' = pending Examples.bk_fanout ++ [(2, INIT)] ∧
    _clients st' = _clients Examples.bk_fanout.
Proof.
  destruct stray_token_kills_forwarder as [Hread Hsend].
  eexists.
  destruct (Hsend 0 ∅
              (set_pending (pending Examples.bk_fanout ++ [(2, INIT)])
                 Examples.bk_fanout)
              (pending Examples.bk_fanout) 2 INIT [])
    as (st' & H1 & H2 & H3).
  - reflexivity.
  - intros s w' H. simpl in H.
    repeat (apply elem_of_cons in H as [H|H];
            [injection H as -> ->; by eexists|]).
    by apply elem_of_nil in H.
  - by left.
  - intros c x H. simpl in H.
    destruct c as [|[|[|[|c]]]]; simpl in H;
      try (by apply elem_of_nil in H).
    apply list_elem_of_singleton in H as ->. left. reflexivity.
  - exists st'. split; [apply Hread; [discriminate|by left]|].
    split; [exact H1|]. split; [exact H2|exact H3].
Defined.

(** X18.  The forwarder thread returns only after an orderly shutdown:
    whenever _broker returns, it has echoed INIT and later STOP, both
    without error, on the connection it took for control, it has closed
    that connection, and the client set is empty. *)
Theorem forwarder_returns_after_stop (accepted : list (Conn * RecvResult))
    (rounds : list Round) (st st' : State) :
  _broker accepted rounds st = Ok st' →
  _clients st' = ∅ ∧
  ∃ control evs1 evs2 evs3,
    events st' = events st ++ evs1 ++ evs2 ++ evs3 ∧
    EvSend control INIT None ∈ evs1 ∧
    EvSend control STOP None ∈ evs2 ∧
    EvClose control ∈ evs3.
Proof.
  unfold _broker. intros H.
  destruct (_get_control_conn accepted st) as [[control st1]| |] eqn:Hstart;
    [|done..].
  destruct (get_control_conn_ok _ _ _ _ Hstart) as (Hin1 & evs1 & Hev1 & Hi).
  destruct (main_loop control rounds st1) as [st2| |] eqn:Hloop; [|done..].
  destruct (main_loop_ok _ _ _ _ Hloop Hin1) as (Hin2 & evs2 & Hev2 & Hs).
  injection H as <-.
  destruct (close_all_events st2) as (Hc & _ & Hev3).
  split; [done|].
  exists control, evs1, evs2, (EvClose <$> elements (_clients st2)).
  split; [by rewrite Hev3, Hev2, Hev1, <- !app_assoc|].
  split; [done|]. split; [done|].
  apply list_elem_of_fmap. exists control. split; [done|].
  by apply elem_of_elements.
Qed.

Lemma forwarder_returns_after_stop_witness :
  ∃ st',
    _broker [(0, Recv INIT)] [Examples.stop_round] (init (λ _, [])) = Ok st' ∧
    _clients st' = ∅ ∧
    events st' = [EvSend 0 INIT None; EvSend 0 STOP None; EvClose 0].
Proof.
  eexists. split; [vm_compute; reflexivity|].
  destruct (forwarder_returns_after_stop [(0, Recv INIT)]
              [Examples.stop_round] (init (λ _, [])) _ eq_refl) as [H _].
  split; [exact H|]. vm_compute. reflexivity.
Defined.

End ForwarderTheorems.

Section RoundFacts.
Import Broker BrokerSpec MoreBrokerSpec.

Lemma filter_all {A} (P : A → Prop) `{∀ x, Decision (P x)} (l : list A) :
  (∀ x, x ∈ l → P x) → filter P l = l.
Proof.
  induction l as [|x l IH]; intros Hall; [done|].
  rewrite filter_cons, decide_True by (apply Hall; by left).
  f_equal. apply IH. intros y Hy. apply Hall. by right.
Qed.

(** Reading payloads from clients queues them in the order read and
    does nothing else. *)
Lemma read_ready_payloads control msgs :
  ∀ closed st,
    (∀ src w, (src, w) ∈ msgs → control ≠ Some src ∧ ∃ m, w = WMsg m) →
    read_ready ((λ p, (p.1, Recv p.2)) <$> msgs) control closed st =
    Ok (control, closed, set_pending (pending st ++ msgs) st).
Proof.
  induction msgs as [|[src w] msgs IH]; intros closed st Hall.
  - simpl. rewrite app_nil_r. by destruct st.
  - destruct (Hall src w) as (Hne & m & ->); [by left|].
    cbn [fmap list_fmap read_ready fst snd]. unfold read_one.
    rewrite bool_decide_eq_false_2 by done.
    rewrite IH by (intros s w' Hs; apply Hall; by right).
    simpl. by rewrite <- app_assoc.
Qed.

End RoundFacts.

Section RoundTheorems.
Import Broker BrokerSpec MoreBrokerSpec.

(** X19.  One turn of the forwarder's main loop, when clients other
    than the control connection deliver payloads and no send fails:
    the turn ends with the queue empty and the loop goes on; every
    connection that is in the client set when the forwarding starts --
    those that joined during the turn included -- and is not the control
    connection is handed what was queued before and what was read in
    this turn, in that order, leaving out what it sent itself; and all
    of them stay in the client set. *)
Theorem round_forwards_in_order (control : Conn) (rd : Round)
    (rest : list Round) (st : State) (msgs : list (Conn * Wire)) :
  control ∈ _clients st →
  ready rd = (λ p, (p.1, Recv p.2)) <$> msgs →
  (∀ src w, (src, w) ∈ msgs →
     src ∈ _clients st ∪ joined_before_copy rd ∧ src ≠ control ∧
     ∃ m, w = WMsg m) →
  (∀ src w, (src, w) ∈ pending st → ∃ m, w = WMsg m) →
  (∀ c x, x ∈ send_results st c → x = None) →
  ∃ st' evs,
    main_loop control (rd :: rest) st = main_loop control rest st' ∧
    pending st' = [] ∧
    events st' = events st ++ evs ∧
    ∀ dst,
      dst ∈ _clients st ∪ joined_before_copy rd ∪ joined_before_prune rd
            ∪ joined_before_send rd →
      dst ∈ _clients st' ∧
      (dst ≠ control →
       sent_to dst evs =
         (λ p, (p.2, None)) <$>
           filter (λ p, p.1 ≠ dst) (pending st ++ msgs)).
Proof.
  intros Hctl Hready Hmsgs Hpend Hres.
  cbn [main_loop].
  set (st0 := set_clients (_clients st ∪ joined_before_copy rd) st).
  rewrite bool_decide_eq_false_2.
  2:{ intros Hempty. assert (control ∈ _clients st0) as Hin
        by (simpl; apply elem_of_union; by left).
      rewrite Hempty in Hin. by apply elem_of_empty in Hin. }
  rewrite Hready.
  rewrite filter_all.
  2:{ intros [c r] Hin. apply list_elem_of_fmap in Hin as ([src w] & [= -> ->] & Hin).
      simpl. by destruct (Hmsgs src w Hin) as (? & _). }
  rewrite read_ready_payloads.
  2:{ intros src w Hin. destruct (Hmsgs src w Hin) as (_ & Hne & Hm).
      split; [congruence|done]. }
  set (st2 := set_clients _ (set_clients _ (set_pending _ st0))).
  assert (∀ src w, (src, w) ∈ pending st2 → ∃ m, w = WMsg m) as Hpay.
  { intros src w Hin. simpl in Hin. apply elem_of_app in Hin as [Hin|Hin].
    - by apply (Hpend src w).
    - by destruct (Hmsgs src w Hin) as (_ & _ & ?). }
  assert (∀ c x, x ∈ send_results st2 c → handled x) as Hhandled.
  { intros c x Hx. simpl in Hx. by rewrite (Hres c x Hx). }
  destruct (send_pending_spec control (_clients st2) (pending st2) Hpay ∅ st2
              [] tidy_nil Hhandled)
    as (closed & st3 & evs & Hrun & Hev & (Hcl & _) & _).
  assert (_send control (joined_during_send rd) st2 =
          Ok (set_clients ((_clients st3 ∪ joined_during_send rd) ∖ closed)
                (set_pending [] st3))) as Hsend.
  { unfold _send. by rewrite Hrun. }
  rewrite Hsend.
  eexists _, evs. split; [reflexivity|]. split; [done|]. split; [done|].
  intros dst Hdst.
  assert (dst ∈ _clients st2) as Hin2.
  { simpl. apply elem_of_union in Hdst as [Hdst|Hdst];
      [|apply elem_of_union; by right].
    apply elem_of_union. left. apply elem_of_difference.
    split; [done|apply not_elem_of_empty]. }
  destruct (decide (dst = control)) as [->|Hne].
  - split; [|done].
    destruct (send_pending_keeps_control _ _ _ _ _ _ _ Hrun) as [Hn _];
      [apply not_elem_of_empty|].
    simpl. apply elem_of_difference. split; [|done].
    apply elem_of_union. left. by rewrite Hcl.
  - destruct (send_pending_healthy control (_clients st2) dst (pending st2)
                Hpay Hin2 Hne ∅ st2 Hhandled)
      as (closed' & st3' & evs' & Hrun' & Hev' & _ & Hopen & Hs).
    { intros x Hx. by apply (Hres dst). }
    { apply not_elem_of_empty. }
    rewrite Hrun in Hrun'. injection Hrun' as <- <-.
    rewrite Hev in Hev'. apply app_inv_head in Hev' as <-.
    split; [|by intros _].
    simpl. apply elem_of_difference. split; [|done].
    apply elem_of_union. left. by rewrite Hcl.
Qed.

Lemma round_forwards_in_order_witness :
  ∃ st' evs,
    main_loop 0
      [ {| joined_before_copy := {[1]};
           ready := [(1, Recv (WMsg (TTuple ["d"], [])))];
           joined_before_prune := ∅;
           joined_before_send := {[2]};
           joined_during_send := ∅ |} ]
      (set_clients {[0]} (init (λ _, []))) =
      main_loop 0 [] st' ∧
    events st' = evs ∧
    sent_to 2 evs = [(WMsg (TTuple ["d"], []), None)] ∧
    sent_to 1 evs = [] ∧
    2 ∈ _clients st'.
Proof.
  destruct (round_forwards_in_order 0
              {| joined_before_copy := {[1]};
                 ready := [(1, Recv (WMsg (TTuple ["d"], [])))];
                 joined_before_prune := ∅;
                 joined_before_send := {[2]};
                 joined_during_send := ∅ |} []
              (set_clients {[0]} (init (λ _, [])))
              [(1, WMsg (TTuple ["d"], []))])
    as (st' & evs & H1 & _ & H3 & H4).
  - vm_compute. reflexivity.
  - reflexivity.
  - intros src w H. apply list_elem_of_singleton in H as [= -> ->].
    split; [vm_compute; reflexivity|]. split; [discriminate|by eexists].
  - intros src w H. simpl in H. by apply elem_of_nil in H.
  - intros c x H. simpl in H. by apply elem_of_nil in H.
  - exists st', evs. split; [exact H1|]. split; [exact H3|].
    destruct (H4 2) as [Hin Hs2]; [vm_compute; reflexivity|].
    destruct (H4 1) as [_ Hs1]; [vm_compute; reflexivity|].
    split; [by rewrite Hs2|]. split; [by rewrite Hs1|exact Hin].
Defined.

End RoundTheorems.
